(** * Multi-unit tactical pathfinder: a shallow embedding and its properties

    The development follows the C++ sources:
    - [PathFinder.h] / [PathFinder.cpp]: [Position], [BattleMap], the
      single-unit A* search and the neighbour generation;
    - [MultiUnitPathFinder.h] / [MultiUnitPathFinder.cpp]: the unit registry,
      the temporal occupancy table, the temporal A* search, the four
      scheduling strategies, the step-by-step table and the collision scan;
    - [PathFinder.cpp] again: map loading, move orders, the breadth-first
      and depth-first searches and the path checks;
    - [main.cpp] and [PathAnimator.cpp]: partial results and the collisions
      shown during the animation.

    Conventions.  C++ [int] values are modelled by [Z] (the development is
    about the range in which no signed overflow occurs, which is undefined
    behaviour in C++).  The [double] costs of the search nodes only ever hold
    small non-negative integers (sums of ones and Manhattan distances), so
    they are modelled by [Z] as well and the epsilon comparison of
    [PathNodeComparator] becomes equality.  [std::map] and [std::set] are
    finite maps and finite sets; [std::vector] is a list.  The standard
    library algorithms the program calls ([std::priority_queue], [std::sort])
    are transcribed from GNU libstdc++, the library of the compiler chosen by
    the Makefile. *)

From Stdlib Require Import ZArith Lia String Ascii.
From stdpp Require Import gmap list strings sorting.

Local Open Scope Z_scope.

(** ** Standard library algorithms (GNU libstdc++) *)

(** Binary heap primitives of [bits/stl_heap.h], on a vector whose heap
    occupies the indices from 0. *)
Module StdHeap.
Section heap.
Context {A : Type} `{!Inhabited A} (comp : A → A → bool).

Fixpoint push_heap_loop (fuel : nat) (v : list A)
    (holeIndex topIndex : nat) (value : A) : list A :=
  let parent := ((holeIndex - 1) / 2)%nat in
  match fuel with
  | S fuel' =>
      if (topIndex <? holeIndex)%nat && comp (v !!! parent) value
      then push_heap_loop fuel' (<[holeIndex := v !!! parent]> v)
             parent topIndex value
      else <[holeIndex := value]> v
  | O => <[holeIndex := value]> v
  end.

(** [std::__push_heap]: the hole moves to its parent at each turn, so
    [holeIndex] turns are enough. *)
Definition __push_heap (v : list A) (holeIndex topIndex : nat) (value : A)
    : list A :=
  push_heap_loop holeIndex v holeIndex topIndex value.

Fixpoint adjust_heap_loop (fuel : nat) (v : list A)
    (holeIndex secondChild len : nat) : list A * nat * nat :=
  match fuel with
  | S fuel' =>
      if (secondChild <? (len - 1) / 2)%nat then
        let sc := (2 * (secondChild + 1))%nat in
        let sc := if comp (v !!! sc) (v !!! (sc - 1)%nat)
                  then (sc - 1)%nat else sc in
        adjust_heap_loop fuel' (<[holeIndex := v !!! sc]> v) sc sc len
      else (v, holeIndex, secondChild)
  | O => (v, holeIndex, secondChild)
  end.

(** [std::__adjust_heap].  The test [(len & 1) == 0 && secondChild ==
    (len - 2) / 2] is on signed integers; for [len < 2] it fails there,
    hence the explicit guard on the truncated subtraction. *)
Definition __adjust_heap (v : list A) (holeIndex len : nat) (value : A)
    : list A :=
  let topIndex := holeIndex in
  let '(v, holeIndex, secondChild) :=
    adjust_heap_loop len v holeIndex holeIndex len in
  let '(v, holeIndex) :=
    if Nat.even len && (2 <=? len)%nat
       && (secondChild =? (len - 2) / 2)%nat
    then let sc := (2 * (secondChild + 1))%nat in
         (<[holeIndex := v !!! (sc - 1)%nat]> v, (sc - 1)%nat)
    else (v, holeIndex) in
  __push_heap v holeIndex topIndex value.

(** [std::__pop_heap(first, last, result)] with [len = last - first]. *)
Definition __pop_heap (v : list A) (len result : nat) : list A :=
  let value := v !!! result in
  let v := <[result := v !!! 0%nat]> v in
  __adjust_heap v 0 len value.

Definition push_heap (v : list A) : list A :=
  __push_heap v (length v - 1) 0 (v !!! (length v - 1)%nat).

Definition pop_heap (v : list A) : list A :=
  if (1 <? length v)%nat
  then __pop_heap v (length v - 1) (length v - 1)
  else v.

Fixpoint make_heap_loop (parent : nat) (v : list A) (len : nat) : list A :=
  let v' := __adjust_heap v parent len (v !!! parent) in
  match parent with
  | O => v'
  | S p => make_heap_loop p v' len
  end.

Definition __make_heap (v : list A) : list A :=
  let len := length v in
  if (len <? 2)%nat then v else make_heap_loop ((len - 2) / 2) v len.

Fixpoint sort_heap_loop (last : nat) (v : list A) : list A :=
  match last with
  | S last' =>
      if (1 <? last)%nat
      then sort_heap_loop last' (__pop_heap v last' last')
      else v
  | O => v
  end.

Definition __sort_heap (v : list A) : list A := sort_heap_loop (length v) v.

(** [std::priority_queue] over a [std::vector] (bits/stl_queue.h). *)
Definition pq_push (x : A) (c : list A) : list A := push_heap (c ++ [x]).
Definition pq_top (c : list A) : option A := c !! 0%nat.
Definition pq_pop (c : list A) : list A :=
  take (length c - 1) (pop_heap c).
End heap.
End StdHeap.

(** [std::sort] of [bits/stl_algo.h]: introsort followed by a final
    insertion sort.  The C++ standard leaves the relative order of equivalent
    elements unspecified. *)
Module StdSort.
Section sort.
Context {A : Type} `{!Inhabited A} (comp : A → A → bool).

Definition _S_threshold : nat := 16.

Definition iter_swap (v : list A) (i j : nat) : list A :=
  <[j := v !!! i]> (<[i := v !!! j]> v).

Definition __move_median_to_first (v : list A) (result a b c : nat)
    : list A :=
  if comp (v !!! a) (v !!! b) then
    if comp (v !!! b) (v !!! c) then iter_swap v result b
    else if comp (v !!! a) (v !!! c) then iter_swap v result c
    else iter_swap v result a
  else if comp (v !!! a) (v !!! c) then iter_swap v result a
  else if comp (v !!! b) (v !!! c) then iter_swap v result c
  else iter_swap v result b.

(** [while (comp(first, pivot)) ++first;] *)
Fixpoint scan_up (fuel : nat) (v : list A) (first pivot : nat) : nat :=
  match fuel with
  | S fuel' =>
      if comp (v !!! first) (v !!! pivot)
      then scan_up fuel' v (S first) pivot else first
  | O => first
  end.

(** [while (comp(pivot, last)) --last;] *)
Fixpoint scan_down (v : list A) (last pivot : nat) : nat :=
  if comp (v !!! pivot) (v !!! last) then
    match last with
    | S last' => scan_down v last' pivot
    | O => last
    end
  else last.

Fixpoint unguarded_partition_loop (fuel : nat) (v : list A)
    (first last pivot : nat) : list A * nat :=
  match fuel with
  | S fuel' =>
      let first := scan_up (length v) v first pivot in
      let last := scan_down v (last - 1) pivot in
      if negb (first <? last)%nat then (v, first)
      else unguarded_partition_loop fuel' (iter_swap v first last)
             (S first) last pivot
  | O => (v, first)
  end.

Definition __unguarded_partition (v : list A) (first last pivot : nat)
    : list A * nat :=
  unguarded_partition_loop (length v) v first last pivot.

Definition __unguarded_partition_pivot (v : list A) (first last : nat)
    : list A * nat :=
  let mid := (first + (last - first) / 2)%nat in
  let v := __move_median_to_first v first (first + 1) mid (last - 1) in
  __unguarded_partition v (first + 1) last first.

(** [std::__partial_sort(first, last, last)]: with [middle = last] the
    selection loop of [__heap_select] is empty, leaving a heap sort of the
    range. *)
Definition __partial_sort (v : list A) (first last : nat) : list A :=
  let seg := take (last - first) (drop first v) in
  take first v
    ++ StdHeap.__sort_heap comp (StdHeap.__make_heap comp seg)
    ++ drop last v.

Fixpoint __introsort_loop (v : list A) (first last depth_limit : nat)
    {struct depth_limit} : list A :=
  if (_S_threshold <? last - first)%nat then
    match depth_limit with
    | O => __partial_sort v first last
    | S depth_limit =>
        let '(v, cut) := __unguarded_partition_pivot v first last in
        let v := __introsort_loop v cut last depth_limit in
        __introsort_loop v first cut depth_limit
    end
  else v.

(** The loop is unguarded: it relies on an element not greater than
    [val] below [last]; leaving the vector is undefined behaviour, the
    model stops at index 0. *)
Fixpoint __unguarded_linear_insert (v : list A) (last : nat) (val : A)
    {struct last} : list A :=
  match last with
  | S next =>
      if comp val (v !!! next)
      then __unguarded_linear_insert (<[last := v !!! next]> v) next val
      else <[last := val]> v
  | O => <[last := val]> v
  end.

(** [val = *i; move_backward(first, i, i + 1); *first = val]. *)
Definition move_to_front (v : list A) (first i : nat) : list A :=
  take first v ++ (v !!! i) :: take (i - first) (drop first v)
    ++ drop (S i) v.

Definition insertion_step (first : nat) (v : list A) (i : nat) : list A :=
  if comp (v !!! i) (v !!! first)
  then move_to_front v first i
  else __unguarded_linear_insert v i (v !!! i).

Definition __insertion_sort (v : list A) (first last : nat) : list A :=
  if (first =? last)%nat then v
  else foldl (insertion_step first) v (seq (first + 1) (last - (first + 1))).

Definition __unguarded_insertion_sort (v : list A) (first last : nat)
    : list A :=
  foldl (λ v i, __unguarded_linear_insert v i (v !!! i)) v
    (seq first (last - first)).

Definition __final_insertion_sort (v : list A) (first last : nat)
    : list A :=
  if (_S_threshold <? last - first)%nat then
    let v := __insertion_sort v first (first + _S_threshold) in
    __unguarded_insertion_sort v (first + _S_threshold) last
  else __insertion_sort v first last.

Definition sort (v : list A) : list A :=
  match v with
  | [] => v
  | _ =>
      let n := length v in
      __final_insertion_sort
        (__introsort_loop v 0 n (Nat.log2 n * 2)) 0 n
  end.
End sort.
End StdSort.

(** ** PathFinder.h: positions and the battle map *)

(** [struct Position { int x, y; }]; [operator==] compares both fields. *)
Definition Position : Type := Z * Z.
Definition pos_x (p : Position) : Z := p.1.
Definition pos_y (p : Position) : Z := p.2.

(** [struct BattleMap]. *)
Record BattleMap := mkBattleMap {
  grid : list (list Z);
  width : Z;
  height : Z;
  map_startPos : Position;
  map_targetPos : Position;
  hasValidStart : bool;
  hasValidTarget : bool;
  allStartPositions : list Position;
  allTargetPositions : list Position
}.

(** [BattleMap()]: the default-constructed map. *)
Definition BattleMap_default : BattleMap :=
  mkBattleMap [] 0 0 (0, 0) (0, 0) false false [] [].

Definition isValidPosition (m : BattleMap) (x y : Z) : bool :=
  (0 <=? x) && (x <? width m) && (0 <=? y) && (y <? height m).

(** [grid[y][x]].  Reading a vector out of range is undefined behaviour in
    C++; the model returns [None] there. *)
Definition tile (g : list (list Z)) (x y : Z) : option Z :=
  if (0 <=? x) && (0 <=? y)
  then g !! Z.to_nat y ≫= λ row, row !! Z.to_nat x
  else None.

Definition isReachable (m : BattleMap) (x y : Z) : bool :=
  if negb (isValidPosition m x y) then false
  else match tile (grid m) x y with
       | Some t => (t =? -1) || (t =? 0) || (t =? 8)
       | None => false
       end.

(** The cell coordinates in the order of the scan
    [for y in [0,height) for x in [0,width)]. *)
Definition scan_cells (w h : Z) : list Position :=
  y ← seq 0 (Z.to_nat h); x ← seq 0 (Z.to_nat w);
  [(Z.of_nat x, Z.of_nat y)].

Definition scan_step (m : BattleMap) (p : Position) : BattleMap :=
  match tile (grid m) p.1 p.2 with
  | Some 0 =>
      mkBattleMap (grid m) (width m) (height m)
        (if hasValidStart m then map_startPos m else p) (map_targetPos m)
        true (hasValidTarget m)
        (allStartPositions m ++ [p]) (allTargetPositions m)
  | Some 8 =>
      mkBattleMap (grid m) (width m) (height m)
        (map_startPos m) (if hasValidTarget m then map_targetPos m else p)
        (hasValidStart m) true
        (allStartPositions m) (allTargetPositions m ++ [p])
  | _ => m
  end.

Definition findAllStartAndTargetPositions (m : BattleMap) : BattleMap :=
  let m0 := mkBattleMap (grid m) (width m) (height m) (map_startPos m)
              (map_targetPos m) (hasValidStart m) (hasValidTarget m) [] [] in
  foldl scan_step m0 (scan_cells (width m) (height m)).

(** [getStartPosition] / [getTargetPosition]: [(-1,-1)] out of range. *)
Definition getStartPosition (m : BattleMap) (index : Z) : Position :=
  if (0 <=? index) && (index <? Z.of_nat (length (allStartPositions m)))
  then default (-1, -1) (allStartPositions m !! Z.to_nat index)
  else (-1, -1).

Definition getTargetPosition (m : BattleMap) (index : Z) : Position :=
  if (0 <=? index) && (index <? Z.of_nat (length (allTargetPositions m)))
  then default (-1, -1) (allTargetPositions m !! Z.to_nat index)
  else (-1, -1).

Definition getStartPositionCount (m : BattleMap) : Z :=
  Z.of_nat (length (allStartPositions m)).
Definition getTargetPositionCount (m : BattleMap) : Z :=
  Z.of_nat (length (allTargetPositions m)).

(** ** PathFinder.cpp: move orders *)

Definition direction_of (c : ascii) : option (Z * Z) :=
  if bool_decide (c = "r"%char ∨ c = "R"%char) then Some (1, 0)
  else if bool_decide (c = "d"%char ∨ c = "D"%char) then Some (0, 1)
  else if bool_decide (c = "l"%char ∨ c = "L"%char) then Some (-1, 0)
  else if bool_decide (c = "u"%char ∨ c = "U"%char) then Some (0, -1)
  else None.

(** [PathFinder::isValidMoveOrder]: four characters, each of the four
    directions exactly once (upper or lower case). *)
Fixpoint valid_order_scan (cs : list ascii)
    (hasRight hasDown hasLeft hasUp : bool) : bool :=
  match cs with
  | [] => hasRight && hasDown && hasLeft && hasUp
  | c :: cs =>
      if bool_decide (c = "r"%char ∨ c = "R"%char) then
        if hasRight then false
        else valid_order_scan cs true hasDown hasLeft hasUp
      else if bool_decide (c = "d"%char ∨ c = "D"%char) then
        if hasDown then false
        else valid_order_scan cs hasRight true hasLeft hasUp
      else if bool_decide (c = "l"%char ∨ c = "L"%char) then
        if hasLeft then false
        else valid_order_scan cs hasRight hasDown true hasUp
      else if bool_decide (c = "u"%char ∨ c = "U"%char) then
        if hasUp then false
        else valid_order_scan cs hasRight hasDown hasLeft true
      else false
  end.

Definition isValidMoveOrder (moveOrder : string) : bool :=
  let cs := list_ascii_of_string moveOrder in
  if bool_decide (cs = []) || bool_decide (length cs ≠ 4%nat) then false
  else valid_order_scan cs false false false false.

(** The directions [moveDirections] of [setDefaultMoveOrder]: "rdlu". *)
Definition default_moveDirections : list (Z * Z) :=
  [(1, 0); (0, 1); (-1, 0); (0, -1)].

(** ** MultiUnitPathFinder.h: units, results and the pathfinder object *)

Inductive ConflictResolutionStrategy :=
  | SEQUENTIAL | PRIORITY_BASED | COOPERATIVE | WAIT_AND_RETRY.

(** [struct Unit]. *)
Record Unit := mkUnit {
  id : Z;
  startPos : Position;
  targetPos : Position;
  path : list Position;
  pathFound : bool
}.

(** [Unit(unitId, start, target)]: no path, [pathFound = false]. *)
Definition Unit_new (unitId : Z) (start target : Position) : Unit :=
  mkUnit unitId start target [] false.

Global Instance Unit_inhabited : Inhabited Unit :=
  populate (mkUnit (-1) (0, 0) (0, 0) [] false).

(** [struct PathfindingResult]. *)
Record PathfindingResult := mkResult {
  result_units : list Unit;
  allPathsFound : bool;
  totalSteps : Z;
  stepByStepPositions : list (list Position)
}.

(** [PathfindingResult()]. *)
Definition PathfindingResult_default : PathfindingResult :=
  mkResult [] false 0 [].

(** The object state: the members of [PathFinder] followed by those of
    [MultiUnitPathFinder]. *)
Record MultiUnitPathFinder := mkPF {
  battleMap : BattleMap;
  moveDirections : list (Z * Z);
  currentMoveOrder : string;
  units : list Unit;
  strategy : ConflictResolutionStrategy;
  unitPriorities : gmap Z Z;
  occupiedPositionsAtTime : gmap Z (gset Position)
}.

Definition set_battleMap (pf : MultiUnitPathFinder) (m : BattleMap) :=
  mkPF m (moveDirections pf) (currentMoveOrder pf) (units pf) (strategy pf)
    (unitPriorities pf) (occupiedPositionsAtTime pf).
Definition set_units (pf : MultiUnitPathFinder) (us : list Unit) :=
  mkPF (battleMap pf) (moveDirections pf) (currentMoveOrder pf) us
    (strategy pf) (unitPriorities pf) (occupiedPositionsAtTime pf).
Definition set_unitPriorities (pf : MultiUnitPathFinder) (ps : gmap Z Z) :=
  mkPF (battleMap pf) (moveDirections pf) (currentMoveOrder pf) (units pf)
    (strategy pf) ps (occupiedPositionsAtTime pf).
Definition set_occupied (pf : MultiUnitPathFinder)
    (occ : gmap Z (gset Position)) :=
  mkPF (battleMap pf) (moveDirections pf) (currentMoveOrder pf) (units pf)
    (strategy pf) (unitPriorities pf) occ.

(** [PathFinder::parseMoveOrder] / [setMoveOrder]: the directions are
    replaced only when the order is valid. *)
Definition setMoveOrder (pf : MultiUnitPathFinder) (moveOrder : string)
    : bool * MultiUnitPathFinder :=
  if negb (isValidMoveOrder moveOrder) then (false, pf)
  else
    (true,
     mkPF (battleMap pf)
       (omap direction_of (list_ascii_of_string moveOrder)) moveOrder
       (units pf) (strategy pf) (unitPriorities pf)
       (occupiedPositionsAtTime pf)).

(** [MultiUnitPathFinder()]: default move order "rdlu", sequential
    strategy, nothing else. *)
Definition MultiUnitPathFinder_new : MultiUnitPathFinder :=
  mkPF BattleMap_default default_moveDirections "rdlu" [] SEQUENTIAL ∅ ∅.

(** [MultiUnitPathFinder(moveOrder)]: an invalid order falls back to the
    default one. *)
Definition MultiUnitPathFinder_with_order (moveOrder : string)
    : MultiUnitPathFinder :=
  let '(ok, pf) := setMoveOrder MultiUnitPathFinder_new moveOrder in
  if ok then pf else MultiUnitPathFinder_new.

Definition isMapLoaded (pf : MultiUnitPathFinder) : bool :=
  negb (bool_decide (allStartPositions (battleMap pf) = []))
  && negb (bool_decide (allTargetPositions (battleMap pf) = []))
  && negb (bool_decide (grid (battleMap pf) = [])).

(** [PathFinder::loadMapFromGrid]: the map members are overwritten before
    the start/target checks, so a failed load leaves them changed. *)
Definition loadMapFromGrid (pf : MultiUnitPathFinder) (g : list (list Z))
    : bool * MultiUnitPathFinder :=
  match g with
  | [] | [] :: _ => (false, pf)
  | row0 :: _ =>
      let m := battleMap pf in
      let m := mkBattleMap g (Z.of_nat (length row0)) (Z.of_nat (length g))
                 (map_startPos m) (map_targetPos m) false false
                 (allStartPositions m) (allTargetPositions m) in
      let m := findAllStartAndTargetPositions m in
      let pf := set_battleMap pf m in
      if bool_decide (allStartPositions m = []) then (false, pf)
      else if bool_decide (allTargetPositions m = []) then (false, pf)
      else (true, pf)
  end.

(** Manhattan distance. *)
Definition calculateHeuristic (from to : Position) : Z :=
  Z.abs (from.1 - to.1) + Z.abs (from.2 - to.2).

Definition getNeighbors (pf : MultiUnitPathFinder) (pos : Position)
    : list Position :=
  omap (λ dir : Z * Z,
          let newX := pos.1 + dir.1 in
          let newY := pos.2 + dir.2 in
          if isReachable (battleMap pf) newX newY
          then Some (newX, newY) else None)
       (moveDirections pf).

(** [it != occupied.end() && it->second.find(pos) != it->second.end()]. *)
Definition is_occupied (occupied : gmap Z (gset Position)) (time : Z)
    (pos : Position) : bool :=
  match occupied !! time with
  | Some cells => bool_decide (pos ∈ cells)
  | None => false
  end.

Definition getNeighborsWithOccupiedCheck (pf : MultiUnitPathFinder)
    (pos : Position) (currentTime : Z)
    (occupiedPositions : gmap Z (gset Position)) : list Position :=
  omap (λ dir : Z * Z,
          let newX := pos.1 + dir.1 in
          let newY := pos.2 + dir.2 in
          let newPos : Position := (newX, newY) in
          if negb (isValidPosition (battleMap pf) newX newY) then None
          else if negb (isReachable (battleMap pf) newX newY) then None
          else
            let nextTime := currentTime + 1 in
            if negb (is_occupied occupiedPositions nextTime newPos)
            then Some newPos else None)
       (moveDirections pf).

(** ** PathFinder.cpp: the single-unit A* search *)

(** [struct Node]; [parent] is the shared pointer to the predecessor. *)
#[warnings="-register-all"]
Inductive Node :=
  mkNode (pos : Position) (gCost hCost fCost : Z) (parent : option Node).

Definition n_pos (n : Node) : Position := let 'mkNode p _ _ _ _ := n in p.
Definition n_gCost (n : Node) : Z := let 'mkNode _ g _ _ _ := n in g.
Definition n_hCost (n : Node) : Z := let 'mkNode _ _ h _ _ := n in h.
Definition n_fCost (n : Node) : Z := let 'mkNode _ _ _ f _ := n in f.
Definition n_parent (n : Node) : option Node :=
  let 'mkNode _ _ _ _ p := n in p.

(** [Node(position, g, h, p)] sets [fCost = g + h]. *)
Definition Node_new (position : Position) (g h : Z) (p : option Node) : Node :=
  mkNode position g h (g + h) p.

Global Instance Node_inhabited : Inhabited Node :=
  populate (mkNode (0, 0) 0 0 0 None).

(** [NodeComparator]: a min-heap on [fCost], ties by lower [hCost]. *)
Definition NodeComparator (a b : Node) : bool :=
  if n_fCost a =? n_fCost b then n_hCost b <? n_hCost a
  else n_fCost b <? n_fCost a.

(** The positions from a node back along the parent links. *)
Fixpoint node_chain (n : Node) : list Position :=
  let 'mkNode p _ _ _ par := n in
  p :: match par with Some m => node_chain m | None => [] end.

Definition reconstructPath (node : Node) : list Position :=
  reverse (node_chain node).

Record AStarState := mkAStar {
  a_openSet : list Node;
  a_closedSet : gset Position;
  a_openSetPositions : gset Position
}.

(** The body of [for (neighbor : neighbors)]. *)
Definition astar_visit (target : Position) (current : Node)
    (st : AStarState) (neighbor : Position) : AStarState :=
  if bool_decide (neighbor ∈ a_closedSet st) then st
  else
    let tentativeGCost := n_gCost current + 1 in
    if bool_decide (neighbor ∉ a_openSetPositions st) then
      let neighborNode :=
        Node_new neighbor tentativeGCost
          (calculateHeuristic neighbor target) (Some current) in
      mkAStar (StdHeap.pq_push NodeComparator neighborNode (a_openSet st))
        (a_closedSet st) ({[neighbor]} ∪ a_openSetPositions st)
    else st.

(** [while (!openSet.empty())].  The source loop has no counter; [fuel]
    bounds the recursion of the model and [None] reports that it ran out,
    which does not happen with [findPathAStar_fuel]
    (lemma [findPathAStar_fuel_enough]). *)
Fixpoint astar_loop (pf : MultiUnitPathFinder) (target : Position)
    (fuel : nat) (st : AStarState) : option (list Position) :=
  match StdHeap.pq_top (a_openSet st) with
  | None => Some []
  | Some current =>
      match fuel with
      | O => None
      | S fuel' =>
          let openSet := StdHeap.pq_pop NodeComparator (a_openSet st) in
          let openSetPositions := a_openSetPositions st ∖ {[n_pos current]} in
          if bool_decide (n_pos current = target)
          then Some (reconstructPath current)
          else
            let st := mkAStar openSet ({[n_pos current]} ∪ a_closedSet st)
                        openSetPositions in
            astar_loop pf target fuel'
              (foldl (astar_visit target current) st
                 (getNeighbors pf (n_pos current)))
      end
  end.

(** Every position is pushed at most once (it is in the closed set or in
    [openSetPositions] afterwards), so the loop runs at most once per
    reachable cell and once for the start. *)
Definition findPathAStar_fuel (pf : MultiUnitPathFinder) : nat :=
  (Z.to_nat (width (battleMap pf)) * Z.to_nat (height (battleMap pf)) + 2)%nat.

(** [PathFinder::findPathAStar(start, target)]. *)
Definition findPathAStar (pf : MultiUnitPathFinder) (start target : Position)
    : list Position :=
  if negb (isMapLoaded pf) then []
  else
    let startNode :=
      Node_new start 0 (calculateHeuristic start target) None in
    let st := mkAStar (StdHeap.pq_push NodeComparator startNode [])
                ∅ {[start]} in
    default [] (astar_loop pf target (findPathAStar_fuel pf) st).

(** ** MultiUnitPathFinder.cpp: the temporal occupancy table *)

Definition clearOccupiedPositions (pf : MultiUnitPathFinder)
    : MultiUnitPathFinder :=
  set_occupied pf ∅.

(** [occupiedPositionsAtTime[timeStep].insert(pos)]: [operator[]] creates
    the empty set when the time step has no entry yet. *)
Definition occupy (occ : gmap Z (gset Position)) (timeStep : Z)
    (pos : Position) : gmap Z (gset Position) :=
  <[timeStep := {[pos]} ∪ default ∅ (occ !! timeStep)]> occ.

(** The loop of [updateOccupiedPositions], [i] being the index of the head
    of [path]; a position outside the map is skipped with a warning. *)
Fixpoint updateOccupied_loop (m : BattleMap) (path : list Position)
    (startTime : Z) (i : nat) (occ : gmap Z (gset Position))
    : gmap Z (gset Position) :=
  match path with
  | [] => occ
  | pos :: rest =>
      let timeStep := startTime + Z.of_nat i in
      let occ := if isValidPosition m pos.1 pos.2
                 then occupy occ timeStep pos else occ in
      updateOccupied_loop m rest startTime (S i) occ
  end.

Definition updateOccupiedPositions (pf : MultiUnitPathFinder)
    (path : list Position) (startTime : Z) : MultiUnitPathFinder :=
  set_occupied pf
    (updateOccupied_loop (battleMap pf) path startTime 0
       (occupiedPositionsAtTime pf)).

Definition canWaitAtPosition (pf : MultiUnitPathFinder) (pos : Position)
    (timeStep : Z) : bool :=
  if negb (isValidPosition (battleMap pf) pos.1 pos.2)
     || negb (isReachable (battleMap pf) pos.1 pos.2)
  then false
  else negb (is_occupied (occupiedPositionsAtTime pf) timeStep pos).

(** [hasTemporalConflict(newPath, startTime)]. *)
Definition hasTemporalConflict (pf : MultiUnitPathFinder)
    (newPath : list Position) (startTime : Z) : bool :=
  existsb (λ ip : nat * Position,
             is_occupied (occupiedPositionsAtTime pf)
               (startTime + Z.of_nat ip.1) ip.2)
          (imap (λ i p, (i, p)) newPath).

(** ** MultiUnitPathFinder.cpp: the temporal A* search *)

(** [struct PathNode]: a search node of the position-time space. *)
#[warnings="-register-all"]
Inductive PathNode :=
  mkPathNode (pos : Position) (time : Z) (gCost hCost fCost : Z)
    (parent : option PathNode).

Definition pn_pos (n : PathNode) : Position :=
  let 'mkPathNode p _ _ _ _ _ := n in p.
Definition pn_time (n : PathNode) : Z :=
  let 'mkPathNode _ t _ _ _ _ := n in t.
Definition pn_gCost (n : PathNode) : Z :=
  let 'mkPathNode _ _ g _ _ _ := n in g.
Definition pn_hCost (n : PathNode) : Z :=
  let 'mkPathNode _ _ _ h _ _ := n in h.
Definition pn_fCost (n : PathNode) : Z :=
  let 'mkPathNode _ _ _ _ f _ := n in f.
Definition pn_parent (n : PathNode) : option PathNode :=
  let 'mkPathNode _ _ _ _ _ p := n in p.

(** [PathNode(position, t, g, h, p)] sets [fCost = g + h]. *)
Definition PathNode_new (position : Position) (t g h : Z)
    (p : option PathNode) : PathNode :=
  mkPathNode position t g h (g + h) p.

Global Instance PathNode_inhabited : Inhabited PathNode :=
  populate (mkPathNode (0, 0) 0 0 0 0 None).

(** [PathNodeComparator]: [|a.f - b.f| < 1e-9] is equality on the integral
    costs. *)
Definition PathNodeComparator (a b : PathNode) : bool :=
  if pn_fCost a =? pn_fCost b then pn_hCost b <? pn_hCost a
  else pn_fCost b <? pn_fCost a.

(** [positionTimeKey] builds the string "x,y,time" from the decimal
    renderings; the string identifies the triple, which is the key here. *)
Definition positionTimeKey (pos : Position) (time : Z) : Z * Z * Z :=
  (pos.1, pos.2, time).

Fixpoint pathnode_chain (n : PathNode) : list Position :=
  let 'mkPathNode p _ _ _ _ par := n in
  p :: match par with Some m => pathnode_chain m | None => [] end.

Definition reconstructPathFromNode (node : PathNode) : list Position :=
  reverse (pathnode_chain node).

(** The three containers of the search.  [openSetNodes] maps a key to the
    node object that is also held by the heap [openSet]. *)
Record SearchState := mkSearch {
  openSet : list PathNode;
  closedSet : gset (Z * Z * Z);
  openSetNodes : gmap (Z * Z * Z) PathNode
}.

(** The "better path found" assignment through the shared pointer: the node
    stored under [key] gets a new cost and parent, in the heap as in the
    map, and keeps its place in the heap. *)
Definition improve (key : Z * Z * Z) (g : Z) (current : PathNode)
    (n : PathNode) : PathNode :=
  if bool_decide (positionTimeKey (pn_pos n) (pn_time n) = key)
  then mkPathNode (pn_pos n) (pn_time n) g (pn_hCost n) (g + pn_hCost n)
         (Some current)
  else n.

(** What the loop does with one candidate cell [next] for the time step
    after [current]: skip it when closed, push a new node when unknown,
    improve the known node when the new cost is smaller.  The source has
    this code twice, once in the neighbour loop and once in the wait
    block. *)
Definition consider (target : Position) (current : PathNode)
    (st : SearchState) (next : Position) : SearchState :=
  let nextTime := pn_time current + 1 in
  let key := positionTimeKey next nextTime in
  if bool_decide (key ∈ closedSet st) then st
  else
    let tentativeGCost := pn_gCost current + 1 in
    match openSetNodes st !! key with
    | None =>
        let node :=
          PathNode_new next nextTime tentativeGCost
            (calculateHeuristic next target) (Some current) in
        mkSearch (StdHeap.pq_push PathNodeComparator node (openSet st))
          (closedSet st) (<[key := node]> (openSetNodes st))
    | Some existing =>
        if tentativeGCost <? pn_gCost existing then
          mkSearch (improve key tentativeGCost current <$> openSet st)
            (closedSet st)
            (<[key := improve key tentativeGCost current existing]>
               (openSetNodes st))
        else st
    end.

(** The expansion of the popped node [current]: the free neighbours, then
    the wait in place. *)
Definition expand (pf : MultiUnitPathFinder) (target : Position)
    (current : PathNode) (st : SearchState) : SearchState :=
  let neighbors :=
    getNeighborsWithOccupiedCheck pf (pn_pos current) (pn_time current)
      (occupiedPositionsAtTime pf) in
  let st := foldl (consider target current) st neighbors in
  if canWaitAtPosition pf (pn_pos current) (pn_time current + 1)
  then consider target current st (pn_pos current)
  else st.

(** How the search loop ends, with the value of [iterations]. *)
Inductive SearchOutcome :=
  | GoalPopped (node : PathNode) (iterations : nat)
  | FrontierEmpty (iterations : nat)
  | CapReached (iterations : nat).

Definition outcome_iterations (o : SearchOutcome) : nat :=
  match o with
  | GoalPopped _ i | FrontierEmpty i | CapReached i => i
  end.

(** [while (!openSet.empty() && iterations < maxIterations)]: [remaining]
    is [maxIterations - iterations]. *)
Fixpoint search_loop (pf : MultiUnitPathFinder) (target : Position)
    (remaining iterations : nat) (st : SearchState) : SearchOutcome :=
  match StdHeap.pq_top (openSet st) with
  | None => FrontierEmpty iterations
  | Some current =>
      match remaining with
      | O => CapReached iterations
      | S remaining' =>
          let iterations := S iterations in
          let currentKey :=
            positionTimeKey (pn_pos current) (pn_time current) in
          let st := mkSearch (StdHeap.pq_pop PathNodeComparator (openSet st))
                      (closedSet st) (delete currentKey (openSetNodes st)) in
          if bool_decide (pn_pos current = target)
          then GoalPopped current iterations
          else
            let st := mkSearch (openSet st) ({[currentKey]} ∪ closedSet st)
                        (openSetNodes st) in
            search_loop pf target remaining' iterations
              (expand pf target current st)
      end
  end.

(** [int maxIterations = battleMap.width * battleMap.height * 100]. *)
Definition maxIterations (pf : MultiUnitPathFinder) : Z :=
  width (battleMap pf) * height (battleMap pf) * 100.

(** The checks made before the search starts. *)
Definition search_precheck (pf : MultiUnitPathFinder)
    (start target : Position) : bool :=
  isMapLoaded pf
  && isValidPosition (battleMap pf) start.1 start.2
  && isValidPosition (battleMap pf) target.1 target.2
  && isReachable (battleMap pf) start.1 start.2
  && isReachable (battleMap pf) target.1 target.2.

(** The loop of [findPathAStarWithOccupiedCheck] from its initial state. *)
Definition temporal_search (pf : MultiUnitPathFinder)
    (start target : Position) : SearchOutcome :=
  let startNode :=
    PathNode_new start 0 0 (calculateHeuristic start target) None in
  let st := mkSearch (StdHeap.pq_push PathNodeComparator startNode []) ∅
              {[positionTimeKey start 0 := startNode]} in
  search_loop pf target (Z.to_nat (maxIterations pf)) 0 st.

Definition findPathAStarWithOccupiedCheck (pf : MultiUnitPathFinder)
    (start target : Position) : list Position :=
  if negb (search_precheck pf start target) then []
  else match temporal_search pf start target with
       | GoalPopped node _ => reconstructPathFromNode node
       | FrontierEmpty _ | CapReached _ => []
       end.

(** ** MultiUnitPathFinder.cpp: the unit registry *)

(** The loop of [addUnit] over the registered units: the first unit with
    the given id gets the new positions, an empty path and
    [pathFound = false]; [None] when no unit has that id. *)
Fixpoint update_existing (us : list Unit) (unitId : Z)
    (start target : Position) : option (list Unit) :=
  match us with
  | [] => None
  | unit :: rest =>
      if id unit =? unitId
      then Some (mkUnit (id unit) start target [] false :: rest)
      else (unit ::.) <$> update_existing rest unitId start target
  end.

Definition addUnit (pf : MultiUnitPathFinder) (unitId : Z)
    (start target : Position) : MultiUnitPathFinder :=
  match update_existing (units pf) unitId start target with
  | Some us => set_units pf us
  | None =>
      set_unitPriorities
        (set_units pf (units pf ++ [Unit_new unitId start target]))
        (<[unitId := 0]> (unitPriorities pf))
  end.

(** [addUnit(const Unit &unit)]. *)
Definition addUnit_from (pf : MultiUnitPathFinder) (unit : Unit)
    : MultiUnitPathFinder :=
  addUnit pf (id unit) (startPos unit) (targetPos unit).

Definition removeUnit (pf : MultiUnitPathFinder) (unitId : Z)
    : MultiUnitPathFinder :=
  set_unitPriorities
    (set_units pf (filter (λ unit, id unit ≠ unitId) (units pf)))
    (delete unitId (unitPriorities pf)).

Definition clearUnits (pf : MultiUnitPathFinder) : MultiUnitPathFinder :=
  clearOccupiedPositions (set_unitPriorities (set_units pf []) ∅).

Definition setUnitPriority (pf : MultiUnitPathFinder) (unitId priority : Z)
    : MultiUnitPathFinder :=
  set_unitPriorities pf (<[unitId := priority]> (unitPriorities pf)).

Definition getUnitPriority (pf : MultiUnitPathFinder) (unitId : Z) : Z :=
  default 0 (unitPriorities pf !! unitId).

Definition setConflictResolutionStrategy (pf : MultiUnitPathFinder)
    (newStrategy : ConflictResolutionStrategy) : MultiUnitPathFinder :=
  mkPF (battleMap pf) (moveDirections pf) (currentMoveOrder pf) (units pf)
    newStrategy (unitPriorities pf) (occupiedPositionsAtTime pf).

Definition loadMapWithUnits (pf : MultiUnitPathFinder) (g : list (list Z))
    (mapUnits : list Unit) : bool * MultiUnitPathFinder :=
  let '(ok, pf) := loadMapFromGrid pf g in
  if negb ok then (false, pf)
  else (true, foldl addUnit_from (clearUnits pf) mapUnits).

(** One turn of the three creation loops of [autoSetupUnitsFromMap], which
    differ only in the index of the target paired with start [i]. *)
Definition autoSetup_step (targetIndex : Z → Z) (maxPossibleDistance : Z)
    (pf : MultiUnitPathFinder) (i : nat) : MultiUnitPathFinder :=
  let map := battleMap pf in
  let start := getStartPosition map (Z.of_nat i) in
  let target := getTargetPosition map (targetIndex (Z.of_nat i)) in
  if negb (isValidPosition map start.1 start.2)
     || negb (isValidPosition map target.1 target.2)
  then pf
  else
    let pf := addUnit pf (Z.of_nat i + 1) start target in
    let distance := Z.abs (start.1 - target.1) + Z.abs (start.2 - target.2) in
    let priority := maxPossibleDistance - distance in
    setUnitPriority pf (Z.of_nat i + 1) priority.

Definition autoSetupUnitsFromMap (pf : MultiUnitPathFinder)
    : bool * MultiUnitPathFinder :=
  if negb (isMapLoaded pf) then (false, pf)
  else
    let pf := clearUnits pf in
    let map := battleMap pf in
    let startCount := getStartPositionCount map in
    let targetCount := getTargetPositionCount map in
    if (startCount =? 0) || (targetCount =? 0) then (false, pf)
    else
      let maxPossibleDistance := width map + height map in
      let targetIndex : Z → Z :=
        if startCount =? targetCount then λ i, i
        else if targetCount <? startCount then λ i, i `rem` targetCount
        else λ i, i in
      let pf := foldl (autoSetup_step targetIndex maxPossibleDistance) pf
                  (seq 0 (Z.to_nat startCount)) in
      if bool_decide (units pf = []) then (false, pf) else (true, pf).

(** ** MultiUnitPathFinder.cpp: the step-by-step table and the collision
    scan *)

(** [path.back()] repeated until the path has [maxLength] cells; an empty
    path is left alone. *)
Definition extend_path (maxLength : nat) (path : list Position)
    : list Position :=
  match last path with
  | Some finalPos => path ++ replicate (maxLength - length path) finalPos
  | None => path
  end.

Definition generateStepByStepPositions (unitsWithPaths : list Unit)
    : list (list Position) :=
  let allPaths := path <$> filter (λ unit, pathFound unit = true)
                              unitsWithPaths in
  match allPaths with
  | [] => []
  | _ =>
      let maxLength := foldl (λ m p, Nat.max m (length p)) 0%nat allPaths in
      let allPaths := extend_path maxLength <$> allPaths in
      match allPaths with
      | first :: _ =>
          (λ timeStep, omap (λ p : list Position, p !! timeStep) allPaths)
            <$> seq 0 (length first)
      | [] => []
      end
  end.

(** The pairs [(i, j)], [i < j], of equal positions of one time step, in
    the order of the two nested loops; each yields the entry
    [(timeStep, i)]. *)
Fixpoint collisions_at (timeStep : Z) (i : nat) (positions : list Position)
    : list (Z * Z) :=
  match positions with
  | [] => []
  | p :: rest =>
      ((λ _, (timeStep, Z.of_nat i))
         <$> filter (λ q, p = q) rest)
        ++ collisions_at timeStep (S i) rest
  end.

Definition findCollisions (stepByStepPositions : list (list Position))
    : list (Z * Z) :=
  mjoin (imap (λ timeStep positions,
                 collisions_at (Z.of_nat timeStep) 0 positions)
           stepByStepPositions).

Fixpoint has_duplicate (seen : gset Position) (positions : list Position)
    : bool :=
  match positions with
  | [] => false
  | p :: rest =>
      if bool_decide (p ∈ seen) then true
      else has_duplicate ({[p]} ∪ seen) rest
  end.

Definition hasCollision (stepByStepPositions : list (list Position))
    (timeStep : Z) : bool :=
  if (timeStep <? 0) || (Z.of_nat (length stepByStepPositions) <=? timeStep)
  then false
  else match stepByStepPositions !! Z.to_nat timeStep with
       | Some positions => has_duplicate ∅ positions
       | None => false
       end.

(** ** MultiUnitPathFinder.cpp: the four strategies *)

Definition set_path (unit : Unit) (p : list Position) (found : bool) : Unit :=
  mkUnit (id unit) (startPos unit) (targetPos unit) p found.
Definition set_pathFound (unit : Unit) (found : bool) : Unit :=
  mkUnit (id unit) (startPos unit) (targetPos unit) (path unit) found.

(** The type of the search procedure called by the sequential loop. *)
Definition SearchProcedure : Type :=
  MultiUnitPathFinder → Position → Position → list Position.

(** The body of the loop of [findPathsSequential] for one unit, with the
    search procedure as a parameter; the source calls
    [findPathAStarWithOccupiedCheck].  After a failed search the source
    also runs the plain [findPathAStar] and prints whether an unconstrained
    path exists; the result of that call is not stored anywhere. *)
Definition sequential_step (search : SearchProcedure) (pf : MultiUnitPathFinder)
    (unit : Unit) : Unit * MultiUnitPathFinder :=
  let map := battleMap pf in
  if negb (isValidPosition map (startPos unit).1 (startPos unit).2)
     || negb (isValidPosition map (targetPos unit).1 (targetPos unit).2)
  then (set_pathFound unit false, pf)
  else if negb (isReachable map (startPos unit).1 (startPos unit).2)
  then (set_pathFound unit false, pf)
  else if negb (isReachable map (targetPos unit).1 (targetPos unit).2)
  then (set_pathFound unit false, pf)
  else if bool_decide (startPos unit = targetPos unit) then
    let p := [startPos unit] in
    (set_path unit p true, updateOccupiedPositions pf p 0)
  else
    let p := search pf (startPos unit) (targetPos unit) in
    if negb (bool_decide (p = []))
    then (set_path unit p true, updateOccupiedPositions pf p 0)
    else (set_pathFound unit false, pf).

Fixpoint sequential_loop (search : SearchProcedure) (pf : MultiUnitPathFinder)
    (us : list Unit) : list Unit * MultiUnitPathFinder :=
  match us with
  | [] => ([], pf)
  | unit :: rest =>
      let '(unit', pf) := sequential_step search pf unit in
      let '(rest', pf) := sequential_loop search pf rest in
      (unit' :: rest', pf)
  end.

Definition findPathsSequential_with (search : SearchProcedure)
    (pf : MultiUnitPathFinder) : PathfindingResult * MultiUnitPathFinder :=
  let pf := clearOccupiedPositions pf in
  let '(us, pf) := sequential_loop search pf (units pf) in
  (mkResult us (forallb pathFound us) 0 [], pf).

Definition findPathsSequential (pf : MultiUnitPathFinder)
    : PathfindingResult * MultiUnitPathFinder :=
  findPathsSequential_with findPathAStarWithOccupiedCheck pf.

(** [std::sort] as called on a vector of units with a comparator. *)
Definition Sorter : Type := (Unit → Unit → bool) → list Unit → list Unit.

(** The lambda given to [std::sort]: higher priority first. *)
Definition priority_before (pf : MultiUnitPathFinder) (a b : Unit) : bool :=
  getUnitPriority pf (id b) <? getUnitPriority pf (id a).

Definition findPathsPriorityBased (std_sort : Sorter)
    (pf : MultiUnitPathFinder) : PathfindingResult * MultiUnitPathFinder :=
  let result_units := units pf in
  let pf := clearOccupiedPositions pf in
  let result_units := std_sort (priority_before pf) result_units in
  let originalUnits := units pf in
  let pf := set_units pf result_units in
  let '(sequentialResult, pf) := findPathsSequential pf in
  let pf := set_units pf originalUnits in
  (sequentialResult, pf).

(** [tempMap]: a copy of the map whose start and target markers (0 and 8)
    inside [width] x [height] are turned into ground, then the unit's own
    start and target are marked.  Writing [grid[y][x]] out of range is
    undefined behaviour in C++; the model leaves the grid unchanged. *)
Definition clear_markers (m : BattleMap) : list (list Z) :=
  imap (λ y row,
          imap (λ x t,
                  if (Z.of_nat y <? height m) && (Z.of_nat x <? width m)
                     && ((t =? 0) || (t =? 8))
                  then -1 else t) row)
       (grid m).

Definition set_tile (g : list (list Z)) (p : Position) (t : Z)
    : list (list Z) :=
  if (0 <=? p.1) && (0 <=? p.2)
  then alter (λ row, <[Z.to_nat p.1 := t]> row) (Z.to_nat p.2) g
  else g.

Definition tempMap_for (m : BattleMap) (unit : Unit) : BattleMap :=
  let g := clear_markers m in
  let g := set_tile g (startPos unit) 0 in
  let g := set_tile g (targetPos unit) 8 in
  mkBattleMap g (width m) (height m) (startPos unit) (targetPos unit)
    (hasValidStart m) (hasValidTarget m)
    (allStartPositions m) (allTargetPositions m).

(** The body of [for (auto &unit : result.units)] of
    [findPathsCooperative]: the map is swapped for [tempMap] around the call
    of the plain [findPathAStar()] and restored afterwards. *)
Definition cooperative_step (pf : MultiUnitPathFinder) (unit : Unit)
    : Unit * MultiUnitPathFinder :=
  let tempMap := tempMap_for (battleMap pf) unit in
  let p := findPathAStar (set_battleMap pf tempMap)
             (map_startPos tempMap) (map_targetPos tempMap) in
  if negb (bool_decide (p = []))
  then (set_path unit p true, updateOccupiedPositions pf p 0)
  else (set_pathFound unit false, pf).

Fixpoint cooperative_pass (pf : MultiUnitPathFinder) (us : list Unit)
    : list Unit * MultiUnitPathFinder :=
  match us with
  | [] => ([], pf)
  | unit :: rest =>
      let '(unit', pf) := cooperative_step pf unit in
      let '(rest', pf) := cooperative_pass pf rest in
      (unit' :: rest', pf)
  end.

(** [std::shuffle] with a generator seeded from [std::random_device]: the
    permutation applied at each attempt is an input of the model. *)
Definition Shuffler : Type := nat → list Unit → list Unit.

(** The attempts [attempt, attempt + 1, ..., maxAttempts - 1]; [todo] is
    the number of attempts left. *)
Fixpoint cooperative_attempts (shuffle : Shuffler) (todo attempt : nat)
    (pf : MultiUnitPathFinder) (result : PathfindingResult)
    : PathfindingResult * MultiUnitPathFinder :=
  match todo with
  | O => (result, pf)
  | S todo' =>
      let '(us, pf) :=
        if (0 <? attempt)%nat
        then (shuffle attempt (result_units result),
              clearOccupiedPositions pf)
        else (result_units result, pf) in
      let '(us, pf) := cooperative_pass pf us in
      let allFound := forallb pathFound us in
      if allFound
      then (mkResult us true (totalSteps result)
              (stepByStepPositions result), pf)
      else cooperative_attempts shuffle todo' (S attempt) pf
             (mkResult us (allPathsFound result) (totalSteps result)
                (stepByStepPositions result))
  end.

Definition maxAttempts : nat := 3.

Definition findPathsCooperative (shuffle : Shuffler)
    (pf : MultiUnitPathFinder) : PathfindingResult * MultiUnitPathFinder :=
  let result := mkResult (units pf) false 0 [] in
  let pf := clearOccupiedPositions pf in
  cooperative_attempts shuffle maxAttempts 0 pf result.

(** [path.insert(path.begin() + timeStep, path[timeStep - 1])]. *)
Definition insert_wait (p : list Position) (timeStep : nat)
    : list Position :=
  match p !! (timeStep - 1)%nat with
  | Some c => take timeStep p ++ c :: drop timeStep p
  | None => p
  end.

(** The body of [for (conflict : conflicts)] of [findPathsWithWaiting]. *)
Definition wait_step (us : list Unit) (conflict : Z * Z) : list Unit :=
  let timeStep := conflict.1 in
  let unitIndex := conflict.2 in
  if (unitIndex <? Z.of_nat (length us)) && (0 <? timeStep) then
    match us !! Z.to_nat unitIndex with
    | Some unit =>
        if timeStep <? Z.of_nat (length (path unit))
        then <[Z.to_nat unitIndex :=
                 set_path unit (insert_wait (path unit) (Z.to_nat timeStep))
                   (pathFound unit)]> us
        else us
    | None => us
    end
  else us.

Definition findPathsWithWaiting (pf : MultiUnitPathFinder)
    : PathfindingResult * MultiUnitPathFinder :=
  let '(result, pf) := findPathsSequential pf in
  if allPathsFound result then
    let conflicts :=
      findCollisions (generateStepByStepPositions (result_units result)) in
    (mkResult (foldl wait_step (result_units result) conflicts)
       (allPathsFound result) (totalSteps result)
       (stepByStepPositions result), pf)
  else (result, pf).

(** [findPathsForAllUnits]: the dispatch on the strategy, then the
    step-by-step table when at least one unit has a path. *)
Definition findPathsForAllUnits (std_sort : Sorter) (shuffle : Shuffler)
    (pf : MultiUnitPathFinder) : PathfindingResult * MultiUnitPathFinder :=
  if bool_decide (units pf = []) then (PathfindingResult_default, pf)
  else if negb (isMapLoaded pf) then (PathfindingResult_default, pf)
  else
    let '(result, pf) :=
      match strategy pf with
      | SEQUENTIAL => findPathsSequential pf
      | PRIORITY_BASED => findPathsPriorityBased std_sort pf
      | COOPERATIVE => findPathsCooperative shuffle pf
      | WAIT_AND_RETRY => findPathsWithWaiting pf
      end in
    let hasAnyPath := existsb pathFound (result_units result) in
    if hasAnyPath then
      let steps := generateStepByStepPositions (result_units result) in
      (mkResult (result_units result) (allPathsFound result)
         (Z.of_nat (length steps)) steps, pf)
    else (result, pf).

(** ** The public operations as data *)

(** The calls a client can make on the object, to state properties of
    every sequence of calls. *)
Inductive Operation :=
  | OpAddUnit (unitId : Z) (start target : Position)
  | OpAddUnitFrom (unit : Unit)
  | OpRemoveUnit (unitId : Z)
  | OpClearUnits
  | OpSetUnitPriority (unitId priority : Z)
  | OpSetStrategy (newStrategy : ConflictResolutionStrategy)
  | OpSetMoveOrder (moveOrder : string)
  | OpLoadMapFromGrid (g : list (list Z))
  | OpLoadMapWithUnits (g : list (list Z)) (mapUnits : list Unit)
  | OpAutoSetup
  | OpFindPaths (std_sort : Sorter) (shuffle : Shuffler).

Definition apply_op (pf : MultiUnitPathFinder) (op : Operation)
    : MultiUnitPathFinder :=
  match op with
  | OpAddUnit unitId start target => addUnit pf unitId start target
  | OpAddUnitFrom unit => addUnit_from pf unit
  | OpRemoveUnit unitId => removeUnit pf unitId
  | OpClearUnits => clearUnits pf
  | OpSetUnitPriority unitId priority => setUnitPriority pf unitId priority
  | OpSetStrategy newStrategy => setConflictResolutionStrategy pf newStrategy
  | OpSetMoveOrder moveOrder => (setMoveOrder pf moveOrder).2
  | OpLoadMapFromGrid g => (loadMapFromGrid pf g).2
  | OpLoadMapWithUnits g mapUnits => (loadMapWithUnits pf g mapUnits).2
  | OpAutoSetup => (autoSetupUnitsFromMap pf).2
  | OpFindPaths std_sort shuffle =>
      (findPathsForAllUnits std_sort shuffle pf).2
  end.

(** The two constructors. *)
Definition construct (moveOrder : option string) : MultiUnitPathFinder :=
  match moveOrder with
  | None => MultiUnitPathFinder_new
  | Some o => MultiUnitPathFinder_with_order o
  end.

(** ** The contract of [std::sort] *)

(** The requirement on the comparator ([Compare], a strict weak ordering)
    and the guarantee of [std::sort]: the result is a rearrangement of the
    input in which no element is followed by one that compares before it.
    Nothing is promised about elements that compare equivalent. *)
Record strict_weak_order {A : Type} (comp : A → A → bool) : Prop := {
  swo_irrefl : ∀ a, comp a a = false;
  swo_trans : ∀ a b c, comp a b = true → comp b c = true → comp a c = true;
  swo_equiv_trans : ∀ a b c,
    comp a b = false → comp b c = false → comp a c = false
}.

Definition sorted_by {A : Type} (comp : A → A → bool) (l : list A) : Prop :=
  StronglySorted (λ a b, comp b a = false) l.

Definition std_sort_contract (std_sort : Sorter) : Prop :=
  ∀ comp : Unit → Unit → bool, strict_weak_order comp →
  ∀ l, std_sort comp l ≡ₚ l ∧ sorted_by comp (std_sort comp l).

(** The order that the specification names, "sorted by descending priority
    (ties broken by stable original order)": a stable insertion sort, which
    puts an element behind the elements it does not compare before.  It is
    the reference the order of [std::sort] is compared with. *)
Fixpoint stable_insert {A : Type} (comp : A → A → bool) (x : A)
    (l : list A) : list A :=
  match l with
  | [] => [x]
  | y :: l' => if comp x y then x :: l else y :: stable_insert comp x l'
  end.

Definition stable_sort {A : Type} (comp : A → A → bool) (l : list A)
    : list A :=
  foldl (λ acc x, stable_insert comp x acc) [] l.

(** ** Reading a path on the common timeline *)

(** The cell of a path at a time step: the cell of that index, the last
    cell once the path is over. *)
Definition position_at (p : list Position) (t : nat) : option Position :=
  if decide (t < length p)%nat then p !! t else last p.

(** A unit marked as found has a path. *)
Definition found_has_path (unit : Unit) : Prop :=
  pathFound unit = true → path unit ≠ [].

(** ** The two transitions of the position-time space *)

(** The four orthogonal unit steps. *)
Definition orthogonal_step (dir : Z * Z) : Prop :=
  dir = (1, 0) ∨ dir = (0, 1) ∨ dir = (-1, 0) ∨ dir = (0, -1).

Definition adjacent (c c' : Position) : Prop :=
  Z.abs (c'.1 - c.1) + Z.abs (c'.2 - c.2) = 1.

(** A move from [c] at time [t]: to an adjacent cell of the map that is
    traversable and not reserved at [t + 1]. *)
Definition move_transition (pf : MultiUnitPathFinder) (c : Position) (t : Z)
    (c' : Position) : Prop :=
  adjacent c c'
  ∧ isValidPosition (battleMap pf) c'.1 c'.2 = true
  ∧ isReachable (battleMap pf) c'.1 c'.2 = true
  ∧ is_occupied (occupiedPositionsAtTime pf) (t + 1) c' = false.

(** A wait at [c] at time [t]: [c] is not reserved at [t + 1]. *)
Definition wait_transition (pf : MultiUnitPathFinder) (c : Position) (t : Z)
    (c' : Position) : Prop :=
  c' = c ∧ is_occupied (occupiedPositionsAtTime pf) (t + 1) c = false.

(** [n] is a successor of [current]: one time step later, one unit of
    cost more, reached by a move or by a wait. *)
Definition successor_of (pf : MultiUnitPathFinder) (current n : PathNode)
    : Prop :=
  pn_time n = pn_time current + 1
  ∧ pn_gCost n = pn_gCost current + 1
  ∧ pn_parent n = Some current
  ∧ (move_transition pf (pn_pos current) (pn_time current) (pn_pos n)
     ∨ wait_transition pf (pn_pos current) (pn_time current) (pn_pos n)).

(** A node whose chain of parents goes back to the start node by moves and
    waits. *)
Inductive valid_node (pf : MultiUnitPathFinder) (start : Position)
    : PathNode → Prop :=
  | valid_start h : valid_node pf start (PathNode_new start 0 0 h None)
  | valid_step m n :
      valid_node pf start m → successor_of pf m n → valid_node pf start n.

(** A path on the timeline from time 0: every step of it is a move or a
    wait allowed by the occupancy table. *)
Definition valid_steps (pf : MultiUnitPathFinder) (p : list Position)
    : Prop :=
  ∀ (i : nat) (c c' : Position),
    p !! i = Some c → p !! S i = Some c' →
    move_transition pf c (Z.of_nat i) c' ∨ wait_transition pf c (Z.of_nat i) c'.

(** ** The invariant of the single-unit search *)

(** The cells of the map, and with the start cell everything the search
    can ever hold. *)
Definition map_cells (m : BattleMap) : gset Position :=
  list_to_set (scan_cells (width m) (height m)).

Definition search_space (pf : MultiUnitPathFinder) (start : Position)
    : gset Position :=
  {[start]} ∪ map_cells (battleMap pf).

(** [openSetPositions] is the set of the positions in the heap, each held
    by one node only; no position is both open and closed. *)
Record astar_invariant (pf : MultiUnitPathFinder) (start : Position)
    (st : AStarState) : Prop := {
  inv_nodup : NoDup (n_pos <$> a_openSet st);
  inv_open : ∀ p, p ∈ a_openSetPositions st ↔ p ∈ n_pos <$> a_openSet st;
  inv_disjoint : a_openSetPositions st ## a_closedSet st;
  inv_space : a_openSetPositions st ∪ a_closedSet st ⊆ search_space pf start
}.

(** ** Scenarios *)

(** A corridor of three cells with two units heading for each other's
    start. *)
Definition corridor : MultiUnitPathFinder :=
  let pf := (loadMapFromGrid MultiUnitPathFinder_new [[0; -1; 8]]).2 in
  addUnit (addUnit pf 1 (0, 0) (2, 0)) 2 (2, 0) (0, 0).

(** Seventeen units in a row of seventeen cells, each already on its
    target, all with the default priority. *)
Definition lineup : MultiUnitPathFinder :=
  let pf := (loadMapFromGrid MultiUnitPathFinder_new
               [0 :: 8 :: replicate 15 (-1)]).2 in
  foldl (λ pf i, addUnit pf (Z.of_nat i + 1) (Z.of_nat i, 0) (Z.of_nat i, 0))
    pf (seq 0 17).

(** ** Auxiliary notions of the proofs *)

(** A step of the sequential loop changes nothing of the object but the
    occupancy table, which only grows. *)
Definition same_but_occupancy (pf pf' : MultiUnitPathFinder) : Prop :=
  battleMap pf' = battleMap pf
  ∧ moveDirections pf' = moveDirections pf
  ∧ currentMoveOrder pf' = currentMoveOrder pf
  ∧ units pf' = units pf
  ∧ strategy pf' = strategy pf
  ∧ unitPriorities pf' = unitPriorities pf.

Definition occupancy_grows (pf pf' : MultiUnitPathFinder) : Prop :=
  ∀ t q, is_occupied (occupiedPositionsAtTime pf) t q = true →
         is_occupied (occupiedPositionsAtTime pf') t q = true.

(** Before [findPathsForAllUnits] adds the table: no table, zero steps,
    and a path for every unit marked as found. *)
Definition raw_result (r : PathfindingResult) : Prop :=
  totalSteps r = 0 ∧ stepByStepPositions r = []
  ∧ Forall found_has_path (result_units r).

(** A node that [consider] leaves in the heap and that was not there
    before stands at the candidate cell, one step and one unit of cost
    after [current], with [current] as parent. *)
Definition child_at (current : PathNode) (next : Position) (n : PathNode)
    : Prop :=
  pn_pos n = next
  ∧ pn_time n = pn_time current + 1
  ∧ pn_gCost n = pn_gCost current + 1
  ∧ pn_parent n = Some current.

(** ** PathFinder.cpp: path checks *)

(** The loop of [validatePath]; [prev] is [path[i - 1]], absent for
    [i = 0]. *)
Fixpoint validatePath_loop (map : BattleMap) (prev : option Position)
    (path : list Position) : bool :=
  match path with
  | [] => true
  | pos :: rest =>
      if negb (isReachable map pos.1 pos.2) then false
      else
        match prev with
        | Some prev =>
            let dx := Z.abs (pos.1 - prev.1) in
            let dy := Z.abs (pos.2 - prev.2) in
            if negb (dx + dy =? 1) then false
            else validatePath_loop map (Some pos) rest
        | None => validatePath_loop map (Some pos) rest
        end
  end.

Definition validatePath (path : list Position) (map : BattleMap) : bool :=
  if bool_decide (path = []) then false
  else validatePath_loop map None path.

(** [calculatePathLength]: one unit per cell after the first. *)
Definition calculatePathLength (path : list Position) : Z :=
  if (length path <=? 1)%nat then 0
  else foldl (λ length _, length + 1) 0 (drop 1 path).

(** ** MultiUnitPathFinder.cpp: the remaining helpers *)

(** [hasConflict]: the two paths are compared step by step, a path that is
    over staying on its last cell.  [path.back()] of an empty vector is
    undefined behaviour in C++; the model finds no conflict at such a
    step. *)
(** [hasConflict(path1, path2)].  [path.back()] on an empty path, which the
    source evaluates when one path is empty and the other is not, is
    undefined behaviour in C++; the model finds no conflict at such a
    step. *)
Definition hasConflict (path1 path2 : list Position) : bool :=
  let maxSteps := Nat.max (length path1) (length path2) in
  existsb (λ step,
             match position_at path1 step, position_at path2 step with
             | Some pos1, Some pos2 => bool_decide (pos1 = pos2)
             | _, _ => false
             end)
          (seq 0 maxSteps).

(** [addWaitSteps]: the cell of every index in [waitAtSteps] is doubled. *)
Definition addWaitSteps (originalPath : list Position)
    (waitAtSteps : gset Z) : list Position :=
  mjoin (imap (λ i pos,
                 if bool_decide (Z.of_nat i ∈ waitAtSteps)
                 then [pos; pos] else [pos])
           originalPath).

Definition extendPathsToSameLength (paths : list (list Position))
    : list (list Position) :=
  match paths with
  | [] => paths
  | _ =>
      let maxLength := foldl (λ m p, Nat.max m (length p)) 0%nat paths in
      extend_path maxLength <$> paths
  end.

Definition validateUnitPaths (result : PathfindingResult) : bool :=
  if negb (allPathsFound result) then false
  else bool_decide (findCollisions (stepByStepPositions result) = []).

(** ** main.cpp: results restricted to the units that found a path *)

Definition countSuccessfulPaths (result : PathfindingResult) : Z :=
  foldl (λ count unit, if pathFound unit then count + 1 else count) 0
    (result_units result).

Definition createPartialResult (originalResult : PathfindingResult)
    : PathfindingResult :=
  let us := filter (λ unit, pathFound unit = true)
              (result_units originalResult) in
  match us with
  | [] => mkResult us false 0 []
  | _ =>
      let steps := generateStepByStepPositions us in
      mkResult us false (Z.of_nat (length steps)) steps
  end.

(** ** PathFinder.cpp: loading a map from flat data *)

(** The largest [int] (32 bits). *)
Definition INT_MAX : Z := 2 ^ 31 - 1.

(** The value that an [int] expression holds when its mathematical value
    is [z]: [z] itself within the range of [int], and [z] wrapped to 32
    bits in two's complement outside of it, which is what the compiled
    program computes where C++ leaves the overflow undefined. *)
Definition int_wrap (z : Z) : Z := (z + 2 ^ 31) `mod` 2 ^ 32 - 2 ^ 31.

(** [PathFinder::loadMapFromData(data, width, height)].  The size test
    compares [data.size()] with [static_cast<size_t>(width * height)]: the
    product of the two [int]s is an [int], converted to 64 bits afterwards.
    The two vector constructors throw [std::length_error] for a negative
    size, which the model reports as [None].  The grid is filled row by row
    from [data[y * width + x]]; when the size test has passed only because
    the product has overflowed, that index leaves [data], which is
    undefined behaviour, and the model reports [None] as well. *)
Definition loadMapFromData (pf : MultiUnitPathFinder) (data : list Z)
    (width height : Z) : option (bool * MultiUnitPathFinder) :=
  let cells := int_wrap (width * height) in
  if negb (Z.of_nat (length data) =? cells `mod` 2 ^ 64)
  then Some (false, pf)
  else if (width <? 0) || (height <? 0) then None
  else if negb (cells =? width * height) then None
  else
    let grid :=
      (λ y : nat,
         (λ x : nat,
            default 0 (data !! Z.to_nat (Z.of_nat y * width + Z.of_nat x)))
           <$> seq 0 (Z.to_nat width))
        <$> seq 0 (Z.to_nat height) in
    Some (loadMapFromGrid pf grid).

(** ** Paths of the single-unit searches *)

(** A search node whose chain of parents goes back to the start node, each
    node standing on a neighbour of its parent. *)
Inductive linked_node (pf : MultiUnitPathFinder) (start : Position)
    : Node → Prop :=
  | linked_start g h : linked_node pf start (Node_new start g h None)
  | linked_step m p g h :
      linked_node pf start m → p ∈ getNeighbors pf (n_pos m) →
      linked_node pf start (Node_new p g h (Some m)).

(** Every cell of the path but the first is one of the neighbours that
    [getNeighbors] gives for the cell before it. *)
Definition walkable (pf : MultiUnitPathFinder) (p : list Position) : Prop :=
  ∀ (i : nat) (c c' : Position),
    p !! i = Some c → p !! S i = Some c' → c' ∈ getNeighbors pf c.

(** ** What a strategy may and may not change of a unit *)

(** The part of a unit that no strategy writes. *)
Definition unit_key (u : Unit) : Z * Position * Position :=
  (id u, startPos u, targetPos u).

(** The path of a unit marked as found leads from its start to its
    target. *)
Definition path_connects (u : Unit) : Prop :=
  pathFound u = true →
  head (path u) = Some (startPos u) ∧ last (path u) = Some (targetPos u).

(** [u'] is [u] with some cells of its path repeated: nothing else differs,
    the path of [u] is a sublist of the path of [u'], and no new cell
    appears. *)
Definition waits_added (u u' : Unit) : Prop :=
  unit_key u' = unit_key u ∧ pathFound u' = pathFound u
  ∧ path u `sublist_of` path u'
  ∧ ∀ c, c ∈ path u' → c ∈ path u.

(** ** What the cooperative pass decides for a unit *)

(** The search that [cooperative_step] runs for a unit, on the map of the
    unit alone. *)
Definition found_alone (pf : MultiUnitPathFinder)
    (key : Z * Position * Position) : bool :=
  let unit := Unit_new key.1.1 key.1.2 key.2 in
  negb (bool_decide
          (findPathAStar (set_battleMap pf (tempMap_for (battleMap pf) unit))
             key.1.2 key.2 = [])).

(** The cells that the search has closed are not the target and have each
    of their neighbours closed or open, and the start cell is closed or
    open: what is left to explore lies behind the open cells. *)
Record frontier_invariant (pf : MultiUnitPathFinder)
    (start target : Position) (closed open : gset Position) : Prop := {
  fr_start : start ∈ closed ∪ open;
  fr_closed : ∀ c, c ∈ closed →
    c ≠ target ∧ ∀ c', c' ∈ getNeighbors pf c → c' ∈ closed ∪ open
}.

(** ** PathFinder.cpp: the breadth-first search *)

Record BFSState := mkBFS {
  b_openQueue : list Node;
  b_visited : gset Position
}.

(** The body of [for (neighbor : neighbors)] of [findPathBFS]. *)
Definition bfs_visit (current : Node) (st : BFSState) (neighbor : Position)
    : BFSState :=
  if bool_decide (neighbor ∉ b_visited st) then
    let neighborNode :=
      Node_new neighbor (n_gCost current + 1) 0 (Some current) in
    mkBFS (b_openQueue st ++ [neighborNode]) ({[neighbor]} ∪ b_visited st)
  else st.

(** [while (!openQueue.empty())]; [fuel] bounds the recursion of the model
    as in [astar_loop]. *)
Fixpoint bfs_loop (pf : MultiUnitPathFinder) (target : Position)
    (fuel : nat) (st : BFSState) : option (list Position) :=
  match b_openQueue st with
  | [] => Some []
  | current :: openQueue =>
      match fuel with
      | O => None
      | S fuel' =>
          if bool_decide (n_pos current = target)
          then Some (reconstructPath current)
          else
            bfs_loop pf target fuel'
              (foldl (bfs_visit current) (mkBFS openQueue (b_visited st))
                 (getNeighbors pf (n_pos current)))
      end
  end.

(** [PathFinder::findPathBFS(start, target)].  Every position enters the
    queue at most once, so the fuel of [findPathAStar] is enough here
    too. *)
Definition findPathBFS (pf : MultiUnitPathFinder) (start target : Position)
    : list Position :=
  if negb (isMapLoaded pf) then []
  else
    let startNode := Node_new start 0 0 None in
    default []
      (bfs_loop pf target (findPathAStar_fuel pf) (mkBFS [startNode] {[start]})).

(** ** PathFinder.cpp: the depth-first search *)

Record DFSState := mkDFS {
  d_pathStack : list (list Position);
  d_visited : gset Position
}.

(** The body of [for (neighbor : neighbors)] of [findPathDFS]: a neighbour
    that is not on the current path is pushed with the path extended by
    it. *)
Definition dfs_push (currentPath : list Position)
    (pathStack : list (list Position)) (neighbor : Position)
    : list (list Position) :=
  if bool_decide (neighbor ∈ currentPath) then pathStack
  else (currentPath ++ [neighbor]) :: pathStack.

(** [while (!pathStack.empty())].  [maxPathLength] is the value of
    [static_cast<size_t>(maxPathLength)].  A path on the stack is never
    empty; for an empty one, on which [back()] is undefined, the model
    stops with [None], as it does when the fuel is used up. *)
Fixpoint dfs_loop (pf : MultiUnitPathFinder) (target : Position)
    (maxPathLength : Z) (fuel : nat) (st : DFSState)
    : option (list Position) :=
  match d_pathStack st with
  | [] => Some []
  | currentPath :: pathStack =>
      match fuel with
      | O => None
      | S fuel' =>
          match last currentPath with
          | None => None
          | Some currentPos =>
              if bool_decide (currentPos = target) then Some currentPath
              else if maxPathLength <? Z.of_nat (length currentPath)
              then dfs_loop pf target maxPathLength fuel'
                     (mkDFS pathStack (d_visited st))
              else if bool_decide (currentPos ∈ d_visited st)
              then dfs_loop pf target maxPathLength fuel'
                     (mkDFS pathStack (d_visited st))
              else
                let visited := {[currentPos]} ∪ d_visited st in
                let neighbors := reverse (getNeighbors pf currentPos) in
                dfs_loop pf target maxPathLength fuel'
                  (mkDFS (foldl (dfs_push currentPath) pathStack neighbors)
                     visited)
          end
      end
  end.

(** A cell is expanded once and pushes at most one path for each
    direction, and every turn of the loop pops a path. *)
Definition findPathDFS_fuel (pf : MultiUnitPathFinder) : nat :=
  (length (moveDirections pf)
   * (Z.to_nat (width (battleMap pf)) * Z.to_nat (height (battleMap pf)) + 1)
   + 2)%nat.

(** [PathFinder::findPathDFS(start, target)]. *)
Definition findPathDFS (pf : MultiUnitPathFinder) (start target : Position)
    : list Position :=
  if negb (isMapLoaded pf) then []
  else
    let maxPathLength :=
      (width (battleMap pf) * height (battleMap pf)) `mod` 2 ^ 64 in
    default []
      (dfs_loop pf target maxPathLength (findPathDFS_fuel pf)
         (mkDFS [[start]] ∅)).

(** ** PathAnimator.cpp: the collisions shown during the animation *)

Definition isUnitAtTarget (result : PathfindingResult) (unitIndex : Z)
    (pos : Position) : bool :=
  if (0 <=? unitIndex) && (unitIndex <? Z.of_nat (length (result_units result)))
  then match result_units result !! Z.to_nat unitIndex with
       | Some unit => bool_decide (targetPos unit = pos)
       | None => false
       end
  else false.

(** The body of the loop of [getUnitsAtPositions]:
    [unitsAtPos[pos].push_back(unitIndex)] for a unit that was found. *)
Definition place_unit (result : PathfindingResult)
    (positions : list Position) (unitsAtPos : gmap Position (list Z))
    (unitIndex : nat) : gmap Position (list Z) :=
  match result_units result !! unitIndex, positions !! unitIndex with
  | Some unit, Some pos =>
      if pathFound unit
      then <[pos := default [] (unitsAtPos !! pos) ++ [Z.of_nat unitIndex]]>
             unitsAtPos
      else unitsAtPos
  | _, _ => unitsAtPos
  end.

(** [getUnitsAtPositions(result, timeStep)]: the unit indices by position,
    read from the row of the table at the index of the unit. *)
Definition getUnitsAtPositions (result : PathfindingResult) (timeStep : nat)
    : gmap Position (list Z) :=
  match stepByStepPositions result !! timeStep with
  | Some positions =>
      foldl (place_unit result positions) ∅
        (seq 0 (Nat.min (length positions) (length (result_units result))))
  | None => ∅
  end.

(** The value of [collisionCount] in [displayMultiUnitAnimationInfo]: the
    positions that hold more than one unit, not all of them on their
    target. *)
Definition collisionCount (result : PathfindingResult) (timeStep : nat) : Z :=
  Z.of_nat
    (length
       (filter (λ entry : Position * list Z,
                  (1 < length entry.2)%nat
                  ∧ forallb (λ unitIndex,
                               isUnitAtTarget result unitIndex entry.1)
                      entry.2 = false)
          (map_to_list (getUnitsAtPositions result timeStep)))).

(** ** Walks and levels of the breadth-first search *)

(** [walk_to pf start c k]: some walk of [k] steps along [getNeighbors]
    leads from [start] to [c]. *)
Inductive walk_to (pf : MultiUnitPathFinder) (start : Position)
    : Position → nat → Prop :=
  | walk_start : walk_to pf start start 0
  | walk_step c c' k :
      walk_to pf start c k → c' ∈ getNeighbors pf c →
      walk_to pf start c' (S k).

(** The number of steps of the path that [reconstructPath] reads from a
    node. *)
Definition node_depth (n : Node) : nat := pred (length (node_chain n)).

(** What holds of the queue and the visited set at every turn of the loop
    of [findPathBFS]: the nodes are linked back to the start; the fuel left
    exceeds the number of nodes queued plus the cells not yet visited; a
    visited cell that is no longer queued is not the target and has all
    its neighbours visited; the queue holds nodes of one depth followed by
    nodes of the next depth; and no walk to the cell of a queued node is
    shorter than the depth of the node. *)
Record bfs_invariant (pf : MultiUnitPathFinder) (start target : Position)
    (fuel : nat) (st : BFSState) : Prop := {
  bfs_linked : Forall (linked_node pf start) (b_openQueue st);
  bfs_fuel :
    (length (b_openQueue st)
     + size (search_space pf start ∖ b_visited st) < fuel)%nat;
  bfs_start : start ∈ b_visited st;
  bfs_queued : ∀ n, n ∈ b_openQueue st → n_pos n ∈ b_visited st;
  bfs_done : ∀ c, c ∈ b_visited st →
    c ∈ n_pos <$> b_openQueue st
    ∨ (c ≠ target ∧ ∀ c', c' ∈ getNeighbors pf c → c' ∈ b_visited st);
  bfs_levels : ∃ (level : nat) (this next : list Node),
    b_openQueue st = this ++ next
    ∧ Forall (λ n, node_depth n = level) this
    ∧ Forall (λ n, node_depth n = S level) next;
  bfs_optimal : ∀ n k,
    n ∈ b_openQueue st → walk_to pf start (n_pos n) k →
    (node_depth n ≤ k)%nat
}.

(** What holds of a path on the stack of [findPathDFS]: it starts at the
    start cell, goes from neighbour to neighbour and visits no cell
    twice. *)
Definition simple_walk (pf : MultiUnitPathFinder) (start : Position)
    (p : list Position) : Prop :=
  head p = Some start ∧ walkable pf p ∧ NoDup p.

(** ** Auxiliary notions of the registry and of the move orders *)

(** Every registered unit has an entry in [unitPriorities]. *)
Definition priority_known (pf : MultiUnitPathFinder) : Prop :=
  ∀ u, u ∈ units pf → is_Some (unitPriorities pf !! id u).

(** The directions whose flag [isValidMoveOrder] has not set yet. *)
Definition directions_missing (hasRight hasDown hasLeft hasUp : bool)
    : list (Z * Z) :=
  (if hasRight then [] else [(1, 0)])
  ++ (if hasDown then [] else [(0, 1)])
  ++ (if hasLeft then [] else [(-1, 0)])
  ++ (if hasUp then [] else [(0, -1)]).

(** * Properties *)

#[local] Set Warnings "-clear-no-such-hyp".

(** *** The occupancy table *)

Lemma is_occupied_occupy (occ : gmap Z (gset Position)) (t t' : Z)
    (p q : Position) :
  is_occupied (occupy occ t p) t' q
  = bool_decide (t = t' ∧ p = q) || is_occupied occ t' q.
Proof.
  unfold is_occupied, occupy.
  destruct (decide (t = t')) as [->|Hne].
  - rewrite lookup_insert_eq.
    destruct (decide (p = q)) as [->|Hpq].
    + rewrite (bool_decide_eq_true_2 (_ ∧ _)) by done.
      destruct (occ !! t'); simpl; apply bool_decide_eq_true_2;
        apply elem_of_union_l, elem_of_singleton; done.
    + rewrite (bool_decide_eq_false_2 (_ ∧ _)) by (intros [_ ?]; done).
      destruct (occ !! t') as [cells|]; simpl.
      * apply bool_decide_ext. rewrite elem_of_union, elem_of_singleton.
        split; [intros [?|?]; [congruence|done]|by right].
      * apply bool_decide_eq_false_2.
        rewrite elem_of_union, elem_of_singleton.
        intros [?|?%not_elem_of_empty]; [congruence|done].
  - rewrite lookup_insert_ne by done.
    rewrite (bool_decide_eq_false_2 (_ ∧ _)) by (intros [? _]; done).
    done.
Qed.

Lemma updateOccupied_loop_mono (m : BattleMap) (path : list Position)
    (startTime : Z) (i : nat) (occ : gmap Z (gset Position)) (t : Z)
    (q : Position) :
  is_occupied occ t q = true →
  is_occupied (updateOccupied_loop m path startTime i occ) t q = true.
Proof.
  revert i occ. induction path as [|p rest IH]; intros i occ Hocc; simpl.
  - done.
  - apply IH. destruct (isValidPosition m p.1 p.2); [|done].
    rewrite is_occupied_occupy, Hocc. apply orb_true_r.
Qed.

Lemma updateOccupied_loop_records (m : BattleMap) (path : list Position)
    (startTime : Z) (i : nat) (occ : gmap Z (gset Position)) (k : nat)
    (p : Position) :
  path !! k = Some p →
  isValidPosition m p.1 p.2 = true →
  is_occupied (updateOccupied_loop m path startTime i occ)
    (startTime + Z.of_nat (i + k)) p = true.
Proof.
  revert i occ k. induction path as [|c rest IH]; intros i occ k Hk Hvalid.
  - by rewrite lookup_nil in Hk.
  - destruct k as [|k]; simpl in *.
    + injection Hk as ->. rewrite Hvalid, Nat.add_0_r.
      apply updateOccupied_loop_mono.
      rewrite is_occupied_occupy, bool_decide_eq_true_2; done.
    + replace (i + S k)%nat with (S i + k)%nat by lia. by apply IH.
Qed.

(** Claim C6, as the code has it: after [updateOccupiedPositions path t0]
    every cell [path[i]] that lies within the map is recorded at time
    [t0 + i] (a cell outside the map is skipped), and
    [canWaitAtPosition (path[i], t0 + i)] is false for every index [i]. *)
Theorem reserve_then_not_free (pf : MultiUnitPathFinder)
    (path : list Position) (t0 : Z) (i : nat) (p : Position) :
  path !! i = Some p →
  let pf' := updateOccupiedPositions pf path t0 in
  (isValidPosition (battleMap pf) p.1 p.2 = true →
   is_occupied (occupiedPositionsAtTime pf') (t0 + Z.of_nat i) p = true)
  ∧ canWaitAtPosition pf' p (t0 + Z.of_nat i) = false.
Proof.
  intros Hi pf'.
  assert (isValidPosition (battleMap pf) p.1 p.2 = true →
          is_occupied (occupiedPositionsAtTime pf') (t0 + Z.of_nat i) p = true)
    as Hrec.
  { intros Hvalid. unfold pf', updateOccupiedPositions. simpl.
    by apply (updateOccupied_loop_records _ _ _ 0 _ i). }
  split; [done|].
  unfold canWaitAtPosition. change (battleMap pf') with (battleMap pf).
  destruct (isValidPosition (battleMap pf) p.1 p.2) eqn:Hvalid; [|done].
  destruct (isReachable (battleMap pf) p.1 p.2); [|done].
  by rewrite Hrec.
Qed.

(** *** The sequential loop *)

Lemma updateOccupiedPositions_mono pf p t0 t q :
  is_occupied (occupiedPositionsAtTime pf) t q = true →
  is_occupied (occupiedPositionsAtTime (updateOccupiedPositions pf p t0)) t q
  = true.
Proof. apply updateOccupied_loop_mono. Qed.

Lemma same_but_occupancy_refl pf : same_but_occupancy pf pf.
Proof. by repeat split. Qed.

Lemma same_but_occupancy_trans pf1 pf2 pf3 :
  same_but_occupancy pf1 pf2 → same_but_occupancy pf2 pf3 →
  same_but_occupancy pf1 pf3.
Proof.
  intros (?&?&?&?&?&?) (?&?&?&?&?&?). repeat split; congruence.
Qed.

Lemma same_but_occupancy_update pf p t0 :
  same_but_occupancy pf (updateOccupiedPositions pf p t0).
Proof. by repeat split. Qed.

Lemma sequential_step_frame search pf unit :
  same_but_occupancy pf (sequential_step search pf unit).2
  ∧ occupancy_grows pf (sequential_step search pf unit).2.
Proof.
  unfold sequential_step.
  repeat case_match; simpl;
    (split; [first [apply same_but_occupancy_refl
                   |apply same_but_occupancy_update]
            |intros t q Hocc; first [done
                   |by apply updateOccupiedPositions_mono]]).
Qed.

Lemma sequential_loop_cons search pf unit rest :
  sequential_loop search pf (unit :: rest)
  = ((sequential_step search pf unit).1
       :: (sequential_loop search (sequential_step search pf unit).2 rest).1,
     (sequential_loop search (sequential_step search pf unit).2 rest).2).
Proof.
  simpl. destruct (sequential_step search pf unit) as [u' pf']. simpl.
  by destruct (sequential_loop search pf' rest).
Qed.

Lemma sequential_loop_frame search pf us :
  same_but_occupancy pf (sequential_loop search pf us).2
  ∧ occupancy_grows pf (sequential_loop search pf us).2.
Proof.
  revert pf. induction us as [|unit rest IH]; intros pf.
  - split; [apply same_but_occupancy_refl|by intros ??].
  - rewrite sequential_loop_cons.
    destruct (sequential_step_frame search pf unit) as [Hs Hg].
    destruct (IH (sequential_step search pf unit).2) as [Hs' Hg'].
    split; [exact (same_but_occupancy_trans _ _ _ Hs Hs')|].
    intros t q Hocc. by apply Hg', Hg.
Qed.

(** The unit at index [i] is processed by one step, in a state that has
    the map of the initial one and whose reservations are kept until the
    end of the loop. *)
Lemma sequential_loop_lookup search pf us i unit :
  us !! i = Some unit →
  ∃ pf_i,
    battleMap pf_i = battleMap pf
    ∧ (sequential_loop search pf us).1 !! i
      = Some (sequential_step search pf_i unit).1
    ∧ occupancy_grows (sequential_step search pf_i unit).2
        (sequential_loop search pf us).2.
Proof.
  revert pf i. induction us as [|u rest IH]; intros pf i Hi.
  - by rewrite lookup_nil in Hi.
  - rewrite sequential_loop_cons. destruct i as [|i]; simpl in *.
    + injection Hi as ->. exists pf. repeat split.
      apply sequential_loop_frame.
    + destruct (IH (sequential_step search pf u).2 i Hi)
        as (pf_i & Hmap & Hres & Hgrow).
      exists pf_i. repeat split; [|done..].
      rewrite Hmap. apply sequential_step_frame.
Qed.

Lemma sequential_step_trivial search pf unit :
  startPos unit = targetPos unit →
  isValidPosition (battleMap pf) (startPos unit).1 (startPos unit).2 = true →
  isReachable (battleMap pf) (startPos unit).1 (startPos unit).2 = true →
  sequential_step search pf unit
  = (set_path unit [startPos unit] true,
     updateOccupiedPositions pf [startPos unit] 0).
Proof.
  intros Heq Hvalid Hreach. unfold sequential_step.
  rewrite <- Heq, Hvalid, Hreach. simpl.
  by rewrite bool_decide_eq_true_2.
Qed.

(** Claim C8: a unit whose start cell is its target cell, valid and
    traversable, gets the one-cell path and [pathFound = true] from the
    sequential loop, and its cell is reserved at time 0 when the loop ends.
    The step does not depend on the search procedure [search]: it is not
    called. *)
Theorem start_equals_goal_is_trivial (search : SearchProcedure)
    (pf : MultiUnitPathFinder) (i : nat) (unit : Unit) :
  units pf !! i = Some unit →
  startPos unit = targetPos unit →
  isValidPosition (battleMap pf) (startPos unit).1 (startPos unit).2 = true →
  isReachable (battleMap pf) (startPos unit).1 (startPos unit).2 = true →
  result_units (findPathsSequential_with search pf).1 !! i
  = Some (mkUnit (id unit) (startPos unit) (targetPos unit)
            [startPos unit] true)
  ∧ is_occupied
      (occupiedPositionsAtTime (findPathsSequential_with search pf).2) 0
      (startPos unit) = true
  ∧ ∀ pf0, battleMap pf0 = battleMap pf →
      sequential_step search pf0 unit
      = (set_path unit [startPos unit] true,
         updateOccupiedPositions pf0 [startPos unit] 0).
Proof.
  intros Hi Heq Hvalid Hreach.
  assert (∀ pf0, battleMap pf0 = battleMap pf →
      sequential_step search pf0 unit
      = (set_path unit [startPos unit] true,
         updateOccupiedPositions pf0 [startPos unit] 0)) as Hstep.
  { intros pf0 Hmap. apply sequential_step_trivial; by rewrite ?Hmap. }
  split; [|split; [|done]].
  - unfold findPathsSequential_with.
    destruct (sequential_loop_lookup search (clearOccupiedPositions pf)
                (units pf) i unit Hi) as (pf_i & Hmap & Hres & _).
    change (units (clearOccupiedPositions pf)) with (units pf).
    destruct (sequential_loop search (clearOccupiedPositions pf) (units pf))
      as [us pf'] eqn:Hloop. simpl in *.
    by rewrite Hres, (Hstep pf_i Hmap).
  - unfold findPathsSequential_with.
    destruct (sequential_loop_lookup search (clearOccupiedPositions pf)
                (units pf) i unit Hi) as (pf_i & Hmap & _ & Hgrow).
    change (units (clearOccupiedPositions pf)) with (units pf).
    destruct (sequential_loop search (clearOccupiedPositions pf) (units pf))
      as [us pf'] eqn:Hloop. simpl in *.
    apply Hgrow. rewrite (Hstep pf_i Hmap). simpl.
    apply (updateOccupied_loop_records _ [startPos unit] 0 0 _ 0);
      [done|by rewrite Hmap].
Qed.

(** *** The unit registry *)

Lemma update_existing_None us unitId start target :
  update_existing us unitId start target = None ↔ unitId ∉ id <$> us.
Proof.
  induction us as [|u rest IH]; simpl.
  - split; [intros _ ?%elem_of_nil; done|done].
  - rewrite not_elem_of_cons. destruct (Z.eqb_spec (id u) unitId) as [->|Hne].
    + split; [done|]. by intros [? _].
    + rewrite fmap_None, IH. split; [by split|by intros [_ ?]].
Qed.

Lemma update_existing_ids us unitId start target us' :
  update_existing us unitId start target = Some us' →
  id <$> us' = id <$> us.
Proof.
  revert us'. induction us as [|u rest IH]; intros us'; simpl; [done|].
  destruct (Z.eqb_spec (id u) unitId) as [->|Hne].
  - by intros [= <-].
  - destruct (update_existing rest unitId start target) as [rest'|]; [|done].
    intros [= <-]. simpl. f_equal. by apply IH.
Qed.

Lemma update_existing_at us i u start target :
  us !! i = Some u → NoDup (id <$> us) →
  update_existing us (id u) start target
  = Some (<[i := mkUnit (id u) start target [] false]> us).
Proof.
  revert i. induction us as [|v rest IH]; intros i Hi Hnd.
  - by rewrite lookup_nil in Hi.
  - simpl in *. apply NoDup_cons in Hnd as [Hv Hnd].
    destruct i as [|i]; simpl in *.
    + injection Hi as ->. by rewrite Z.eqb_refl.
    + destruct (Z.eqb_spec (id v) (id u)) as [Heq|Hne].
      * exfalso. apply Hv. rewrite Heq.
        apply list_elem_of_fmap. exists u. split; [done|].
        by eapply list_elem_of_lookup_2.
      * by rewrite (IH i Hi Hnd).
Qed.

Lemma addUnit_unique pf unitId start target :
  NoDup (id <$> units pf) → NoDup (id <$> units (addUnit pf unitId start target)).
Proof.
  intros Hnd. unfold addUnit.
  destruct (update_existing (units pf) unitId start target) as [us|] eqn:Hup.
  - simpl. by rewrite (update_existing_ids _ _ _ _ _ Hup).
  - simpl. rewrite fmap_app. apply NoDup_app. split; [done|].
    split; [|apply NoDup_singleton].
    intros x Hx ->%list_elem_of_singleton.
    by apply update_existing_None in Hup.
Qed.

Lemma foldl_addUnit_from_unique pf mapUnits :
  NoDup (id <$> units pf) →
  NoDup (id <$> units (foldl addUnit_from pf mapUnits)).
Proof.
  revert pf. induction mapUnits as [|u rest IH]; intros pf Hnd; simpl; [done|].
  apply IH. by apply addUnit_unique.
Qed.

Lemma autoSetup_step_unique f d pf i :
  NoDup (id <$> units pf) → NoDup (id <$> units (autoSetup_step f d pf i)).
Proof.
  intros Hnd. unfold autoSetup_step. case_match; [done|].
  simpl. by apply addUnit_unique.
Qed.

Lemma foldl_autoSetup_unique f d pf l :
  NoDup (id <$> units pf) →
  NoDup (id <$> units (foldl (autoSetup_step f d) pf l)).
Proof.
  revert pf. induction l as [|i l IH]; intros pf Hnd; simpl; [done|].
  apply IH. by apply autoSetup_step_unique.
Qed.

Lemma cooperative_pass_cons pf unit rest :
  cooperative_pass pf (unit :: rest)
  = ((cooperative_step pf unit).1
       :: (cooperative_pass (cooperative_step pf unit).2 rest).1,
     (cooperative_pass (cooperative_step pf unit).2 rest).2).
Proof.
  simpl. destruct (cooperative_step pf unit) as [u' pf']. simpl.
  by destruct (cooperative_pass pf' rest).
Qed.

Lemma cooperative_step_frame pf unit :
  same_but_occupancy pf (cooperative_step pf unit).2.
Proof. unfold cooperative_step. by case_match. Qed.

Lemma cooperative_pass_frame pf us :
  same_but_occupancy pf (cooperative_pass pf us).2.
Proof.
  revert pf. induction us as [|unit rest IH]; intros pf.
  - apply same_but_occupancy_refl.
  - rewrite cooperative_pass_cons.
    exact (same_but_occupancy_trans _ _ _
             (cooperative_step_frame pf unit) (IH _)).
Qed.

Lemma cooperative_attempts_frame shuffle todo attempt pf result :
  same_but_occupancy pf
    (cooperative_attempts shuffle todo attempt pf result).2.
Proof.
  revert attempt pf result.
  induction todo as [|todo IH]; intros attempt pf result; simpl.
  - apply same_but_occupancy_refl.
  - destruct (0 <? attempt)%nat.
    + pose proof (cooperative_pass_frame (clearOccupiedPositions pf)
                    (shuffle attempt (result_units result))) as Hp.
      destruct (cooperative_pass _ _) as [us pf']. simpl in Hp.
      destruct (forallb pathFound us); [done|].
      exact (same_but_occupancy_trans _ _ _ Hp (IH _ _ _)).
    + pose proof (cooperative_pass_frame pf (result_units result)) as Hp.
      destruct (cooperative_pass _ _) as [us pf']. simpl in Hp.
      destruct (forallb pathFound us); [done|].
      exact (same_but_occupancy_trans _ _ _ Hp (IH _ _ _)).
Qed.

Lemma clearOccupiedPositions_frame pf :
  same_but_occupancy pf (clearOccupiedPositions pf).
Proof. by repeat split. Qed.

Lemma findPathsSequential_frame pf :
  same_but_occupancy pf (findPathsSequential pf).2.
Proof.
  unfold findPathsSequential, findPathsSequential_with.
  pose proof (sequential_loop_frame findPathAStarWithOccupiedCheck
                (clearOccupiedPositions pf)
                (units (clearOccupiedPositions pf))) as [Hframe _].
  by destruct (sequential_loop _ _ _) as [us pf'].
Qed.

Lemma findPathsPriorityBased_frame std_sort pf :
  same_but_occupancy pf (findPathsPriorityBased std_sort pf).2.
Proof.
  unfold findPathsPriorityBased.
  match goal with |- context [findPathsSequential ?p] =>
    pose proof (findPathsSequential_frame p) as (?&?&?&?&?&?) end.
  destruct (findPathsSequential _) as [r pf']. by repeat split.
Qed.

Lemma findPathsCooperative_frame shuffle pf :
  same_but_occupancy pf (findPathsCooperative shuffle pf).2.
Proof.
  unfold findPathsCooperative.
  exact (cooperative_attempts_frame shuffle maxAttempts 0
           (clearOccupiedPositions pf) (mkResult (units pf) false 0 [])).
Qed.

Lemma findPathsWithWaiting_frame pf :
  same_but_occupancy pf (findPathsWithWaiting pf).2.
Proof.
  unfold findPathsWithWaiting.
  pose proof (findPathsSequential_frame pf) as Hframe.
  destruct (findPathsSequential pf) as [r pf']. by case_match.
Qed.

Lemma findPathsForAllUnits_frame std_sort shuffle pf :
  same_but_occupancy pf (findPathsForAllUnits std_sort shuffle pf).2.
Proof.
  unfold findPathsForAllUnits.
  case_bool_decide; [apply same_but_occupancy_refl|].
  destruct (isMapLoaded pf); [|apply same_but_occupancy_refl]. simpl.
  assert (same_but_occupancy pf
            (match strategy pf with
             | SEQUENTIAL => findPathsSequential pf
             | PRIORITY_BASED => findPathsPriorityBased std_sort pf
             | COOPERATIVE => findPathsCooperative shuffle pf
             | WAIT_AND_RETRY => findPathsWithWaiting pf
             end).2) as Hframe.
  { destruct (strategy pf);
      auto using findPathsSequential_frame, findPathsPriorityBased_frame,
        findPathsCooperative_frame, findPathsWithWaiting_frame. }
  destruct (match strategy pf with SEQUENTIAL => _ | _ => _ end) as [r pf'].
  by case_match.
Qed.

Lemma findPathsPriorityBased_units std_sort pf :
  units (findPathsPriorityBased std_sort pf).2 = units pf.
Proof. by destruct (findPathsPriorityBased_frame std_sort pf) as (_&_&_&?&_). Qed.

Lemma findPathsForAllUnits_units std_sort shuffle pf :
  units (findPathsForAllUnits std_sort shuffle pf).2 = units pf.
Proof.
  by destruct (findPathsForAllUnits_frame std_sort shuffle pf) as (_&_&_&?&_).
Qed.

Lemma apply_op_unique pf op :
  NoDup (id <$> units pf) → NoDup (id <$> units (apply_op pf op)).
Proof.
  intros Hnd. destruct op; simpl.
  - by apply addUnit_unique.
  - by apply addUnit_unique.
  - unfold removeUnit. simpl. eapply sublist_NoDup; [exact Hnd|].
    apply fmap_sublist, sublist_filter.
  - apply NoDup_nil_2.
  - done.
  - done.
  - unfold setMoveOrder. by case_match.
  - unfold loadMapFromGrid. by repeat case_match.
  - unfold loadMapWithUnits.
    assert (units (loadMapFromGrid pf g).2 = units pf) as Hu.
    { unfold loadMapFromGrid. by repeat case_match. }
    destruct (loadMapFromGrid pf g) as [[] pf']; simpl in *.
    + apply foldl_addUnit_from_unique. apply NoDup_nil_2.
    + by rewrite Hu.
  - unfold autoSetupUnitsFromMap.
    destruct (isMapLoaded pf); simpl; [|done].
    set (f := if _ =? _ then _ else _). clearbody f.
    assert (NoDup (id <$> units (clearUnits pf))) as Hnil
      by apply NoDup_nil_2.
    repeat case_match; simpl; try done;
      by apply foldl_autoSetup_unique.
  - by rewrite findPathsForAllUnits_units.
Qed.

(** Claim C9: after any sequence of calls on a freshly constructed object
    no two registered units have the same id, and every public operation
    keeps the ids distinct in whatever registry it is applied to.  On any
    registry with distinct ids, [addUnit] with the id of a registered unit
    replaces that unit, in place, by one with the new positions, no path
    and [pathFound = false], and leaves the other units alone; with a new
    id it appends the unit. *)
Theorem unit_ids_stay_unique :
  (∀ (moveOrder : option string) (ops : list Operation),
     NoDup (id <$> units (foldl apply_op (construct moveOrder) ops)))
  ∧ (∀ (pf : MultiUnitPathFinder) (op : Operation),
       NoDup (id <$> units pf) → NoDup (id <$> units (apply_op pf op)))
  ∧ (∀ (pf : MultiUnitPathFinder) (i : nat) (unit : Unit)
       (start target : Position),
       NoDup (id <$> units pf) → units pf !! i = Some unit →
       units (addUnit pf (id unit) start target)
       = <[i := mkUnit (id unit) start target [] false]> (units pf))
  ∧ (∀ (pf : MultiUnitPathFinder) (unitId : Z) (start target : Position),
       unitId ∉ id <$> units pf →
       units (addUnit pf unitId start target)
       = units pf ++ [Unit_new unitId start target]).
Proof.
  split; [|split; [|split]].
  - intros moveOrder ops.
    assert (NoDup (id <$> units (construct moveOrder))) as Hinit.
    { destruct moveOrder as [o|]; simpl; [|apply NoDup_nil_2].
      unfold MultiUnitPathFinder_with_order, setMoveOrder.
      repeat case_match; simplify_eq; apply NoDup_nil_2. }
    revert Hinit. generalize (construct moveOrder).
    induction ops as [|op ops IH]; intros pf Hpf; simpl; [done|].
    by apply IH, apply_op_unique.
  - intros pf op. apply apply_op_unique.
  - intros pf i unit start target Hnd Hi. unfold addUnit.
    by rewrite (update_existing_at _ i unit start target Hi Hnd).
  - intros pf unitId start target Hnew. unfold addUnit.
    by rewrite (proj2 (update_existing_None _ _ start target) Hnew).
Qed.

(** *** Sorting by priority *)

Lemma priority_before_swo pf : strict_weak_order (priority_before pf).
Proof.
  unfold priority_before. split.
  - intros a. apply Z.ltb_irrefl.
  - intros a b c ?%Z.ltb_lt ?%Z.ltb_lt. apply Z.ltb_lt. lia.
  - intros a b c ?%Z.ltb_ge ?%Z.ltb_ge. apply Z.ltb_ge. lia.
Qed.

Lemma swo_asym {A} (comp : A → A → bool) a b :
  strict_weak_order comp → comp a b = true → comp b a = false.
Proof.
  intros Hswo Hab. destruct (comp b a) eqn:Hba; [|done].
  by rewrite <- (swo_irrefl comp Hswo a), (swo_trans comp Hswo a b a).
Qed.

Lemma stable_insert_perm {A} (comp : A → A → bool) x l :
  stable_insert comp x l ≡ₚ x :: l.
Proof.
  induction l as [|y l IH]; simpl; [done|].
  destruct (comp x y); [done|]. by rewrite IH, Permutation_swap.
Qed.

Lemma stable_insert_sorted {A} (comp : A → A → bool) x l :
  strict_weak_order comp → sorted_by comp l →
  sorted_by comp (stable_insert comp x l).
Proof.
  intros Hswo. unfold sorted_by.
  induction 1 as [|y l Hl IH Hy]; simpl.
  - repeat constructor.
  - destruct (comp x y) eqn:Hxy.
    + constructor; [by constructor|].
      constructor; [by apply swo_asym|].
      eapply Forall_impl; [exact Hy|]. simpl. intros z Hzy.
      destruct (comp z x) eqn:Hzx; [|done].
      by rewrite <- Hzy, (swo_trans comp Hswo z x y).
    + constructor; [done|].
      rewrite stable_insert_perm. by constructor.
Qed.

Lemma stable_sort_contract : std_sort_contract stable_sort.
Proof.
  intros comp Hswo l. unfold stable_sort.
  assert (∀ acc, sorted_by comp acc →
            foldl (λ acc x, stable_insert comp x acc) acc l ≡ₚ acc ++ l
            ∧ sorted_by comp (foldl (λ acc x, stable_insert comp x acc) acc l))
    as Hgen.
  { induction l as [|x l IH]; intros acc Hacc; simpl.
    - by rewrite app_nil_r.
    - destruct (IH (stable_insert comp x acc)) as [Hp Hs].
      { by apply stable_insert_sorted. }
      split; [|done]. rewrite Hp, stable_insert_perm.
      by rewrite (Permutation_middle acc l x). }
  destruct (Hgen []) as [Hp Hs]; [constructor|]. done.
Qed.

Lemma sequential_step_id search pf unit :
  id (sequential_step search pf unit).1 = id unit.
Proof. unfold sequential_step. by repeat case_match. Qed.

Lemma sequential_loop_ids search pf us :
  id <$> (sequential_loop search pf us).1 = id <$> us.
Proof.
  revert pf. induction us as [|u rest IH]; intros pf; [done|].
  rewrite sequential_loop_cons. simpl.
  by rewrite sequential_step_id, IH.
Qed.

Lemma findPathsSequential_ids pf :
  id <$> result_units (findPathsSequential pf).1 = id <$> units pf.
Proof.
  unfold findPathsSequential, findPathsSequential_with.
  pose proof (sequential_loop_ids findPathAStarWithOccupiedCheck
                (clearOccupiedPositions pf)
                (units (clearOccupiedPositions pf))) as Hids.
  by destruct (sequential_loop _ _ _) as [us pf'].
Qed.

Lemma findPathsPriorityBased_result std_sort pf :
  (findPathsPriorityBased std_sort pf).1
  = (findPathsSequential
       (set_units pf (std_sort (priority_before pf) (units pf)))).1.
Proof.
  unfold findPathsPriorityBased.
  change (findPathsSequential
            (set_units (clearOccupiedPositions pf)
               (std_sort (priority_before (clearOccupiedPositions pf))
                  (units pf))))
    with (findPathsSequential
            (set_units pf (std_sort (priority_before pf) (units pf)))).
  by destruct (findPathsSequential _) as [r pf'].
Qed.

Lemma sorted_by_priority pf (l : list Unit) :
  sorted_by (priority_before pf) l →
  StronglySorted (λ a b, getUnitPriority pf b ≤ getUnitPriority pf a)
    (id <$> l).
Proof.
  unfold sorted_by, priority_before. induction 1 as [|u l Hl IH Hu]; simpl.
  - constructor.
  - constructor; [done|]. apply Forall_fmap.
    eapply Forall_impl; [exact Hu|]. simpl. by intros v ?%Z.ltb_ge.
Qed.

(** Claim C3, as the code has it: the priority-based strategy returns what
    the sequential strategy returns on the unit list rearranged by
    [std::sort] with the "higher priority first" comparator; that list is
    a permutation of the registered units in non-increasing priority.  The
    order of units of equal priority is the one [std::sort] leaves, about
    which its contract says nothing. *)
Theorem priority_based_is_sequential_on_std_sort (std_sort : Sorter)
    (pf : MultiUnitPathFinder) :
  std_sort_contract std_sort →
  let sorted := std_sort (priority_before pf) (units pf) in
  (findPathsPriorityBased std_sort pf).1
  = (findPathsSequential (set_units pf sorted)).1
  ∧ sorted ≡ₚ units pf
  ∧ StronglySorted (λ a b, getUnitPriority pf b ≤ getUnitPriority pf a)
      (id <$> sorted).
Proof.
  intros Hsort sorted.
  destruct (Hsort (priority_before pf) (priority_before_swo pf) (units pf))
    as [Hperm Hsorted].
  split; [apply findPathsPriorityBased_result|].
  split; [done|]. by apply sorted_by_priority.
Qed.

(** Claim C10: [findPathsPriorityBased] leaves the stored unit list as it
    was, and the units of its result are in the order of the sorted list,
    a permutation of the stored ids in non-increasing priority. *)
Theorem priority_based_restores_unit_list (std_sort : Sorter)
    (pf : MultiUnitPathFinder) :
  std_sort_contract std_sort →
  let out := findPathsPriorityBased std_sort pf in
  units out.2 = units pf
  ∧ id <$> result_units out.1
    = id <$> std_sort (priority_before pf) (units pf)
  ∧ id <$> result_units out.1 ≡ₚ id <$> units pf
  ∧ StronglySorted (λ a b, getUnitPriority pf b ≤ getUnitPriority pf a)
      (id <$> result_units out.1).
Proof.
  intros Hsort out.
  destruct (Hsort (priority_before pf) (priority_before_swo pf) (units pf))
    as [Hperm Hsorted].
  assert (id <$> result_units out.1
          = id <$> std_sort (priority_before pf) (units pf)) as Hids.
  { unfold out. rewrite findPathsPriorityBased_result.
    by rewrite findPathsSequential_ids. }
  split; [apply findPathsPriorityBased_units|].
  split; [done|]. rewrite Hids.
  split; [by rewrite Hperm|by apply sorted_by_priority].
Qed.

(** *** The step-by-step table *)

Lemma foldl_max_max_list (ps : list (list Position)) (m : nat) :
  foldl (λ m p, Nat.max m (length p)) m ps
  = Nat.max m (max_list (length <$> ps)).
Proof.
  revert m. induction ps as [|p ps IH]; intros m; simpl.
  - by rewrite Nat.max_0_r.
  - by rewrite IH, Nat.max_assoc.
Qed.

Lemma extend_path_lookup (maxLength : nat) (p : list Position) (t : nat) :
  p ≠ [] → (length p ≤ maxLength)%nat → (t < maxLength)%nat →
  ∃ c, extend_path maxLength p !! t = Some c ∧ position_at p t = Some c.
Proof.
  intros Hne Hlen Ht. unfold extend_path, position_at.
  destruct (last p) as [finalPos|] eqn:Hlast.
  2:{ by apply last_None in Hlast. }
  destruct (decide (t < length p)%nat) as [Hlt|Hge].
  - destruct (lookup_lt_is_Some_2 p t Hlt) as [c Hc].
    exists c. by rewrite lookup_app_l.
  - exists finalPos. split; [|done].
    rewrite lookup_app_r by lia. apply lookup_replicate_2. lia.
Qed.

Lemma table_rows (maxLength : nat) (found : list Unit) (t : nat) :
  Forall (λ u, path u ≠ [] ∧ (length (path u) ≤ maxLength)%nat) found →
  (t < maxLength)%nat →
  Forall2 (λ u c, position_at (path u) t = Some c) found
    (omap (λ p : list Position, p !! t)
       (extend_path maxLength <$> (path <$> found))).
Proof.
  intros Hfound Ht. induction Hfound as [|u found [Hne Hlen] _ IH]; simpl.
  - constructor.
  - destruct (extend_path_lookup maxLength (path u) t Hne Hlen Ht)
      as (c & -> & Hc).
    by constructor.
Qed.

Lemma max_list_bound (l : list nat) :
  Forall (λ n, (n ≤ max_list l)%nat) l.
Proof.
  induction l as [|n l IH]; simpl; constructor; [apply Nat.le_max_l|].
  eapply Forall_impl; [exact IH|]. simpl. intros k Hk.
  etrans; [exact Hk|apply Nat.le_max_r].
Qed.

Lemma extend_path_length (maxLength : nat) (p : list Position) :
  p ≠ [] → (length p ≤ maxLength)%nat →
  length (extend_path maxLength p) = maxLength.
Proof.
  intros Hne Hlen. unfold extend_path.
  destruct (last p) eqn:Hlast; [|by apply last_None in Hlast].
  rewrite length_app, length_replicate. lia.
Qed.

Lemma generateStepByStepPositions_rows (us : list Unit) :
  Forall found_has_path us →
  let found := filter (λ u, pathFound u = true) us in
  let longest := max_list (length ∘ path <$> found) in
  length (generateStepByStepPositions us) = longest
  ∧ Forall (λ u, path u ≠ []) found
  ∧ ∀ t, (t < longest)%nat →
      ∃ row, generateStepByStepPositions us !! t = Some row
             ∧ Forall2 (λ u c, position_at (path u) t = Some c) found row.
Proof.
  intros Hus. cbv zeta.
  remember (filter (λ u, pathFound u = true) us) as found eqn:Hfound.
  remember (max_list (length ∘ path <$> found)) as longest eqn:Hlongest.
  assert (Forall (λ u, path u ≠ []) found) as Hne.
  { apply Forall_forall. intros u Hu. rewrite Hfound in Hu.
    apply list_elem_of_filter in Hu as [Hf Hu].
    rewrite Forall_forall in Hus. by apply Hus. }
  assert (Forall (λ u, path u ≠ [] ∧ (length (path u) ≤ longest)%nat) found)
    as Hboth.
  { apply Forall_forall. intros u Hu. split.
    - rewrite Forall_forall in Hne. by apply Hne.
    - pose proof (max_list_bound (length ∘ path <$> found)) as Hb.
      rewrite Forall_fmap, Forall_forall in Hb. rewrite Hlongest.
      by apply (Hb u). }
  unfold generateStepByStepPositions. rewrite <- Hfound.
  destruct (path <$> found) as [|q qs] eqn:Hq.
  { destruct found; [|done]. simpl in Hlongest. subst longest.
    split; [done|]. split; [done|]. intros t Ht. lia. }
  rewrite <- Hq.
  rewrite foldl_max_max_list, Nat.max_0_l.
  replace (max_list (length <$> (path <$> found))) with longest
    by (by rewrite Hlongest, list_fmap_compose).
  destruct (extend_path longest <$> (path <$> found)) as [|first rest]
    eqn:Hext.
  { rewrite Hq in Hext. done. }
  assert (length first = longest) as Hfirst.
  { rewrite Hq in Hext. simpl in Hext. injection Hext as <- _.
    assert (q ∈ path <$> found) as Hin by (rewrite Hq; left).
    apply list_elem_of_fmap in Hin as (u & -> & Hu).
    rewrite Forall_forall in Hboth. destruct (Hboth u Hu).
    by apply extend_path_length. }
  rewrite <- Hext. split; [by rewrite length_fmap, length_seq|].
  split; [done|]. intros t Ht.
  eexists. split.
  - rewrite list_lookup_fmap, Hfirst, lookup_seq_lt by done. done.
  - simpl. by apply table_rows.
Qed.

(** *** What every strategy returns *)

Lemma sequential_step_found search pf unit :
  found_has_path (sequential_step search pf unit).1.
Proof.
  unfold sequential_step, found_has_path.
  repeat case_match; simpl; try done.
  intros _.
  match goal with H : negb (bool_decide _) = true |- _ =>
    by apply negb_true_iff, bool_decide_eq_false in H end.
Qed.

Lemma sequential_loop_found search pf us :
  Forall found_has_path (sequential_loop search pf us).1.
Proof.
  revert pf. induction us as [|u rest IH]; intros pf; [constructor|].
  rewrite sequential_loop_cons. simpl.
  constructor; [apply sequential_step_found|apply IH].
Qed.

Lemma findPathsSequential_raw pf : raw_result (findPathsSequential pf).1.
Proof.
  unfold findPathsSequential, findPathsSequential_with.
  pose proof (sequential_loop_found findPathAStarWithOccupiedCheck
                (clearOccupiedPositions pf)
                (units (clearOccupiedPositions pf))) as Hf.
  by destruct (sequential_loop _ _ _) as [us pf'].
Qed.

Lemma cooperative_step_found pf unit :
  found_has_path (cooperative_step pf unit).1.
Proof.
  unfold cooperative_step, found_has_path.
  case_match eqn:Hp; simpl; [|done].
  intros _. by apply negb_true_iff, bool_decide_eq_false in Hp.
Qed.

Lemma cooperative_pass_found pf us :
  Forall found_has_path (cooperative_pass pf us).1.
Proof.
  revert pf. induction us as [|u rest IH]; intros pf; [constructor|].
  rewrite cooperative_pass_cons. simpl.
  constructor; [apply cooperative_step_found|apply IH].
Qed.

Lemma cooperative_attempts_raw shuffle todo attempt pf result :
  totalSteps result = 0 → stepByStepPositions result = [] →
  Forall found_has_path (result_units result) ∨ (0 < todo)%nat →
  raw_result (cooperative_attempts shuffle todo attempt pf result).1.
Proof.
  revert attempt pf result.
  induction todo as [|todo IH]; intros attempt pf result Hsteps Htable Hinv;
    simpl.
  - destruct Hinv as [Hinv|?]; [done|lia].
  - destruct (0 <? attempt)%nat.
    + pose proof (cooperative_pass_found (clearOccupiedPositions pf)
                    (shuffle attempt (result_units result))) as Hp.
      destruct (cooperative_pass _ _) as [us pf']. simpl in Hp.
      destruct (forallb pathFound us); [done|].
      apply IH; [done..|by left].
    + pose proof (cooperative_pass_found pf (result_units result)) as Hp.
      destruct (cooperative_pass _ _) as [us pf']. simpl in Hp.
      destruct (forallb pathFound us); [done|].
      apply IH; [done..|by left].
Qed.

Lemma findPathsCooperative_raw shuffle pf :
  raw_result (findPathsCooperative shuffle pf).1.
Proof.
  unfold findPathsCooperative.
  apply cooperative_attempts_raw; [done..|right; unfold maxAttempts; lia].
Qed.

Lemma insert_wait_nonempty p timeStep : p ≠ [] → insert_wait p timeStep ≠ [].
Proof.
  intros Hp. unfold insert_wait. case_match; [|done].
  by intros [_ ?]%app_eq_nil.
Qed.

Lemma wait_step_found us conflict :
  Forall found_has_path us → Forall found_has_path (wait_step us conflict).
Proof.
  intros Hus. unfold wait_step. repeat case_match; try done.
  apply Forall_insert; [done|].
  unfold found_has_path. simpl. intros Hf.
  apply insert_wait_nonempty.
  eapply Forall_lookup_1 in Hus; [|done]. by apply Hus.
Qed.

Lemma findPathsWithWaiting_raw pf : raw_result (findPathsWithWaiting pf).1.
Proof.
  unfold findPathsWithWaiting.
  pose proof (findPathsSequential_raw pf) as (Hs & Ht & Hf).
  destruct (findPathsSequential pf) as [r pf']. simpl in *.
  case_match; [|done]. repeat split; [done..|]. simpl.
  generalize (findCollisions (generateStepByStepPositions (result_units r))).
  intros conflicts. revert Hf. generalize (result_units r).
  induction conflicts as [|c cs IH]; intros us Hus; simpl; [done|].
  by apply IH, wait_step_found.
Qed.

Lemma findPathsPriorityBased_raw std_sort pf :
  raw_result (findPathsPriorityBased std_sort pf).1.
Proof.
  rewrite findPathsPriorityBased_result. apply findPathsSequential_raw.
Qed.

(** Claim C7: whatever the strategy, the step-by-step table of the result
    of [findPathsForAllUnits] has one row per time step up to the length of
    the longest path of a found unit, [totalSteps] is that length, and the
    row of step [t] lists, for the found units in order, the cell of the
    path at [t], or its last cell when the path is shorter. *)
Theorem step_table_from_found_units (std_sort : Sorter) (shuffle : Shuffler)
    (pf : MultiUnitPathFinder) :
  let r := (findPathsForAllUnits std_sort shuffle pf).1 in
  let found := filter (λ u, pathFound u = true) (result_units r) in
  let longest := max_list (length ∘ path <$> found) in
  totalSteps r = Z.of_nat longest
  ∧ length (stepByStepPositions r) = longest
  ∧ Forall (λ u, path u ≠ []) found
  ∧ ∀ t, (t < longest)%nat →
      ∃ row, stepByStepPositions r !! t = Some row
             ∧ Forall2 (λ u c, position_at (path u) t = Some c) found row.
Proof.
  cbv zeta. unfold findPathsForAllUnits.
  assert (∀ r : PathfindingResult, result_units r = [] →
            totalSteps r = 0 → stepByStepPositions r = [] →
    let found := filter (λ u, pathFound u = true) (result_units r) in
    let longest := max_list (length ∘ path <$> found) in
    totalSteps r = Z.of_nat longest
    ∧ length (stepByStepPositions r) = longest
    ∧ Forall (λ u, path u ≠ []) found
    ∧ ∀ t, (t < longest)%nat →
        ∃ row, stepByStepPositions r !! t = Some row
               ∧ Forall2 (λ u c, position_at (path u) t = Some c) found row)
    as Hempty.
  { intros r -> -> ->. simpl. repeat split; [constructor|]. intros t Ht. lia. }
  case_bool_decide; [by apply Hempty|].
  destruct (isMapLoaded pf); [|by apply Hempty]. simpl.
  assert (raw_result (match strategy pf with
                 | SEQUENTIAL => findPathsSequential pf
                 | PRIORITY_BASED => findPathsPriorityBased std_sort pf
                 | COOPERATIVE => findPathsCooperative shuffle pf
                 | WAIT_AND_RETRY => findPathsWithWaiting pf
                 end).1) as (Hs & Ht & Hf).
  { destruct (strategy pf);
      auto using findPathsSequential_raw, findPathsPriorityBased_raw,
        findPathsCooperative_raw, findPathsWithWaiting_raw. }
  destruct (match strategy pf with SEQUENTIAL => _ | _ => _ end) as [r pf'].
  simpl in *.
  destruct (existsb pathFound (result_units r)) eqn:Hany; simpl.
  - destruct (generateStepByStepPositions_rows (result_units r) Hf)
      as (Hlen & Hne & Hrows).
    rewrite Hlen. done.
  - assert (filter (λ u, pathFound u = true) (result_units r) = []) as ->.
    { revert Hany. generalize (result_units r).
      induction l as [|u l IH]; simpl; [done|].
      intros [Hu Hl]%orb_false_iff.
      rewrite filter_cons_False by (by rewrite Hu). by apply IH. }
    simpl. rewrite Hs, Ht. repeat split; [constructor|]. intros t ?. lia.
Qed.

(** *** The heap operations rearrange the vector *)

Section heap_permutation.
Context {A : Type} `{!Inhabited A} (comp : A → A → bool).
Implicit Types v : list A.

Lemma insert_Permutation v (i : nat) (x : A) :
  (i < length v)%nat → <[i := x]> v ≡ₚ x :: delete i v.
Proof.
  revert i. induction v as [|a v IH]; intros i Hi; simpl in *; [lia|].
  destruct i as [|i]; simpl; [done|].
  rewrite IH by lia. apply Permutation_swap.
Qed.

(** Moving the element of [j] to [i] and writing [x] to [j] amounts to
    writing [x] to [i]. *)
Lemma insert_move_Permutation v (i j : nat) (x : A) :
  i ≠ j → (i < length v)%nat → (j < length v)%nat →
  <[j := x]> (<[i := v !!! j]> v) ≡ₚ <[i := x]> v.
Proof.
  intros Hij Hi Hj.
  set (w := <[i := v !!! j]> v).
  assert (w !! j = Some (v !!! j)) as Hwj.
  { unfold w. rewrite list_lookup_insert_ne by done.
    by apply list_lookup_lookup_total_lt. }
  assert (delete j w ≡ₚ delete i v) as Hdel.
  { apply (Permutation_cons_inv (a := v !!! j)).
    rewrite <- (delete_Permutation w j) by done.
    unfold w. by apply insert_Permutation. }
  rewrite (insert_Permutation w) by (unfold w; by rewrite length_insert).
  by rewrite Hdel, insert_Permutation.
Qed.

Lemma push_heap_loop_length fuel v holeIndex topIndex value :
  length (StdHeap.push_heap_loop comp fuel v holeIndex topIndex value)
  = length v.
Proof.
  revert v holeIndex.
  induction fuel as [|fuel IH]; intros v holeIndex;
    cbn [StdHeap.push_heap_loop]; [by rewrite length_insert|].
  case_match; [by rewrite IH, length_insert|by rewrite length_insert].
Qed.

Lemma push_heap_loop_Permutation fuel v holeIndex topIndex value :
  (holeIndex < length v)%nat →
  StdHeap.push_heap_loop comp fuel v holeIndex topIndex value
  ≡ₚ <[holeIndex := value]> v.
Proof.
  revert v holeIndex.
  induction fuel as [|fuel IH]; intros v holeIndex Hhole;
    cbn [StdHeap.push_heap_loop]; [done|].
  case_match eqn:Hcond; [|done].
  apply andb_true_iff in Hcond as [Htop%Nat.ltb_lt _].
  assert ((holeIndex - 1) / 2 < holeIndex)%nat as Hparent.
  { apply Nat.Div0.div_lt_upper_bound. lia. }
  rewrite IH by (rewrite length_insert; lia).
  apply insert_move_Permutation; lia.
Qed.

(** The elements above the hole are not touched. *)
Lemma push_heap_loop_above fuel v holeIndex topIndex value (k : nat) :
  (holeIndex < k)%nat →
  StdHeap.push_heap_loop comp fuel v holeIndex topIndex value !! k = v !! k.
Proof.
  revert v holeIndex.
  induction fuel as [|fuel IH]; intros v holeIndex Hk;
    cbn [StdHeap.push_heap_loop].
  - apply list_lookup_insert_ne. lia.
  - assert ((holeIndex - 1) / 2 ≤ holeIndex)%nat as Hparent.
    { etrans; [apply Nat.Div0.div_le_upper_bound|]; [|reflexivity]. lia. }
    case_match.
    + rewrite IH by lia. apply list_lookup_insert_ne. lia.
    + apply list_lookup_insert_ne. lia.
Qed.

Lemma pq_push_Permutation (x : A) (c : list A) :
  StdHeap.pq_push comp x c ≡ₚ x :: c.
Proof.
  unfold StdHeap.pq_push, StdHeap.push_heap, StdHeap.__push_heap.
  rewrite push_heap_loop_Permutation by (rewrite length_app; simpl; lia).
  rewrite length_app. simpl.
  replace (length c + 1 - 1)%nat with (length c + 0)%nat by lia.
  rewrite lookup_total_app_r by lia.
  replace (length c + 0 - length c)%nat with 0%nat by lia. simpl.
  rewrite insert_app_r. simpl. by rewrite Permutation_app_comm.
Qed.

(** The descent of [__adjust_heap]: the hole and [secondChild] move
    together, below [len]. *)
Lemma adjust_heap_loop_spec fuel v (hole len : nat) (value : A) :
  (hole < len)%nat → (len ≤ length v)%nat →
  ∀ v' hole' sc',
    StdHeap.adjust_heap_loop comp fuel v hole hole len = (v', hole', sc') →
    hole' = sc' ∧ (hole ≤ hole' < len)%nat ∧ length v' = length v
    ∧ <[hole' := value]> v' ≡ₚ <[hole := value]> v
    ∧ ∀ k : nat, (len ≤ k)%nat → v' !! k = v !! k.
Proof.
  revert v hole.
  induction fuel as [|fuel IH]; intros v hole Hhole Hlen v' hole' sc';
    cbn [StdHeap.adjust_heap_loop].
  - intros [= <- <- <-]. by repeat split.
  - case_match eqn:Hcond.
    2:{ intros [= <- <- <-]. by repeat split. }
    apply Nat.ltb_lt in Hcond.
    set (sc0 := (2 * (hole + 1))%nat) in *.
    set (sc := if comp (v !!! sc0) (v !!! (sc0 - 1)%nat)
               then (sc0 - 1)%nat else sc0).
    assert (sc0 < len)%nat as Hsc0.
    { pose proof (Nat.Div0.mul_div_le (len - 1) 2). unfold sc0. lia. }
    assert (hole < sc < len)%nat as Hsc.
    { unfold sc, sc0 in *. case_match; lia. }
    intros Hrec.
    apply IH in Hrec as (-> & Hrange & Hlen' & Hperm & Hkeep);
      [|lia|by rewrite length_insert].
    rewrite length_insert in Hlen'.
    repeat split; [lia|lia|done| |].
    + rewrite Hperm. apply insert_move_Permutation; lia.
    + intros k Hk. rewrite Hkeep by done.
      apply list_lookup_insert_ne. lia.
Qed.

Lemma adjust_heap_spec v (hole len : nat) (value : A) :
  (hole < len)%nat → (len ≤ length v)%nat →
  StdHeap.__adjust_heap comp v hole len value ≡ₚ <[hole := value]> v
  ∧ length (StdHeap.__adjust_heap comp v hole len value) = length v
  ∧ ∀ k : nat, (len ≤ k)%nat →
      StdHeap.__adjust_heap comp v hole len value !! k = v !! k.
Proof.
  intros Hhole Hlen. unfold StdHeap.__adjust_heap.
  destruct (StdHeap.adjust_heap_loop comp len v hole hole len)
    as [[v1 hole1] sc1] eqn:Hloop.
  apply (adjust_heap_loop_spec _ _ _ _ value) in Hloop
    as (-> & Hrange & Hlen1 & Hperm & Hkeep); [|done..].
  destruct (Nat.even len && (2 <=? len)%nat
            && (sc1 =? (len - 2) / 2)%nat) eqn:Hcond.
  - apply andb_true_iff in Hcond as [[Heven Hlen2]%andb_true_iff Hsc].
    apply Nat.eqb_eq in Hsc. apply Nat.leb_le in Hlen2.
    apply Nat.even_spec in Heven as [h Hh].
    assert (sc1 = (h - 1)%nat) as Hsc1.
    { rewrite Hsc, Hh. replace (2 * h - 2)%nat with ((h - 1) * 2)%nat by lia.
      by rewrite Nat.div_mul. }
    assert (2 * (sc1 + 1) - 1 = len - 1)%nat as Hlast by lia.
    rewrite Hlast. unfold StdHeap.__push_heap.
    split; [|split].
    + rewrite push_heap_loop_Permutation by (rewrite length_insert; lia).
      rewrite <- Hperm. apply insert_move_Permutation; lia.
    + by rewrite push_heap_loop_length, length_insert.
    + intros k Hk. rewrite push_heap_loop_above by lia.
      rewrite list_lookup_insert_ne by lia. by apply Hkeep.
  - unfold StdHeap.__push_heap. split; [|split].
    + by rewrite push_heap_loop_Permutation by lia.
    + by rewrite push_heap_loop_length.
    + intros k Hk. rewrite push_heap_loop_above by lia. by apply Hkeep.
Qed.

(** [pop()] removes the element that [top()] returns. *)
Lemma pq_pop_Permutation (c : list A) (x : A) :
  StdHeap.pq_top c = Some x → c ≡ₚ x :: StdHeap.pq_pop comp c.
Proof.
  unfold StdHeap.pq_top, StdHeap.pq_pop, StdHeap.pop_heap. intros Htop.
  assert (0 < length c)%nat as Hlen by (by eapply lookup_lt_Some).
  destruct (1 <? length c)%nat eqn:Hmany.
  2:{ apply Nat.ltb_ge in Hmany. destruct c as [|y [|z c]]; simpl in *;
        [lia| |lia]. by injection Htop as ->. }
  apply Nat.ltb_lt in Hmany. unfold StdHeap.__pop_heap.
  set (n := (length c - 1)%nat).
  set (v1 := <[n := c !!! 0%nat]> c).
  destruct (adjust_heap_spec v1 0 n (c !!! n))
    as (Hperm & Hlength & Hkeep);
    [lia|unfold v1; rewrite length_insert; lia|].
  set (w := StdHeap.__adjust_heap comp v1 0 n (c !!! n)) in *.
  assert (w !! n = Some x) as Hlast.
  { rewrite Hkeep by done. unfold v1.
    rewrite list_lookup_insert_eq by lia.
    by rewrite (list_lookup_total_correct c 0 x). }
  assert (w = take n w ++ [x]) as Hw.
  { rewrite <- (take_drop n w) at 1. f_equal.
    apply list_eq. intros [|k]; simpl.
    - by rewrite lookup_drop, Nat.add_0_r.
    - rewrite lookup_drop. apply lookup_ge_None_2.
      rewrite Hlength. unfold v1. rewrite length_insert. lia. }
  rewrite Permutation_cons_append. fold n. fold v1. fold w.
  rewrite <- Hw, Hperm. unfold v1.
  rewrite insert_move_Permutation by lia.
  by rewrite list_insert_id by (apply list_lookup_lookup_total_lt; lia).
Qed.
End heap_permutation.

(** *** Successors of the temporal search *)

Lemma pq_push_elem {A : Type} `{!Inhabited A} (comp : A → A → bool)
    (x y : A) (c : list A) :
  x ∈ StdHeap.pq_push comp y c → x = y ∨ x ∈ c.
Proof. rewrite pq_push_Permutation. apply elem_of_cons. Qed.


Lemma orthogonal_step_adjacent (c : Position) (dir : Z * Z) :
  orthogonal_step dir → adjacent c (c.1 + dir.1, c.2 + dir.2).
Proof.
  unfold adjacent. intros [-> | [-> | [-> | ->]]]; simpl; lia.
Qed.

Lemma getNeighborsWithOccupiedCheck_moves pf (c : Position) (t : Z)
    (c' : Position) :
  Forall orthogonal_step (moveDirections pf) →
  c' ∈ getNeighborsWithOccupiedCheck pf c t (occupiedPositionsAtTime pf) →
  move_transition pf c t c'.
Proof.
  intros Hdirs Hc'. unfold getNeighborsWithOccupiedCheck in Hc'.
  apply list_elem_of_omap in Hc' as (dir & Hdir & Hsome).
  rewrite Forall_forall in Hdirs. specialize (Hdirs dir Hdir).
  destruct (isValidPosition (battleMap pf) (c.1 + dir.1) (c.2 + dir.2))
    eqn:Hvalid; [|done].
  destruct (isReachable (battleMap pf) (c.1 + dir.1) (c.2 + dir.2))
    eqn:Hreach; [|done].
  destruct (is_occupied (occupiedPositionsAtTime pf) (t + 1)
              (c.1 + dir.1, c.2 + dir.2)) eqn:Hocc; [done|].
  simpl in Hsome. injection Hsome as <-.
  split; [by apply orthogonal_step_adjacent|done].
Qed.

Lemma canWaitAtPosition_wait pf (c : Position) (t : Z) :
  canWaitAtPosition pf c (t + 1) = true → wait_transition pf c t c.
Proof.
  unfold canWaitAtPosition. case_match; [done|].
  intros ?%negb_true_iff. by split.
Qed.

Lemma consider_elem target current st next n :
  n ∈ openSet (consider target current st next) →
  n ∈ openSet st ∨ child_at current next n.
Proof.
  unfold consider. case_bool_decide; [by left|].
  destruct (openSetNodes st !! _) as [existing|].
  - case_match; [|by left]. simpl.
    intros (m & -> & Hm)%list_elem_of_fmap. unfold improve.
    case_bool_decide as Hkey; [right|by left].
    unfold positionTimeKey in Hkey. destruct (pn_pos m) as [x y] eqn:Hpos.
    destruct next as [x' y']. simpl in Hkey. injection Hkey as -> -> Htime.
    by repeat split.
  - simpl. intros [->|Hn]%pq_push_elem; [right|by left]. by repeat split.
Qed.

Lemma foldl_consider_elem target current st nexts n :
  n ∈ openSet (foldl (consider target current) st nexts) →
  n ∈ openSet st ∨ ∃ next, next ∈ nexts ∧ child_at current next n.
Proof.
  revert st. induction nexts as [|c nexts IH]; intros st; simpl; [by left|].
  intros [[Hn|Hn]%consider_elem|(next & Hnext & Hn)]%IH.
  - by left.
  - right. exists c. split; [left|done].
  - right. exists next. split; [by right|done].
Qed.

(** What the expansion of [current] leaves in the frontier: the nodes that
    were there, and successors of [current]. *)
Lemma expand_elem (pf : MultiUnitPathFinder)
    (target : Position) (current : PathNode) (st : SearchState)
    (n : PathNode) :
  Forall orthogonal_step (moveDirections pf) →
  n ∈ openSet (expand pf target current st) →
  n ∈ openSet st ∨ successor_of pf current n.
Proof.
  intros Hdirs. unfold expand.
  assert (n ∈ openSet
            (foldl (consider target current) st
               (getNeighborsWithOccupiedCheck pf (pn_pos current)
                  (pn_time current) (occupiedPositionsAtTime pf))) →
          n ∈ openSet st ∨ successor_of pf current n) as Hmoves.
  { intros [Hn|(next & Hnext & Hpos & Htime & Hg & Hpar)]%foldl_consider_elem;
      [by left|right].
    repeat split; [done..|]. left. rewrite Hpos.
    by apply getNeighborsWithOccupiedCheck_moves. }
  destruct (canWaitAtPosition pf (pn_pos current) (pn_time current + 1))
    eqn:Hwait; [|done].
  intros [Hn|(Hpos & Htime & Hg & Hpar)]%consider_elem; [by apply Hmoves|].
  right. repeat split; [done..|]. right. rewrite Hpos.
  by apply canWaitAtPosition_wait.
Qed.

(** Claim C4: every node that the expansion of [current] adds to the
    frontier is one time step later and one unit of cost more than
    [current], and stands either on an orthogonally adjacent cell that is
    in bounds, traversable and free at the next time step (a move), or on
    the cell of [current], free at the next time step (a wait). *)
Theorem expand_generates_successors (pf : MultiUnitPathFinder)
    (target : Position) (current : PathNode) (st : SearchState)
    (n : PathNode) :
  Forall orthogonal_step (moveDirections pf) →
  n ∈ openSet (expand pf target current st) →
  n ∈ openSet st ∨ successor_of pf current n.
Proof. apply expand_elem. Qed.

(** The directions of every object built through the public interface are
    orthogonal unit steps. *)
Lemma direction_of_orthogonal c dir :
  direction_of c = Some dir → orthogonal_step dir.
Proof.
  unfold direction_of, orthogonal_step.
  repeat case_bool_decide; intros [= <-]; auto.
Qed.

Lemma setMoveOrder_orthogonal pf moveOrder :
  Forall orthogonal_step (moveDirections pf) →
  Forall orthogonal_step (moveDirections (setMoveOrder pf moveOrder).2).
Proof.
  intros Hpf. unfold setMoveOrder. case_match; [done|]. simpl.
  apply Forall_forall. intros dir (c & _ & Hc)%list_elem_of_omap.
  by eapply direction_of_orthogonal.
Qed.

Lemma default_moveDirections_orthogonal :
  Forall orthogonal_step default_moveDirections.
Proof.
  unfold default_moveDirections, orthogonal_step.
  repeat apply Forall_cons_2; [auto 6..|apply Forall_nil_2].
Qed.

Lemma construct_orthogonal moveOrder :
  Forall orthogonal_step (moveDirections (construct moveOrder)).
Proof.
  destruct moveOrder as [o|]; simpl;
    [|apply default_moveDirections_orthogonal].
  unfold MultiUnitPathFinder_with_order.
  pose proof (setMoveOrder_orthogonal MultiUnitPathFinder_new o
                default_moveDirections_orthogonal) as Hset.
  destruct (setMoveOrder MultiUnitPathFinder_new o) as [[] pf]; [done|].
  apply default_moveDirections_orthogonal.
Qed.

Lemma apply_op_orthogonal pf op :
  Forall orthogonal_step (moveDirections pf) →
  Forall orthogonal_step (moveDirections (apply_op pf op)).
Proof.
  intros Hpf. destruct op; simpl; try done.
  - unfold addUnit. by case_match.
  - unfold addUnit_from, addUnit. by case_match.
  - by apply setMoveOrder_orthogonal.
  - unfold loadMapFromGrid. by repeat case_match.
  - unfold loadMapWithUnits.
    assert (moveDirections (loadMapFromGrid pf g).2 = moveDirections pf) as Hd.
    { unfold loadMapFromGrid. by repeat case_match. }
    destruct (loadMapFromGrid pf g) as [[] pf']; simpl in *; [|by rewrite Hd].
    assert (∀ p, moveDirections p = moveDirections pf →
              moveDirections (foldl addUnit_from p mapUnits)
              = moveDirections pf) as Hfold.
    { induction mapUnits as [|u us IH]; intros p Hp; simpl; [done|].
      apply IH. unfold addUnit_from, addUnit. by case_match. }
    by rewrite Hfold.
  - unfold autoSetupUnitsFromMap.
    destruct (isMapLoaded pf); simpl; [|done].
    set (f := if _ =? _ then _ else _). clearbody f.
    assert (∀ d l p, moveDirections p = moveDirections pf →
              moveDirections (foldl (autoSetup_step f d) p l)
              = moveDirections pf) as Hfold.
    { intros d l. induction l as [|i l IH]; intros p Hp; simpl; [done|].
      apply IH. unfold autoSetup_step. case_match; [done|].
      simpl. unfold addUnit. by case_match. }
    repeat case_match; simpl; try done; by rewrite Hfold.
  - by destruct (findPathsForAllUnits_frame std_sort shuffle pf)
      as (_ & -> & _).
Qed.

(** Every object obtained from a constructor by calls of the public
    interface moves along the four orthogonal unit steps. *)
Lemma moveDirections_orthogonal (moveOrder : option string)
    (ops : list Operation) :
  Forall orthogonal_step
    (moveDirections (foldl apply_op (construct moveOrder) ops)).
Proof.
  pose proof (construct_orthogonal moveOrder) as Hinit. revert Hinit.
  generalize (construct moveOrder).
  induction ops as [|op ops IH]; intros pf Hpf; simpl; [done|].
  by apply IH, apply_op_orthogonal.
Qed.

(** *** Termination of the temporal search *)

Lemma search_loop_iterations pf target remaining iterations st :
  (iterations
   ≤ outcome_iterations (search_loop pf target remaining iterations st)
   ≤ iterations + remaining)%nat.
Proof.
  revert iterations st.
  induction remaining as [|remaining IH]; intros iterations st; simpl.
  - destruct (StdHeap.pq_top (openSet st)); simpl; lia.
  - destruct (StdHeap.pq_top (openSet st)) as [current|]; simpl; [|lia].
    case_bool_decide; simpl; [lia|].
    match goal with |- context [search_loop _ _ _ _ ?s] =>
      specialize (IH (S iterations) s) end.
    lia.
Qed.

Lemma search_loop_goal pf target remaining iterations st node k :
  search_loop pf target remaining iterations st = GoalPopped node k →
  pn_pos node = target.
Proof.
  revert iterations st.
  induction remaining as [|remaining IH]; intros iterations st; simpl.
  - by destruct (StdHeap.pq_top (openSet st)).
  - destruct (StdHeap.pq_top (openSet st)) as [current|]; [|done].
    case_bool_decide; [by intros [= <- _]|]. apply IH.
Qed.

Lemma reconstructPathFromNode_nonempty node :
  reconstructPathFromNode node ≠ [].
Proof.
  unfold reconstructPathFromNode. destruct node as [p t g h f par]. simpl.
  rewrite reverse_cons. by intros [_ ?]%app_eq_nil.
Qed.

Lemma reconstructPathFromNode_last node :
  last (reconstructPathFromNode node) = Some (pn_pos node).
Proof.
  unfold reconstructPathFromNode. destruct node as [p t g h f par]. simpl.
  by rewrite reverse_cons, last_snoc.
Qed.

(** Claim C5: the loop of the temporal search makes at most
    [width * height * 100] iterations.  It ends by popping the goal, and
    then the path ends at the goal, or by an empty frontier or the
    iteration cap, and then the path is empty; an empty path makes the
    sequential loop mark the unit as not found and go on. *)
Theorem temporal_search_terminates (pf : MultiUnitPathFinder)
    (start target : Position) :
  Z.of_nat (outcome_iterations (temporal_search pf start target))
  ≤ Z.max 0 (width (battleMap pf) * height (battleMap pf) * 100)
  ∧ match temporal_search pf start target with
    | GoalPopped node _ =>
        pn_pos node = target
        ∧ (search_precheck pf start target = true →
           findPathAStarWithOccupiedCheck pf start target
           = reconstructPathFromNode node
           ∧ last (findPathAStarWithOccupiedCheck pf start target)
             = Some target)
    | FrontierEmpty _ | CapReached _ =>
        findPathAStarWithOccupiedCheck pf start target = []
    end
  ∧ ∀ unit : Unit,
      startPos unit = start → targetPos unit = target → start ≠ target →
      findPathAStarWithOccupiedCheck pf start target = [] →
      sequential_step findPathAStarWithOccupiedCheck pf unit
      = (set_pathFound unit false, pf).
Proof.
  split; [|split].
  - unfold temporal_search.
    match goal with |- context [search_loop _ _ ?r ?i ?s] =>
      pose proof (search_loop_iterations pf target r i s) as Hb end.
    unfold maxIterations in Hb.
    destruct Hb as [_ Hb]. apply Nat2Z.inj_le in Hb.
    rewrite Nat2Z.inj_add in Hb. simpl in Hb.
    etrans; [exact Hb|]. rewrite ZifyInst.of_nat_to_nat_eq. done.
  - unfold findPathAStarWithOccupiedCheck.
    destruct (temporal_search pf start target) as [node k|k|k] eqn:Hout.
    + split; [by eapply search_loop_goal|].
      intros ->. simpl. split; [done|].
      rewrite reconstructPathFromNode_last. f_equal.
      by eapply search_loop_goal.
    + by case_match.
    + by case_match.
  - intros unit <- <- Hne Hnil. unfold sequential_step.
    repeat case_match; try done.
    + by case_bool_decide.
    + rewrite Hnil in *. by case_bool_decide.
Qed.

(** *** The paths of the temporal search *)

Lemma reconstructPathFromNode_step m n :
  pn_parent n = Some m →
  reconstructPathFromNode n = reconstructPathFromNode m ++ [pn_pos n].
Proof.
  unfold reconstructPathFromNode. destruct n as [p t g h f par]. simpl.
  intros ->. by rewrite reverse_cons.
Qed.

Lemma valid_node_path pf start n :
  valid_node pf start n →
  head (reconstructPathFromNode n) = Some start
  ∧ last (reconstructPathFromNode n) = Some (pn_pos n)
  ∧ Z.of_nat (length (reconstructPathFromNode n)) = pn_time n + 1
  ∧ valid_steps pf (reconstructPathFromNode n).
Proof.
  induction 1 as [h|m n Hm (Hhead & Hlast & Hlen & Hsteps)
                       (Htime & Hg & Hpar & Htrans)].
  - repeat split; [done..|]. intros i c c' Hi Hi'.
    destruct i; simpl in *; done.
  - rewrite (reconstructPathFromNode_step m n Hpar).
    set (p := reconstructPathFromNode m) in *.
    assert (p ≠ []) as Hne by apply reconstructPathFromNode_nonempty.
    repeat split.
    + destruct p; [done|]. done.
    + by rewrite last_snoc.
    + rewrite length_app. simpl. lia.
    + intros i c c' Hi Hi'.
      destruct (decide (S i < length p)%nat) as [Hlt|Hge].
      * rewrite lookup_app_l in Hi by lia.
        rewrite lookup_app_l in Hi' by lia. by eapply Hsteps.
      * assert (S i = length p) as Hi_eq.
        { apply lookup_lt_Some in Hi'. rewrite length_app in Hi'.
          simpl in Hi'. lia. }
        rewrite lookup_app_l in Hi by lia.
        rewrite lookup_app_r in Hi' by lia.
        rewrite Hi_eq, Nat.sub_diag in Hi'. simpl in Hi'. injection Hi' as <-.
        assert (c = pn_pos m) as ->.
        { rewrite last_lookup in Hlast.
          replace (pred (length p)) with i in Hlast by lia. congruence. }
        assert (Z.of_nat i = pn_time m) as -> by lia.
        done.
Qed.

Lemma search_loop_valid pf start target remaining iterations st node k :
  Forall orthogonal_step (moveDirections pf) →
  Forall (valid_node pf start) (openSet st) →
  search_loop pf target remaining iterations st = GoalPopped node k →
  valid_node pf start node.
Proof.
  intros Hdirs. revert iterations st.
  induction remaining as [|remaining IH]; intros iterations st Hvalid; simpl.
  - by destruct (StdHeap.pq_top (openSet st)).
  - destruct (StdHeap.pq_top (openSet st)) as [current|] eqn:Htop; [|done].
    pose proof (pq_pop_Permutation PathNodeComparator _ _ Htop) as Hperm.
    rewrite Hperm in Hvalid. apply Forall_cons in Hvalid as [Hcur Hrest].
    case_bool_decide; [by intros [= <- _]|].
    apply IH. apply Forall_forall. intros n Hn.
    destruct (expand_elem _ _ _ _ _ Hdirs Hn) as [Hn'|Hn'].
    + rewrite Forall_forall in Hrest. by apply Hrest.
    + by eapply valid_step.
Qed.

(** Every path returned by the temporal search starts at the start cell at
    time 0, ends at the target, and proceeds by moves and waits that the
    occupancy table allows. *)
Lemma findPathAStarWithOccupiedCheck_valid pf start target :
  Forall orthogonal_step (moveDirections pf) →
  findPathAStarWithOccupiedCheck pf start target ≠ [] →
  head (findPathAStarWithOccupiedCheck pf start target) = Some start
  ∧ last (findPathAStarWithOccupiedCheck pf start target) = Some target
  ∧ valid_steps pf (findPathAStarWithOccupiedCheck pf start target).
Proof.
  intros Hdirs. unfold findPathAStarWithOccupiedCheck.
  destruct (search_precheck pf start target); simpl; [|done].
  destruct (temporal_search pf start target) as [node k|k|k] eqn:Hout;
    [|done..].
  intros _. unfold temporal_search in Hout.
  pose proof (search_loop_goal _ _ _ _ _ _ _ Hout) as Hgoal.
  apply (search_loop_valid pf start) in Hout; [|done|].
  - destruct (valid_node_path pf start node Hout) as (? & ? & _ & ?).
    repeat split; [done| |done]. by rewrite <- Hgoal.
  - cbn [openSet]. rewrite pq_push_Permutation. repeat constructor.
Qed.

(** *** The cooperative passes *)

(** When every unit is found in the first pass, that pass is the result:
    no shuffle and no further attempt take place. *)
Lemma findPathsCooperative_first_pass shuffle pf :
  let pass := cooperative_pass (clearOccupiedPositions pf) (units pf) in
  forallb pathFound pass.1 = true →
  findPathsCooperative shuffle pf = (mkResult pass.1 true 0 [], pass.2).
Proof.
  cbv zeta. intros Hall. unfold findPathsCooperative, maxAttempts. simpl.
  destruct (cooperative_pass (clearOccupiedPositions pf) (units pf))
    as [us pf']. simpl in *. by rewrite Hall.
Qed.

(** *** The single-unit search never runs out of fuel *)

Lemma elem_of_scan_cells (w h x y : Z) :
  0 ≤ x < w → 0 ≤ y < h → (x, y) ∈ scan_cells w h.
Proof.
  intros Hx Hy. unfold scan_cells.
  apply list_elem_of_bind. exists (Z.to_nat y). split.
  - apply list_elem_of_bind. exists (Z.to_nat x). split.
    + rewrite !Z2Nat.id by lia. apply list_elem_of_singleton. done.
    + apply elem_of_seq. lia.
  - apply elem_of_seq. lia.
Qed.

Lemma length_scan_cells (w h : Z) :
  length (scan_cells w h) = (Z.to_nat h * Z.to_nat w)%nat.
Proof.
  unfold scan_cells.
  assert (∀ (y : nat) (xs : list nat),
            length (xs ≫= λ x, [(Z.of_nat x, Z.of_nat y)]) = length xs)
    as Hrow.
  { intros y xs. induction xs as [|x xs IH]; [done|].
    rewrite bind_cons. simpl. by rewrite IH. }
  assert (∀ (xs ys : list nat),
            length (ys ≫= λ y, xs ≫= λ x, [(Z.of_nat x, Z.of_nat y)])
            = (length ys * length xs)%nat) as Hgrid.
  { intros xs ys. induction ys as [|y ys IH]; [done|].
    rewrite bind_cons, length_app, IH, Hrow. done. }
  by rewrite Hgrid, !length_seq.
Qed.

Lemma size_list_to_set_le (l : list Position) :
  (size (list_to_set l : gset Position) ≤ length l)%nat.
Proof.
  induction l as [|p l IH].
  - change (list_to_set [] : gset Position) with (∅ : gset Position).
    by rewrite size_empty.
  - change (list_to_set (p :: l) : gset Position)
      with ({[p]} ∪ list_to_set l : gset Position).
    rewrite size_union_alt, size_singleton. simpl.
    pose proof (subseteq_size (list_to_set l ∖ {[p]} : gset Position)
                  (list_to_set l)) as Hle.
    assert (list_to_set l ∖ {[p]} ⊆ (list_to_set l : gset Position)) as Hincl
      by (intros q [? _]%elem_of_difference; done).
    specialize (Hle Hincl). lia.
Qed.

Lemma size_search_space pf start :
  (size (search_space pf start) < findPathAStar_fuel pf)%nat.
Proof.
  unfold search_space, findPathAStar_fuel, map_cells.
  set (cells := scan_cells (width (battleMap pf)) (height (battleMap pf))).
  pose proof (size_list_to_set_le cells) as Hle.
  unfold cells in Hle at 2. rewrite length_scan_cells, Nat.mul_comm in Hle.
  pose proof (subseteq_size
                (list_to_set cells ∖ {[start]} : gset Position)
                (list_to_set cells)) as Hsub.
  rewrite size_union_alt, size_singleton.
  assert (list_to_set cells ∖ {[start]} ⊆ (list_to_set cells : gset Position))
    as Hincl by (intros p [? _]%elem_of_difference; done).
  specialize (Hsub Hincl).
  remember (Z.to_nat (width (battleMap pf)) * Z.to_nat (height (battleMap pf)))%nat
    as n.
  remember (size (list_to_set cells ∖ {[start]} : gset Position)) as a.
  remember (size (list_to_set cells : gset Position)) as b.
  clear -Hle Hsub. lia.
Qed.

Lemma isReachable_cell (m : BattleMap) (x y : Z) :
  isReachable m x y = true → (x, y) ∈ map_cells m.
Proof.
  unfold isReachable, isValidPosition, map_cells.
  destruct (_ && _) eqn:Hvalid; [|done]. intros _.
  apply andb_true_iff in Hvalid as [[[?%Z.leb_le ?%Z.ltb_lt]%andb_true_iff
    ?%Z.leb_le]%andb_true_iff ?%Z.ltb_lt].
  apply elem_of_list_to_set. by apply elem_of_scan_cells.
Qed.

Lemma getNeighbors_cells pf pos p :
  p ∈ getNeighbors pf pos → p ∈ map_cells (battleMap pf).
Proof.
  unfold getNeighbors. intros (dir & _ & Hdir)%list_elem_of_omap.
  destruct (isReachable _ _ _) eqn:Hreach; [|done].
  injection Hdir as <-. by apply isReachable_cell.
Qed.

Lemma astar_visit_invariant pf start target current st neighbor :
  astar_invariant pf start st →
  neighbor ∈ map_cells (battleMap pf) →
  astar_invariant pf start (astar_visit target current st neighbor)
  ∧ a_closedSet (astar_visit target current st neighbor) = a_closedSet st.
Proof.
  intros [Hnd Hopen Hdisj Hspace] Hcell. unfold astar_visit.
  case_bool_decide as Hclosed; [done|].
  case_bool_decide as Hnew; [|done].
  split; [|done]. split; simpl.
  - rewrite pq_push_Permutation. simpl. apply NoDup_cons. split; [|done].
    by rewrite <- Hopen.
  - intros p. rewrite pq_push_Permutation. simpl.
    rewrite elem_of_union, elem_of_singleton, elem_of_cons, Hopen. done.
  - apply disjoint_union_l. split; [|done].
    by apply disjoint_singleton_l.
  - unfold search_space in *. set_solver.
Qed.

Lemma foldl_astar_visit_invariant pf start target current st neighbors :
  astar_invariant pf start st →
  Forall (λ p, p ∈ map_cells (battleMap pf)) neighbors →
  astar_invariant pf start (foldl (astar_visit target current) st neighbors)
  ∧ a_closedSet (foldl (astar_visit target current) st neighbors)
    = a_closedSet st.
Proof.
  intros Hinv Hcells. revert st Hinv.
  induction Hcells as [|p neighbors Hp _ IH]; intros st Hinv; simpl; [done|].
  destruct (astar_visit_invariant pf start target current st p Hinv Hp)
    as [Hinv' Hclosed].
  destruct (IH _ Hinv') as [Hinv'' Hclosed'].
  split; [done|congruence].
Qed.

Lemma astar_loop_enough_fuel pf start target fuel st :
  astar_invariant pf start st →
  (size (search_space pf start ∖ a_closedSet st) < fuel)%nat →
  is_Some (astar_loop pf target fuel st).
Proof.
  revert st. induction fuel as [|fuel IH]; intros st Hinv Hsize; [lia|].
  simpl. destruct (StdHeap.pq_top (a_openSet st)) as [current|] eqn:Htop;
    [|done].
  case_bool_decide; [done|].
  destruct Hinv as [Hnd Hopen Hdisj Hspace].
  pose proof (pq_pop_Permutation NodeComparator _ _ Htop) as Hperm.
  assert (n_pos <$> a_openSet st
          ≡ₚ n_pos current
               :: (n_pos <$> StdHeap.pq_pop NodeComparator (a_openSet st)))
    as Hperm' by (by rewrite Hperm at 1).
  rewrite Hperm' in Hnd. apply NoDup_cons in Hnd as [Hfresh Hnd].
  assert (n_pos current ∈ a_openSetPositions st) as Hcur.
  { apply Hopen. rewrite Hperm'. left. }
  assert (n_pos current ∉ a_closedSet st) as Hnotclosed.
  { intros ?. by apply (Hdisj (n_pos current)). }
  assert (n_pos current ∈ search_space pf start) as Hin.
  { apply Hspace. by apply elem_of_union_l. }
  match goal with |- context [foldl _ ?s _] => set (st1 := s) end.
  assert (astar_invariant pf start st1) as Hinv1.
  { split; simpl.
    - done.
    - intros p. rewrite elem_of_difference, elem_of_singleton, Hopen, Hperm'.
      rewrite elem_of_cons. split; [intros [[?|?] ?]; done|].
      intros Hp. split; [by right|]. by intros ->.
    - set_solver.
    - set_solver. }
  destruct (foldl_astar_visit_invariant pf start target current st1
              (getNeighbors pf (n_pos current)) Hinv1) as [Hinv2 Hclosed].
  { apply Forall_forall. intros p. apply getNeighbors_cells. }
  apply IH; [done|]. rewrite Hclosed. simpl.
  assert (search_space pf start ∖ ({[n_pos current]} ∪ a_closedSet st)
          ⊂ search_space pf start ∖ a_closedSet st) as Hsub.
  { split; [set_solver|]. intros Hsub.
    assert (n_pos current ∈ search_space pf start ∖ a_closedSet st) as Hc
      by set_solver.
    apply Hsub in Hc. set_solver. }
  apply subset_size in Hsub. lia.
Qed.

(** With [findPathAStar_fuel] the model of the loop always reaches one of
    the two exits of the source loop. *)
Lemma findPathAStar_fuel_enough pf start target :
  is_Some (astar_loop pf target (findPathAStar_fuel pf)
             (mkAStar
                (StdHeap.pq_push NodeComparator
                   (Node_new start 0 (calculateHeuristic start target) None)
                   [])
                ∅ {[start]})).
Proof.
  apply (astar_loop_enough_fuel pf start).
  - split; cbn [a_openSet a_closedSet a_openSetPositions].
    + rewrite pq_push_Permutation. simpl. apply NoDup_singleton.
    + intros p. rewrite pq_push_Permutation. simpl.
      by rewrite elem_of_singleton, list_elem_of_singleton.
    + apply disjoint_empty_r.
    + unfold search_space. rewrite union_empty_r_L. apply union_subseteq_l.
  - cbn [a_closedSet]. rewrite difference_empty_L. apply size_search_space.
Qed.

(** *** The collision scan *)

Lemma elem_of_collisions_at (timeStep : Z) (i : nat) (positions : list Position)
    (e : Z * Z) :
  e ∈ collisions_at timeStep i positions ↔
  ∃ (a b : nat) (p : Position),
    e = (timeStep, Z.of_nat (i + a)) ∧ (a < b)%nat
    ∧ positions !! a = Some p ∧ positions !! b = Some p.
Proof.
  revert i. induction positions as [|p rest IH]; intros i; simpl.
  - split; [by intros ?%elem_of_nil|].
    intros (a & b & q & _ & _ & Ha & _). by rewrite lookup_nil in Ha.
  - rewrite elem_of_app, list_elem_of_fmap, IH. split.
    + intros [(q & -> & Hq)|(a & b & q & -> & Hab & Ha & Hb)].
      * apply list_elem_of_filter in Hq as [<- Hq].
        apply list_elem_of_lookup in Hq as [j Hj].
        exists 0%nat, (S j), p. rewrite Nat.add_0_r. repeat split; [lia|done..].
      * exists (S a), (S b), q. repeat split; [|lia|done..].
        do 2 f_equal. lia.
    + intros (a & b & q & -> & Hab & Ha & Hb).
      destruct a as [|a].
      * left. simpl in Ha. injection Ha as ->.
        destruct b as [|b]; [lia|]. simpl in Hb.
        exists q. rewrite Nat.add_0_r. split; [done|].
        apply list_elem_of_filter. split; [done|].
        by eapply list_elem_of_lookup_2.
      * right. destruct b as [|b]; [lia|].
        exists a, b, q. repeat split; [|lia|done..].
        do 2 f_equal. lia.
Qed.

(** Claim C1, as the code has it: [findCollisions] knows the positions
    only, not the goals.  It reports the entry [(t, i)] exactly when agent
    [i] shares its cell at step [t] with an agent [j] of higher index,
    whether or not that cell is the goal of the agents; hence a step has no
    entry exactly when no two agents share a cell at that step. *)
Theorem findCollisions_pairs (table : list (list Position)) (e : Z * Z) :
  e ∈ findCollisions table ↔
  ∃ (t i j : nat) (row : list Position) (p : Position),
    e = (Z.of_nat t, Z.of_nat i) ∧ table !! t = Some row ∧ (i < j)%nat
    ∧ row !! i = Some p ∧ row !! j = Some p.
Proof.
  unfold findCollisions. rewrite list_elem_of_join. split.
  - intros (l & He & Hl).
    apply list_elem_of_lookup in Hl as [t Ht].
    rewrite list_lookup_imap in Ht.
    destruct (table !! t) as [row|] eqn:Hrow; [|done].
    simpl in Ht. injection Ht as <-.
    apply elem_of_collisions_at in He as (a & b & p & -> & ? & ? & ?).
    by exists t, a, b, row, p.
  - intros (t & i & j & row & p & -> & Hrow & Hij & Hi & Hj).
    exists (collisions_at (Z.of_nat t) 0 row). split.
    + apply elem_of_collisions_at. by exists i, j, p.
    + apply list_elem_of_lookup. exists t.
      by rewrite list_lookup_imap, Hrow.
Qed.

(** *** The scenarios, evaluated *)

(** Claim C1 fails as stated: three agents standing on their common goal
    cell [(1,1)] at step 1 are reported as three conflicts. *)
Lemma findCollisions_goal_colocation :
  let goals : list Position := [(1, 1); (1, 1); (1, 1)] in
  let table : list (list Position) := [[(0, 1); (1, 0); (2, 1)]; goals] in
  table !! 1%nat = Some goals
  ∧ findCollisions table = [(1, 0); (1, 0); (1, 1)].
Proof. by vm_compute. Qed.

(** Claim C6 fails as stated: the cell [(5,5)] lies outside the
    three-cell corridor and is not recorded by the reservation. *)
Lemma reserve_skips_cell_outside_map :
  let pf := updateOccupiedPositions corridor [(5, 5)] 0 in
  [(5, 5)] !! 0%nat = Some (5, 5)
  ∧ is_occupied (occupiedPositionsAtTime pf) 0 (5, 5) = false
  ∧ occupiedPositionsAtTime pf !! 0 = None.
Proof. by vm_compute. Qed.

Lemma reserve_then_not_free_witness :
  [(0, 0); (1, 0)] !! 1%nat = Some (1, 0)
  ∧ let pf' := updateOccupiedPositions corridor [(0, 0); (1, 0)] 4 in
    (isValidPosition (battleMap corridor) 1 0 = true →
     is_occupied (occupiedPositionsAtTime pf') (4 + 1) (1, 0) = true)
    ∧ canWaitAtPosition pf' (1, 0) (4 + 1) = false.
Proof.
  split; [reflexivity|].
  apply (reserve_then_not_free corridor [(0, 0); (1, 0)] 4 1 (1, 0)).
  reflexivity.
Defined.

(** Claim C3 fails as stated: with seventeen units of equal priority the
    introsort of libstdc++ processes them in another order than the
    original one, which a stable sort keeps. *)
Lemma priority_ties_reordered :
  Forall (λ u, getUnitPriority lineup (id u) = 0) (units lineup)
  ∧ id <$> units lineup
    = [1; 2; 3; 4; 5; 6; 7; 8; 9; 10; 11; 12; 13; 14; 15; 16; 17]
  ∧ id <$> result_units
             (findPathsSequential
                (set_units lineup
                   (stable_sort (priority_before lineup) (units lineup)))).1
    = [1; 2; 3; 4; 5; 6; 7; 8; 9; 10; 11; 12; 13; 14; 15; 16; 17]
  ∧ id <$> result_units (findPathsPriorityBased StdSort.sort lineup).1
    = [9; 17; 16; 15; 14; 13; 12; 11; 10; 1; 8; 7; 6; 5; 4; 3; 2].
Proof.
  split; [|by vm_compute].
  apply (bool_decide_unpack _). by vm_compute.
Qed.

(** Claim C2 on the corridor: the cooperative pass searches with the plain
    A*, which does not read the occupancy table.  Both units are found at
    the first attempt (so no shuffle takes place); the second unit steps on
    [(1,0)] at time 1, the cell and time reserved by the first unit, and
    the table of the result has a collision there.  The sequential pass on
    the same input makes the second unit wait one step instead. *)
Theorem cooperative_ignores_reservations (shuffle : Shuffler) :
  let out := findPathsCooperative shuffle corridor in
  let first := cooperative_step (clearOccupiedPositions corridor)
                 (Unit_new 1 (0, 0) (2, 0)) in
  allPathsFound out.1 = true
  ∧ path <$> result_units out.1
    = [[(0, 0); (1, 0); (2, 0)]; [(2, 0); (1, 0); (0, 0)]]
  ∧ is_occupied (occupiedPositionsAtTime first.2) 1 (1, 0) = true
  ∧ findCollisions (generateStepByStepPositions (result_units out.1))
    = [(1, 0)]
  ∧ path <$> result_units (findPathsSequential corridor).1
    = [[(0, 0); (1, 0); (2, 0)]; [(2, 0); (2, 0); (1, 0); (0, 0)]].
Proof. by vm_compute. Qed.

Lemma start_equals_goal_is_trivial_witness :
  let unit := Unit_new 3 (2, 0) (2, 0) in
  let search := findPathAStarWithOccupiedCheck in
  (units lineup !! 2%nat = Some unit
   ∧ startPos unit = targetPos unit
   ∧ isValidPosition (battleMap lineup) (startPos unit).1 (startPos unit).2
     = true
   ∧ isReachable (battleMap lineup) (startPos unit).1 (startPos unit).2
     = true)
  ∧ result_units (findPathsSequential_with search lineup).1 !! 2%nat
    = Some (mkUnit 3 (2, 0) (2, 0) [(2, 0)] true)
  ∧ is_occupied
      (occupiedPositionsAtTime (findPathsSequential_with search lineup).2) 0
      (2, 0) = true
  ∧ ∀ pf0, battleMap pf0 = battleMap lineup →
      sequential_step search pf0 unit
      = (set_path unit [(2, 0)] true,
         updateOccupiedPositions pf0 [(2, 0)] 0).
Proof.
  split; [by vm_compute|].
  apply (start_equals_goal_is_trivial findPathAStarWithOccupiedCheck lineup
           2 (Unit_new 3 (2, 0) (2, 0))); by vm_compute.
Defined.

Lemma unit_ids_stay_unique_witness :
  let pf := set_units MultiUnitPathFinder_new
              [mkUnit 1 (0, 0) (1, 1) [(0, 0); (0, 1); (1, 1)] true;
               mkUnit 2 (3, 3) (4, 3) [(3, 3); (4, 3)] true] in
  NoDup (id <$> units pf)
  ∧ units (addUnit pf 2 (5, 5) (6, 6))
    = [mkUnit 1 (0, 0) (1, 1) [(0, 0); (0, 1); (1, 1)] true;
       mkUnit 2 (5, 5) (6, 6) [] false].
Proof.
  cbv zeta.
  assert (NoDup (id <$> units
                   (set_units MultiUnitPathFinder_new
                      [mkUnit 1 (0, 0) (1, 1) [(0, 0); (0, 1); (1, 1)] true;
                       mkUnit 2 (3, 3) (4, 3) [(3, 3); (4, 3)] true])))
    as Hnd.
  { apply (bool_decide_unpack _). by vm_compute. }
  split; [exact Hnd|].
  exact (proj1 (proj2 (proj2 unit_ids_stay_unique))
           (set_units MultiUnitPathFinder_new
              [mkUnit 1 (0, 0) (1, 1) [(0, 0); (0, 1); (1, 1)] true;
               mkUnit 2 (3, 3) (4, 3) [(3, 3); (4, 3)] true])
           1%nat (mkUnit 2 (3, 3) (4, 3) [(3, 3); (4, 3)] true)
           (5, 5) (6, 6) Hnd eq_refl).
Defined.

Lemma priority_based_is_sequential_on_std_sort_witness :
  let pf := setUnitPriority corridor 2 5 in
  let sorted := stable_sort (priority_before pf) (units pf) in
  std_sort_contract stable_sort
  ∧ (findPathsPriorityBased stable_sort pf).1
    = (findPathsSequential (set_units pf sorted)).1
  ∧ sorted ≡ₚ units pf
  ∧ StronglySorted (λ a b, getUnitPriority pf b ≤ getUnitPriority pf a)
      (id <$> sorted).
Proof.
  split; [exact stable_sort_contract|].
  exact (priority_based_is_sequential_on_std_sort stable_sort
           (setUnitPriority corridor 2 5) stable_sort_contract).
Defined.

Lemma priority_based_restores_unit_list_witness :
  let pf := setUnitPriority corridor 2 5 in
  let out := findPathsPriorityBased stable_sort pf in
  std_sort_contract stable_sort
  ∧ units out.2 = units pf
  ∧ id <$> result_units out.1
    = id <$> stable_sort (priority_before pf) (units pf)
  ∧ id <$> result_units out.1 ≡ₚ id <$> units pf
  ∧ StronglySorted (λ a b, getUnitPriority pf b ≤ getUnitPriority pf a)
      (id <$> result_units out.1).
Proof.
  split; [exact stable_sort_contract|].
  exact (priority_based_restores_unit_list stable_sort
           (setUnitPriority corridor 2 5) stable_sort_contract).
Defined.

Lemma expand_generates_successors_witness :
  let current := PathNode_new (0, 0) 0 0 2 None in
  let n := PathNode_new (1, 0) 1 1 1 (Some current) in
  let st := mkSearch [] ∅ ∅ in
  Forall orthogonal_step (moveDirections corridor)
  ∧ n ∈ openSet (expand corridor (2, 0) current st)
  ∧ (n ∈ openSet st ∨ successor_of corridor current n).
Proof.
  assert (Forall orthogonal_step (moveDirections corridor)) as Hdirs.
  { exact (moveDirections_orthogonal None
             [OpLoadMapFromGrid [[0; -1; 8]];
              OpAddUnit 1 (0, 0) (2, 0); OpAddUnit 2 (2, 0) (0, 0)]). }
  assert (PathNode_new (1, 0) 1 1 1 (Some (PathNode_new (0, 0) 0 0 2 None))
          ∈ openSet (expand corridor (2, 0) (PathNode_new (0, 0) 0 0 2 None)
                       (mkSearch [] ∅ ∅))) as Hin.
  { vm_compute. apply list_elem_of_here. }
  split; [exact Hdirs|]. split; [exact Hin|].
  exact (expand_generates_successors corridor (2, 0)
           (PathNode_new (0, 0) 0 0 2 None) (mkSearch [] ∅ ∅) _ Hdirs Hin).
Defined.

(** *** The collision detectors agree *)

Lemma findCollisions_elem (table : list (list Position)) (e : Z * Z) :
  e ∈ findCollisions table ↔
  ∃ (t i j : nat) (row : list Position) (p : Position),
    e = (Z.of_nat t, Z.of_nat i) ∧ table !! t = Some row ∧ (i < j)%nat
    ∧ row !! i = Some p ∧ row !! j = Some p.
Proof.
  unfold findCollisions. rewrite list_elem_of_join. split.
  - intros (l & He & Hl).
    apply list_elem_of_lookup in Hl as [t Ht].
    rewrite list_lookup_imap in Ht.
    destruct (table !! t) as [row|] eqn:Hrow; [|done].
    simpl in Ht. injection Ht as <-.
    apply elem_of_collisions_at in He as (a & b & p & -> & ? & ? & ?).
    by exists t, a, b, row, p.
  - intros (t & i & j & row & p & -> & Hrow & Hij & Hi & Hj).
    exists (collisions_at (Z.of_nat t) 0 row). split.
    + apply elem_of_collisions_at. by exists i, j, p.
    + apply list_elem_of_lookup. exists t.
      by rewrite list_lookup_imap, Hrow.
Qed.

Lemma has_duplicate_false (seen : gset Position) (positions : list Position) :
  has_duplicate seen positions = false ↔
  NoDup positions ∧ ∀ p, p ∈ positions → p ∉ seen.
Proof.
  revert seen. induction positions as [|p rest IH]; intros seen; simpl.
  - split; [|done]. intros _. split; [constructor|]. by intros p ?%elem_of_nil.
  - case_bool_decide as Hp.
    + split; [done|]. intros [_ Hseen]. exfalso. apply (Hseen p); [by left|done].
    + rewrite IH, NoDup_cons. split.
      * intros [Hnd Hrest]. split; [split; [|done]|].
        -- intros Hin. apply (Hrest p Hin). set_solver.
        -- intros q [->|Hq]%elem_of_cons; [done|].
           specialize (Hrest q Hq). set_solver.
      * intros [[Hfresh Hnd] Hseen]. split; [done|].
        intros q Hq. assert (q ∉ seen) by (apply Hseen; by right).
        intros [->%elem_of_singleton|?]%elem_of_union; done.
Qed.

Lemma NoDup_no_pair (row : list Position) :
  NoDup row →
  ∀ (i j : nat) (p : Position),
    (i < j)%nat → row !! i = Some p → row !! j = Some p → False.
Proof.
  rewrite NoDup_alt. intros Hnd i j p Hij Hi Hj.
  specialize (Hnd i j p Hi Hj). lia.
Qed.

Lemma not_NoDup_pair (row : list Position) :
  ¬ NoDup row →
  ∃ (i j : nat) (p : Position),
    (i < j)%nat ∧ row !! i = Some p ∧ row !! j = Some p.
Proof.
  induction row as [|x rest IH]; intros Hdup.
  - exfalso. apply Hdup. constructor.
  - destruct (decide (x ∈ rest)) as [Hin|Hfresh].
    + apply list_elem_of_lookup in Hin as [j Hj].
      exists 0%nat, (S j), x. split; [lia|done].
    + destruct IH as (i & j & p & Hij & Hi & Hj).
      * intros Hnd. apply Hdup. by constructor.
      * exists (S i), (S j), p. split; [lia|done].
Qed.

Lemma row_entries (table : list (list Position)) (t : nat)
    (row : list Position) :
  table !! t = Some row →
  (∃ i : Z, (Z.of_nat t, i) ∈ findCollisions table) ↔ ¬ NoDup row.
Proof.
  intros Hrow. split.
  - intros (i & (t' & a & b & row' & p & [= Ht ->] & Hrow' & Hab & Ha & Hb)
              %findCollisions_elem).
    apply Nat2Z.inj in Ht as <-. simplify_eq. intros Hnd.
    by eapply NoDup_no_pair.
  - intros (a & b & p & Hab & Ha & Hb)%not_NoDup_pair.
    exists (Z.of_nat a). apply findCollisions_elem. eauto 10.
Qed.

(** Property X1.  The single-step test answers as the full scan does: [hasCollision] is
    true at a time step exactly when [findCollisions] has an entry for that
    step, and false for a step outside the table. *)
Theorem hasCollision_iff_findCollisions (table : list (list Position))
    (timeStep : Z) :
  hasCollision table timeStep = true ↔
  ∃ i : Z, (timeStep, i) ∈ findCollisions table.
Proof.
  unfold hasCollision.
  destruct ((timeStep <? 0) || (Z.of_nat (length table) <=? timeStep))
    eqn:Hrange.
  - split; [done|].
    intros (i & (t & a & b & row & p & [= -> ->] & Hrow & _)
              %findCollisions_elem).
    apply lookup_lt_Some in Hrow.
    apply orb_true_iff in Hrange as [?%Z.ltb_lt|?%Z.leb_le]; lia.
  - apply orb_false_iff in Hrange as [?%Z.ltb_ge ?%Z.leb_gt].
    destruct (lookup_lt_is_Some_2 table (Z.to_nat timeStep)) as [row Hrow];
      [lia|].
    rewrite Hrow.
    pose proof (row_entries _ _ _ Hrow) as Hentries.
    rewrite Z2Nat.id in Hentries by done. rewrite Hentries.
    destruct (has_duplicate ∅ row) eqn:Hdup.
    + split; [|done]. intros _ Hnd.
      assert (has_duplicate ∅ row = false) as Hf; [|congruence].
      apply has_duplicate_false. split; [done|]. intros q _. set_solver.
    + split; [done|]. intros Hnd. exfalso. apply Hnd.
      by apply has_duplicate_false in Hdup as [? _].
Qed.

(** Property X2.  [validateUnitPaths] accepts a result exactly when all paths were found
    and no two units share a cell at any step of its table. *)
Theorem validateUnitPaths_spec (result : PathfindingResult) :
  validateUnitPaths result = true ↔
  allPathsFound result = true
  ∧ Forall (λ row, NoDup row) (stepByStepPositions result).
Proof.
  unfold validateUnitPaths. destruct (allPathsFound result); simpl.
  2:{ split; [done|]. by intros [? _]. }
  rewrite bool_decide_eq_true. split.
  - intros Hnil. split; [done|]. apply Forall_lookup. intros t row Hrow.
    destruct (decide (NoDup row)) as [|Hdup]; [done|].
    apply (row_entries _ _ _ Hrow) in Hdup as [i Hi].
    rewrite Hnil in Hi. by apply elem_of_nil in Hi.
  - intros [_ Hrows]. apply elem_of_nil_inv. intros e He.
    pose proof He as (t & a & b & row & p & -> & Hrow & _)%findCollisions_elem.
    assert (¬ NoDup row) as Hdup by (apply (row_entries _ _ _ Hrow); eauto).
    apply Hdup. by eapply Forall_lookup_1.
Qed.

(** *** The unit registry and the priorities *)

Lemma addUnit_new pf unitId start target :
  unitId ∉ id <$> units pf →
  addUnit pf unitId start target
  = set_unitPriorities
      (set_units pf (units pf ++ [Unit_new unitId start target]))
      (<[unitId := 0]> (unitPriorities pf)).
Proof.
  intros Hnew. unfold addUnit.
  by rewrite (proj2 (update_existing_None _ _ start target) Hnew).
Qed.

Lemma addUnit_battleMap pf unitId start target :
  battleMap (addUnit pf unitId start target) = battleMap pf.
Proof. unfold addUnit. by case_match. Qed.

Lemma addUnit_priority_known pf unitId start target :
  priority_known pf → priority_known (addUnit pf unitId start target).
Proof.
  intros Hpf u. unfold addUnit.
  destruct (update_existing (units pf) unitId start target) as [us|] eqn:Hup.
  - simpl. intros Hu.
    assert (id u ∈ id <$> units pf) as Hid.
    { rewrite <- (update_existing_ids _ _ _ _ _ Hup).
      apply list_elem_of_fmap. eauto. }
    apply list_elem_of_fmap in Hid as (u' & -> & Hu'). by apply Hpf.
  - simpl. intros [Hu| ->%list_elem_of_singleton]%elem_of_app.
    + destruct (decide (id u = unitId)) as [->|Hne].
      * rewrite lookup_insert_eq. eauto.
      * rewrite lookup_insert_ne by done. by apply Hpf.
    + simpl. rewrite lookup_insert_eq. eauto.
Qed.

Lemma foldl_addUnit_from_priority_known pf mapUnits :
  priority_known pf → priority_known (foldl addUnit_from pf mapUnits).
Proof.
  revert pf. induction mapUnits as [|u rest IH]; intros pf Hpf; [done|].
  simpl. apply IH. by apply addUnit_priority_known.
Qed.

Lemma setUnitPriority_priority_known pf unitId priority :
  priority_known pf → priority_known (setUnitPriority pf unitId priority).
Proof.
  intros Hpf u Hu. simpl.
  destruct (decide (id u = unitId)) as [->|Hne].
  - rewrite lookup_insert_eq. eauto.
  - rewrite lookup_insert_ne by done. by apply Hpf.
Qed.

Lemma foldl_autoSetup_priority_known targetIndex maxPossibleDistance pf l :
  priority_known pf →
  priority_known (foldl (autoSetup_step targetIndex maxPossibleDistance) pf l).
Proof.
  revert pf. induction l as [|i rest IH]; intros pf Hpf; [done|].
  simpl. apply IH. unfold autoSetup_step. case_match; [done|].
  by apply setUnitPriority_priority_known, addUnit_priority_known.
Qed.

Lemma clearUnits_priority_known pf : priority_known (clearUnits pf).
Proof. by intros u ?%elem_of_nil. Qed.

Lemma priority_known_frame pf pf' :
  units pf' = units pf → unitPriorities pf' = unitPriorities pf →
  priority_known pf → priority_known pf'.
Proof. intros Hu Hp Hpf u. rewrite Hu, Hp. apply Hpf. Qed.

Lemma loadMapFromGrid_registry pf g :
  units (loadMapFromGrid pf g).2 = units pf
  ∧ unitPriorities (loadMapFromGrid pf g).2 = unitPriorities pf.
Proof. unfold loadMapFromGrid. by repeat case_match. Qed.

Lemma apply_op_priority_known pf op :
  priority_known pf → priority_known (apply_op pf op).
Proof.
  intros Hpf. destruct op; simpl.
  - by apply addUnit_priority_known.
  - by apply addUnit_priority_known.
  - intros u [Hne Hu]%list_elem_of_filter. simpl.
    rewrite lookup_delete_ne by done. by apply Hpf.
  - apply clearUnits_priority_known.
  - by apply setUnitPriority_priority_known.
  - done.
  - unfold setMoveOrder. by case_match.
  - destruct (loadMapFromGrid_registry pf g) as [Hu Hp].
    by apply (priority_known_frame pf).
  - unfold loadMapWithUnits.
    destruct (loadMapFromGrid pf g) as [ok pf1] eqn:Hload.
    destruct (loadMapFromGrid_registry pf g) as [Hu Hp].
    rewrite Hload in Hu, Hp. simpl in Hu, Hp.
    destruct ok; simpl.
    + apply foldl_addUnit_from_priority_known, clearUnits_priority_known.
    + by apply (priority_known_frame pf).
  - unfold autoSetupUnitsFromMap. case_match; [done|].
    cbv zeta. case_match; simpl; [apply clearUnits_priority_known|].
    case_match; simpl;
      apply foldl_autoSetup_priority_known, clearUnits_priority_known.
  - destruct (findPathsForAllUnits_frame std_sort shuffle pf)
      as (_ & _ & _ & Hu & _ & Hp).
    by apply (priority_known_frame pf).
Qed.

(** Property X3.  After any sequence of public calls on a newly constructed object every
    registered unit has an entry in [unitPriorities]: the default of
    [getUnitPriority] is never what answers for a registered unit. *)
Theorem registered_units_have_priority (moveOrder : option string)
    (ops : list Operation) (u : Unit) :
  let pf := foldl apply_op (construct moveOrder) ops in
  u ∈ units pf → is_Some (unitPriorities pf !! id u).
Proof.
  cbv zeta. revert u.
  change (priority_known (foldl apply_op (construct moveOrder) ops)).
  induction ops as [|op ops IH] using rev_ind.
  - intros u. destruct moveOrder as [o|]; simpl.
    + unfold MultiUnitPathFinder_with_order, setMoveOrder.
      repeat case_match; simplify_eq; simpl; by intros ?%elem_of_nil.
    + by intros ?%elem_of_nil.
  - rewrite foldl_snoc. by apply apply_op_priority_known.
Qed.

Lemma registered_units_have_priority_witness :
  ∃ u, u ∈ units (foldl apply_op (construct None)
                    [OpAddUnit 7 (0, 0) (1, 1); OpSetUnitPriority 9 4;
                     OpRemoveUnit 9])
       ∧ is_Some (unitPriorities
                    (foldl apply_op (construct None)
                       [OpAddUnit 7 (0, 0) (1, 1); OpSetUnitPriority 9 4;
                        OpRemoveUnit 9]) !! id u).
Proof.
  exists (Unit_new 7 (0, 0) (1, 1)).
  assert (Unit_new 7 (0, 0) (1, 1)
          ∈ units (foldl apply_op (construct None)
                     [OpAddUnit 7 (0, 0) (1, 1); OpSetUnitPriority 9 4;
                      OpRemoveUnit 9])) as Hin.
  { vm_compute. left. }
  split; [exact Hin|].
  exact (registered_units_have_priority None _ _ Hin).
Defined.

(** Property X4.  [addUnit] sets the priority of the unit to 0 only when the id is new;
    registering an id again keeps the priority it has, and the priority of
    every other id is untouched.  A priority set for an id before it is
    registered is therefore lost when the unit is added. *)
Theorem addUnit_priority (pf : MultiUnitPathFinder) (unitId : Z)
    (start target : Position) (v : Z) :
  getUnitPriority (addUnit pf unitId start target) v
  = if bool_decide (v = unitId ∧ unitId ∉ id <$> units pf) then 0
    else getUnitPriority pf v.
Proof.
  unfold addUnit, getUnitPriority.
  destruct (update_existing (units pf) unitId start target) as [us|] eqn:Hup.
  - rewrite bool_decide_eq_false_2; [done|].
    intros [_ Hnew]. apply (update_existing_None _ _ start target) in Hnew.
    congruence.
  - apply update_existing_None in Hup. simpl.
    case_bool_decide as Hv.
    + destruct Hv as [-> _]. by rewrite lookup_insert_eq.
    + rewrite lookup_insert_ne; [done|]. intros ->. by apply Hv.
Qed.

(** Property X5.  [loadMapWithUnits] with units of distinct ids registers them in the
    given order with their id, start and target only: the path and the
    [pathFound] flag of the input are dropped, every priority is 0 and no
    cell is reserved. *)
Theorem loadMapWithUnits_registers (pf pf' : MultiUnitPathFinder)
    (g : list (list Z)) (mapUnits : list Unit) :
  NoDup (id <$> mapUnits) →
  loadMapWithUnits pf g mapUnits = (true, pf') →
  units pf'
  = (λ u, Unit_new (id u) (startPos u) (targetPos u)) <$> mapUnits
  ∧ (∀ v, getUnitPriority pf' v = 0)
  ∧ occupiedPositionsAtTime pf' = ∅
  ∧ battleMap pf' = battleMap (loadMapFromGrid pf g).2.
Proof.
  intros Hnd. unfold loadMapWithUnits.
  destruct (loadMapFromGrid pf g) as [ok pf1]. destruct ok; simpl; [|done].
  intros [= <-].
  assert (∀ l pf0, NoDup (id <$> l) →
            (∀ u, u ∈ l → id u ∉ id <$> units pf0) →
            units (foldl addUnit_from pf0 l)
            = units pf0
              ++ ((λ u, Unit_new (id u) (startPos u) (targetPos u)) <$> l)
            ∧ (∀ v, getUnitPriority (foldl addUnit_from pf0 l) v
                    = if bool_decide (v ∈ id <$> l) then 0
                      else getUnitPriority pf0 v)
            ∧ occupiedPositionsAtTime (foldl addUnit_from pf0 l)
              = occupiedPositionsAtTime pf0
            ∧ battleMap (foldl addUnit_from pf0 l) = battleMap pf0) as Hgen.
  { clear. induction l as [|u rest IH]; intros pf0 Hnd Hfresh.
    - simpl. by rewrite app_nil_r.
    - rewrite fmap_cons in Hnd. apply NoDup_cons in Hnd as [Hu Hnd].
      cbn [foldl].
      assert (id u ∉ id <$> units pf0) as Hnew by (apply Hfresh; by left).
      assert (addUnit_from pf0 u
              = set_unitPriorities
                  (set_units pf0
                     (units pf0
                        ++ [Unit_new (id u) (startPos u) (targetPos u)]))
                  (<[id u := 0]> (unitPriorities pf0))) as ->.
      { unfold addUnit_from. by rewrite addUnit_new. }
      destruct (IH (set_unitPriorities
                      (set_units pf0
                         (units pf0
                            ++ [Unit_new (id u) (startPos u) (targetPos u)]))
                      (<[id u := 0]> (unitPriorities pf0))) Hnd)
        as (Hus & Hprio & Hocc & Hmap).
      { intros w Hw. cbn [units set_unitPriorities set_units].
        rewrite fmap_app.
        intros [?|Heq%list_elem_of_singleton]%elem_of_app.
        - apply (Hfresh w); [by right|done].
        - apply Hu. simpl in Heq. rewrite <- Heq.
          apply list_elem_of_fmap. eauto. }
      rewrite Hus, Hocc, Hmap.
      cbn [units set_unitPriorities set_units battleMap
           occupiedPositionsAtTime].
      rewrite <- app_assoc.
      split; [done|]. split; [|done].
      intros v. rewrite Hprio. unfold getUnitPriority.
      cbn [unitPriorities set_unitPriorities]. rewrite fmap_cons.
      destruct (decide (v = id u)) as [->|Hne].
      + rewrite lookup_insert_eq.
        rewrite (bool_decide_eq_true_2 (id u ∈ id u :: _)) by (by left).
        by case_bool_decide.
      + rewrite lookup_insert_ne by done.
        rewrite (bool_decide_ext (v ∈ id u :: (id <$> rest))
                   (v ∈ id <$> rest)); [done|].
        rewrite elem_of_cons. naive_solver. }
  destruct (Hgen mapUnits (clearUnits pf1) Hnd) as (Hus & Hprio & Hocc & Hmap).
  { intros u _. simpl. apply not_elem_of_nil. }
  rewrite Hus, Hocc, Hmap. split; [done|]. split; [|done].
  intros v. rewrite Hprio. by case_bool_decide.
Qed.

Lemma loadMapWithUnits_registers_witness :
  units (loadMapWithUnits MultiUnitPathFinder_new [[0; -1; 8]]
           [mkUnit 1 (0, 0) (2, 0) [(5, 5)] true;
            mkUnit 2 (2, 0) (0, 0) [] false]).2
  = [Unit_new 1 (0, 0) (2, 0); Unit_new 2 (2, 0) (0, 0)].
Proof.
  refine (proj1 (loadMapWithUnits_registers MultiUnitPathFinder_new _
                   [[0; -1; 8]]
                   [mkUnit 1 (0, 0) (2, 0) [(5, 5)] true;
                    mkUnit 2 (2, 0) (0, 0) [] false] _ _)).
  - apply (bool_decide_unpack _). by vm_compute.
  - by vm_compute.
Defined.

(** Property X6.  The units created by [autoSetupUnitsFromMap]: start [i] gets the id
    [i + 1] and is paired with target [i], or with target
    [i % targetCount] when there are fewer targets than starts; a pair with
    a position outside the map is skipped.  Each unit gets the priority
    [width + height] minus the Manhattan distance from its start to its
    target, so a shorter way means a higher priority. *)
Theorem autoSetupUnitsFromMap_units (pf pf' : MultiUnitPathFinder) :
  autoSetupUnitsFromMap pf = (true, pf') →
  let map := battleMap pf in
  let startCount := getStartPositionCount map in
  let targetCount := getTargetPositionCount map in
  let targetIndex (i : Z) :=
    if targetCount <? startCount then i `rem` targetCount else i in
  units pf'
  = omap (λ i : nat,
            let start := getStartPosition map (Z.of_nat i) in
            let target := getTargetPosition map (targetIndex (Z.of_nat i)) in
            if isValidPosition map start.1 start.2
               && isValidPosition map target.1 target.2
            then Some (Unit_new (Z.of_nat i + 1) start target) else None)
      (seq 0 (Z.to_nat startCount))
  ∧ ∀ u, u ∈ units pf' →
      getUnitPriority pf' (id u)
      = width map + height map
        - calculateHeuristic (startPos u) (targetPos u).
Proof.
  unfold autoSetupUnitsFromMap. case_match; [done|]. cbv zeta.
  change (battleMap (clearUnits pf)) with (battleMap pf).
  case_match; [done|]. case_match; [done|]. intros [= <-].
  set (map := battleMap pf).
  set (mpd := width map + height map).
  set (ti1 := if getStartPositionCount map =? getTargetPositionCount map
              then λ i : Z, i
              else if getTargetPositionCount map <? getStartPositionCount map
                   then λ i : Z, i `rem` getTargetPositionCount map
                   else λ i : Z, i).
  set (ti2 := λ i : Z,
         if getTargetPositionCount map <? getStartPositionCount map
         then i `rem` getTargetPositionCount map else i).
  assert (∀ i, ti1 i = ti2 i) as Hti.
  { intros i. unfold ti1, ti2.
    destruct (getStartPositionCount map =? getTargetPositionCount map)
      eqn:Heq.
    - apply Z.eqb_eq in Heq. rewrite Heq, Z.ltb_irrefl. done.
    - by destruct (getTargetPositionCount map <? getStartPositionCount map). }
  set (mk := λ i : nat,
         let start := getStartPosition map (Z.of_nat i) in
         let target := getTargetPosition map (ti2 (Z.of_nat i)) in
         if isValidPosition map start.1 start.2
            && isValidPosition map target.1 target.2
         then Some (Unit_new (Z.of_nat i + 1) start target) else None).
  generalize (Z.to_nat (getStartPositionCount map)). intros n.
  assert (battleMap (foldl (autoSetup_step ti1 mpd) (clearUnits pf) (seq 0 n))
          = map
          ∧ units (foldl (autoSetup_step ti1 mpd) (clearUnits pf) (seq 0 n))
            = omap mk (seq 0 n)
          ∧ ∀ u, u ∈ omap mk (seq 0 n) →
              getUnitPriority
                (foldl (autoSetup_step ti1 mpd) (clearUnits pf) (seq 0 n))
                (id u)
              = mpd - calculateHeuristic (startPos u) (targetPos u))
    as (_ & Hus & Hprio).
  2:{ split; [done|]. intros u Hu. apply Hprio. by rewrite <- Hus. }
  assert (∀ k u, u ∈ omap mk (seq 0 k) → 1 ≤ id u ≤ Z.of_nat k) as Hids.
  { intros k u (i & Hi & Hmk)%list_elem_of_omap.
    apply elem_of_seq in Hi. unfold mk in Hmk. cbv zeta in Hmk.
    case_match; [|done]. injection Hmk as <-. simpl. lia. }
  induction n as [|n (Hmap & Hus & Hprio)].
  { split; [done|]. split; [done|]. by intros u ?%elem_of_nil. }
  rewrite seq_S, foldl_snoc, omap_app. rewrite Nat.add_0_l.
  set (pfn := foldl (autoSetup_step ti1 mpd) (clearUnits pf) (seq 0 n))
    in *.
  unfold autoSetup_step. cbv zeta. rewrite Hmap, Hti.
  cbn [omap list_omap]. unfold mk at 2 4. cbv zeta.
  rewrite <- negb_andb.
  destruct (isValidPosition map (getStartPosition map (Z.of_nat n)).1
              (getStartPosition map (Z.of_nat n)).2
            && isValidPosition map
                 (getTargetPosition map (ti2 (Z.of_nat n))).1
                 (getTargetPosition map (ti2 (Z.of_nat n))).2) eqn:Hvalid;
    cbn [negb].
  - assert (Z.of_nat n + 1 ∉ id <$> units pfn) as Hnew.
    { rewrite Hus. intros (u & Hid & Hu)%list_elem_of_fmap.
      apply Hids in Hu. lia. }
    rewrite addUnit_new by done.
    split; [done|]. split; [simpl; by rewrite Hus|].
    intros u [Hu| ->%list_elem_of_singleton]%elem_of_app;
      unfold getUnitPriority; simpl.
    + rewrite lookup_insert_ne by (apply Hids in Hu; lia).
      rewrite lookup_insert_ne by (apply Hids in Hu; lia).
      by apply Hprio.
    + by rewrite lookup_insert_eq.
  - rewrite app_nil_r. done.
Qed.

Lemma autoSetupUnitsFromMap_units_witness :
  units (autoSetupUnitsFromMap
           (loadMapFromGrid MultiUnitPathFinder_new [[0; -1; 0; 8]]).2).2
  = [Unit_new 1 (0, 0) (3, 0); Unit_new 2 (2, 0) (3, 0)].
Proof.
  refine (proj1 (autoSetupUnitsFromMap_units
                   (loadMapFromGrid MultiUnitPathFinder_new
                      [[0; -1; 0; 8]]).2 _ _)).
  by vm_compute.
Defined.

(** *** Move orders *)

Lemma valid_order_scan_directions cs hasRight hasDown hasLeft hasUp :
  valid_order_scan cs hasRight hasDown hasLeft hasUp = true →
  omap direction_of cs ≡ₚ directions_missing hasRight hasDown hasLeft hasUp.
Proof.
  revert hasRight hasDown hasLeft hasUp.
  induction cs as [|c cs IH]; intros r d l u; simpl.
  - by destruct r, d, l, u.
  - unfold direction_of.
    destruct r, d, l, u; repeat case_bool_decide; try done;
      intros Hscan%IH; rewrite Hscan; unfold directions_missing;
      simpl; try done; solve_Permutation.
Qed.

Lemma isValidMoveOrder_directions moveOrder :
  isValidMoveOrder moveOrder = true →
  omap direction_of (list_ascii_of_string moveOrder)
  ≡ₚ default_moveDirections.
Proof.
  unfold isValidMoveOrder. case_match; [done|].
  apply valid_order_scan_directions.
Qed.

Lemma apply_op_moveDirections pf op :
  moveDirections (apply_op pf op) = moveDirections pf
  ∨ ∃ moveOrder, isValidMoveOrder moveOrder = true
      ∧ moveDirections (apply_op pf op)
        = omap direction_of (list_ascii_of_string moveOrder).
Proof.
  destruct op; simpl; try (by left).
  - left. unfold addUnit. by case_match.
  - left. unfold addUnit_from, addUnit. by case_match.
  - unfold setMoveOrder.
    destruct (isValidMoveOrder moveOrder) eqn:Hvalid; simpl; [|by left].
    right. eauto.
  - left. unfold loadMapFromGrid. by repeat case_match.
  - left. unfold loadMapWithUnits.
    assert (moveDirections (loadMapFromGrid pf g).2 = moveDirections pf) as Hd.
    { unfold loadMapFromGrid. by repeat case_match. }
    destruct (loadMapFromGrid pf g) as [[] pf']; simpl in *; [|by rewrite Hd].
    assert (∀ p, moveDirections p = moveDirections pf →
              moveDirections (foldl addUnit_from p mapUnits)
              = moveDirections pf) as Hfold.
    { induction mapUnits as [|u us IH]; intros p Hp; simpl; [done|].
      apply IH. unfold addUnit_from, addUnit. by case_match. }
    by rewrite Hfold.
  - left. unfold autoSetupUnitsFromMap.
    destruct (isMapLoaded pf); simpl; [|done].
    set (f := if _ =? _ then _ else _). clearbody f.
    assert (∀ d l p, moveDirections p = moveDirections pf →
              moveDirections (foldl (autoSetup_step f d) p l)
              = moveDirections pf) as Hfold.
    { intros d l. induction l as [|i l IH]; intros p Hp; simpl; [done|].
      apply IH. unfold autoSetup_step. case_match; [done|].
      simpl. unfold addUnit. by case_match. }
    repeat case_match; simpl; try done; by rewrite Hfold.
  - left. by destruct (findPathsForAllUnits_frame std_sort shuffle pf)
      as (_ & -> & _).
Qed.

(** Property X7.  Whatever calls are made on an object, its [moveDirections] hold the
    four directions right, down, left and up, each exactly once: a search
    tries every orthogonal neighbour once, only the order varies. *)
Theorem moveDirections_four_directions (moveOrder : option string)
    (ops : list Operation) :
  moveDirections (foldl apply_op (construct moveOrder) ops)
  ≡ₚ default_moveDirections.
Proof.
  induction ops as [|op ops IH] using rev_ind.
  - destruct moveOrder as [o|]; simpl; [|done].
    unfold MultiUnitPathFinder_with_order, setMoveOrder.
    destruct (isValidMoveOrder o) eqn:Hvalid; simpl; [|done].
    by apply isValidMoveOrder_directions.
  - rewrite foldl_snoc.
    destruct (apply_op_moveDirections
                (foldl apply_op (construct moveOrder) ops) op)
      as [->|(o & Hvalid & ->)]; [done|].
    by apply isValidMoveOrder_directions.
Qed.

(** *** Loading a map *)






Lemma length_join_uniform (g : list (list Z)) (w : nat) :
  Forall (λ row, length row = w) g →
  length (mjoin g) = (length g * w)%nat.
Proof.
  induction 1 as [|row g Hrow _ IH]; [done|].
  simpl. rewrite length_app, IH. lia.
Qed.

Lemma lookup_join_uniform (g : list (list Z)) (w y x : nat) :
  Forall (λ row, length row = w) g → (x < w)%nat →
  mjoin g !! (y * w + x)%nat = g !! y ≫= λ row, row !! x.
Proof.
  intros Hg Hx. revert y. induction Hg as [|row g Hrow _ IH]; intros y.
  - by rewrite !lookup_nil.
  - destruct y as [|y]; simpl.
    + rewrite lookup_app_l by lia. done.
    + rewrite lookup_app_r by lia. rewrite <- IH. f_equal. lia.
Qed.

Lemma int_wrap_small (z : Z) : - 2 ^ 31 ≤ z ≤ INT_MAX → int_wrap z = z.
Proof.
  unfold INT_MAX, int_wrap. intros Hz. rewrite Z.mod_small; lia.
Qed.

(** Property X9.  A rectangular grid with at most [INT_MAX] cells,
    flattened row by row and given to [loadMapFromData] with its
    dimensions, is loaded exactly as [loadMapFromGrid] loads the grid
    itself.  The bound is that of the [int] product of the size test. *)
Theorem loadMapFromData_of_grid (pf : MultiUnitPathFinder)
    (g : list (list Z)) (w : nat) :
  Forall (λ row, length row = w) g →
  Z.of_nat w ≤ INT_MAX → Z.of_nat (length g) ≤ INT_MAX →
  Z.of_nat (length g * w) ≤ INT_MAX →
  loadMapFromData pf (mjoin g) (Z.of_nat w) (Z.of_nat (length g))
  = Some (loadMapFromGrid pf g).
Proof.
  intros Hg Hw Hh Hsize. unfold loadMapFromData. cbv zeta.
  rewrite (length_join_uniform g w Hg).
  assert (Z.of_nat w * Z.of_nat (length g) = Z.of_nat (length g * w))
    as Hprod by lia.
  rewrite Hprod, int_wrap_small by (unfold INT_MAX in *; lia).
  unfold INT_MAX in *.
  rewrite Z.mod_small by lia.
  rewrite !Z.eqb_refl. cbn [negb].
  rewrite (proj2 (Z.ltb_ge _ 0)), (proj2 (Z.ltb_ge _ 0)) by lia.
  cbn [orb]. do 2 f_equal. rewrite !Nat2Z.id.
  apply list_eq. intros y. rewrite list_lookup_fmap.
  destruct (g !! y) as [row|] eqn:Hrow.
  - rewrite lookup_seq_lt by (by eapply lookup_lt_Some). simpl. f_equal.
    assert (length row = w) as Hlen by (by eapply Forall_lookup_1 in Hg).
    apply list_eq. intros x. rewrite list_lookup_fmap.
    destruct (decide (x < w)%nat) as [Hx|Hx].
    + rewrite lookup_seq_lt by done. simpl.
      replace (Z.to_nat (Z.of_nat y * Z.of_nat w + Z.of_nat x))
        with (y * w + x)%nat by lia.
      rewrite (lookup_join_uniform g w y x Hg Hx), Hrow. simpl.
      destruct (lookup_lt_is_Some_2 row x) as [c Hc]; [lia|].
      by rewrite Hc.
    + rewrite lookup_seq_ge by lia. simpl.
      symmetry. apply lookup_ge_None. lia.
  - apply lookup_ge_None in Hrow. by rewrite lookup_seq_ge by lia.
Qed.

Lemma loadMapFromData_of_grid_witness :
  loadMapFromData MultiUnitPathFinder_new [0; -1; 8; 3; 0; 8] 3 2
  = Some (loadMapFromGrid MultiUnitPathFinder_new [[0; -1; 8]; [3; 0; 8]]).
Proof.
  refine (loadMapFromData_of_grid MultiUnitPathFinder_new
            [[0; -1; 8]; [3; 0; 8]] 3 _ _ _ _).
  - repeat constructor.
  - by vm_compute.
  - by vm_compute.
  - by vm_compute.
Defined.

(** Beyond that bound the size test fails: data of the right length for
    dimensions whose product exceeds [INT_MAX] is refused and the object is
    left as it was. *)
Lemma loadMapFromData_too_large (pf : MultiUnitPathFinder) (data : list Z)
    (width height : Z) :
  0 ≤ width ≤ INT_MAX → 0 ≤ height ≤ INT_MAX →
  INT_MAX < width * height →
  Z.of_nat (length data) = width * height →
  loadMapFromData pf data width height = Some (false, pf).
Proof.
  unfold INT_MAX. intros Hw Hh Hbig Hlen. unfold loadMapFromData. cbv zeta.
  rewrite Hlen.
  assert (width * height ≤ (2 ^ 31 - 1) * (2 ^ 31 - 1)) as Hmax
    by (apply Z.mul_le_mono_nonneg; lia).
  assert (int_wrap (width * height) `mod` 2 ^ 64 ≠ width * height) as Hne.
  { unfold int_wrap.
    pose proof (Z.mod_pos_bound (width * height + 2 ^ 31) (2 ^ 32)) as Hmod.
    set (r := (width * height + 2 ^ 31) `mod` 2 ^ 32) in *.
    destruct (decide (2 ^ 31 ≤ r)) as [Hpos|Hneg].
    - rewrite Z.mod_small by lia. lia.
    - replace (r - 2 ^ 31) with ((r - 2 ^ 31 + 2 ^ 64) + (-1) * 2 ^ 64)
        by lia.
      rewrite Z.mod_add by lia. rewrite Z.mod_small by lia. lia. }
  by rewrite (proj2 (Z.eqb_neq _ _)) by lia.
Qed.

(** *** Checking a path *)

Lemma validatePath_loop_spec (map : BattleMap) (prev : option Position)
    (path : list Position) :
  validatePath_loop map prev path = true ↔
  Forall (λ c, isReachable map c.1 c.2 = true) path
  ∧ ∀ (i : nat) (c c' : Position),
      (option_list prev ++ path) !! i = Some c →
      (option_list prev ++ path) !! S i = Some c' → adjacent c c'.
Proof.
  revert prev. induction path as [|pos rest IH]; intros prev.
  - simpl. split; [|done]. intros _. split; [done|].
    intros i c c' Hi Hi'. apply lookup_lt_Some in Hi'.
    rewrite app_nil_r in Hi'. destruct prev; simpl in Hi'; lia.
  - cbn [validatePath_loop].
    destruct (isReachable map pos.1 pos.2) eqn:Hreach; cbn [negb].
    2:{ split; [done|]. intros [Hall _].
        apply Forall_cons in Hall as [? _]. congruence. }
    destruct prev as [prev|]; cbn [option_list app].
    + destruct (Z.abs (pos.1 - prev.1) + Z.abs (pos.2 - prev.2) =? 1)
        eqn:Hstep; cbn [negb].
      * apply Z.eqb_eq in Hstep. rewrite IH. cbn [option_list app].
        split.
        -- intros [Hall Hadj]. split; [by constructor|].
           intros [|i] c c' Hi Hi'; simpl in Hi, Hi'.
           ++ by simplify_eq.
           ++ by eapply Hadj.
        -- intros [Hall Hadj]. apply Forall_cons in Hall as [_ Hall].
           split; [done|]. intros i c c' Hi Hi'.
           by apply (Hadj (S i)).
      * apply Z.eqb_neq in Hstep. split; [done|]. intros [_ Hadj].
        exfalso. apply Hstep. by apply (Hadj 0%nat).
    + rewrite IH. cbn [option_list app]. split.
      * intros [Hall Hadj]. split; [by constructor|done].
      * intros [Hall Hadj]. apply Forall_cons in Hall as [_ Hall]. done.
Qed.

Lemma validatePath_true (path : list Position) (map : BattleMap) :
  validatePath path map = true ↔
  path ≠ []
  ∧ Forall (λ c, isReachable map c.1 c.2 = true) path
  ∧ ∀ (i : nat) (c c' : Position),
      path !! i = Some c → path !! S i = Some c' → adjacent c c'.
Proof.
  unfold validatePath. case_bool_decide as Hnil.
  - split; [done|]. by intros [? _].
  - rewrite validatePath_loop_spec. simpl. naive_solver.
Qed.

(** Property X10.  [validatePath] accepts exactly the non-empty paths whose cells are all
    reachable on the map and whose consecutive cells are one orthogonal
    step apart; a path that stays on a cell for a step is rejected. *)
Theorem validatePath_spec (path : list Position) (map : BattleMap) :
  validatePath path map = true ↔
  path ≠ []
  ∧ Forall (λ c, isReachable map c.1 c.2 = true) path
  ∧ ∀ (i : nat) (c c' : Position),
      path !! i = Some c → path !! S i = Some c' → adjacent c c'.
Proof. apply validatePath_true. Qed.

(** *** The paths of the single-unit A* search *)

Lemma node_chain_nonempty (n : Node) : node_chain n ≠ [].
Proof. by destruct n. Qed.

Lemma linked_node_path pf start n :
  linked_node pf start n →
  head (reconstructPath n) = Some start
  ∧ last (reconstructPath n) = Some (n_pos n)
  ∧ walkable pf (reconstructPath n).
Proof.
  unfold reconstructPath.
  induction 1 as [g h|m p g h Hm (Hhead & Hlast & Hwalk) Hp].
  - simpl. repeat split. intros [|i] c c' Hi Hi'; done.
  - cbn [Node_new node_chain n_pos]. rewrite reverse_cons.
    set (q := reverse (node_chain m)) in *.
    assert (q ≠ []) as Hne.
    { unfold q. intros Hq. apply (node_chain_nonempty m).
      by rewrite <- (reverse_involutive (node_chain m)), Hq. }
    repeat split.
    + by destruct q.
    + by rewrite last_snoc.
    + intros i c c' Hi Hi'.
      destruct (decide (S i < length q)%nat) as [Hlt|Hge].
      * rewrite lookup_app_l in Hi by lia.
        rewrite lookup_app_l in Hi' by lia. by eapply Hwalk.
      * assert (S i = length q) as Hi_eq.
        { apply lookup_lt_Some in Hi'. rewrite length_app in Hi'.
          simpl in Hi'. lia. }
        rewrite lookup_app_l in Hi by lia.
        rewrite lookup_app_r in Hi' by lia.
        rewrite Hi_eq, Nat.sub_diag in Hi'. simpl in Hi'. injection Hi' as <-.
        assert (c = n_pos m) as ->; [|done].
        rewrite last_lookup in Hlast.
        replace (pred (length q)) with i in Hlast by lia. congruence.
Qed.

Lemma astar_visit_linked pf start target current st neighbor :
  linked_node pf start current →
  neighbor ∈ getNeighbors pf (n_pos current) →
  Forall (linked_node pf start) (a_openSet st) →
  Forall (linked_node pf start)
    (a_openSet (astar_visit target current st neighbor)).
Proof.
  intros Hcur Hn Hopen. unfold astar_visit.
  repeat case_bool_decide; try done. cbn [a_openSet].
  rewrite pq_push_Permutation. constructor; [|done].
  by apply linked_step.
Qed.

Lemma foldl_astar_visit_linked pf start target current st neighbors :
  linked_node pf start current →
  neighbors ⊆ getNeighbors pf (n_pos current) →
  Forall (linked_node pf start) (a_openSet st) →
  Forall (linked_node pf start)
    (a_openSet (foldl (astar_visit target current) st neighbors)).
Proof.
  intros Hcur. revert st.
  induction neighbors as [|n ns IH]; intros st Hsub Hopen; [done|].
  simpl. apply IH; [set_solver|].
  apply astar_visit_linked; [done|set_solver|done].
Qed.

Lemma astar_loop_linked pf start target fuel st p :
  Forall (linked_node pf start) (a_openSet st) →
  astar_loop pf target fuel st = Some p → p ≠ [] →
  ∃ node, linked_node pf start node ∧ n_pos node = target
          ∧ p = reconstructPath node.
Proof.
  revert st. induction fuel as [|fuel IH]; intros st Hopen; simpl.
  - destruct (StdHeap.pq_top (a_openSet st)); [done|]. by intros [= <-].
  - destruct (StdHeap.pq_top (a_openSet st)) as [current|] eqn:Htop;
      [|by intros [= <-]].
    pose proof (pq_pop_Permutation NodeComparator _ _ Htop) as Hperm.
    rewrite Hperm in Hopen. apply Forall_cons in Hopen as [Hcur Hrest].
    case_bool_decide as Hgoal.
    + intros [= <-] _. eauto.
    + apply IH. by apply foldl_astar_visit_linked.
Qed.

Lemma findPathAStar_linked pf start target :
  findPathAStar pf start target ≠ [] →
  ∃ node, linked_node pf start node ∧ n_pos node = target
          ∧ findPathAStar pf start target = reconstructPath node.
Proof.
  unfold findPathAStar. case_match; [done|].
  destruct (astar_loop pf target (findPathAStar_fuel pf) _) as [p|] eqn:Hloop;
    [|done].
  simpl. intros Hne. eapply astar_loop_linked; [|done..].
  cbn [a_openSet]. rewrite pq_push_Permutation. repeat constructor.
Qed.

(** Property X11.  A path returned by the single-unit A* search starts at the start cell,
    ends at the target, and each of its cells is a neighbour, as
    [getNeighbors] gives them, of the cell before. *)
Theorem findPathAStar_path (pf : MultiUnitPathFinder)
    (start target : Position) :
  findPathAStar pf start target ≠ [] →
  head (findPathAStar pf start target) = Some start
  ∧ last (findPathAStar pf start target) = Some target
  ∧ walkable pf (findPathAStar pf start target).
Proof.
  intros (node & Hnode & Hpos & ->)%findPathAStar_linked.
  rewrite <- Hpos. by apply linked_node_path.
Qed.

Lemma findPathAStar_path_witness :
  head (findPathAStar corridor (0, 0) (2, 0)) = Some (0, 0).
Proof.
  refine (proj1 (findPathAStar_path corridor (0, 0) (2, 0) _)).
  by vm_compute.
Defined.

Lemma getNeighbors_step pf c c' :
  Forall orthogonal_step (moveDirections pf) →
  c' ∈ getNeighbors pf c →
  adjacent c c' ∧ isReachable (battleMap pf) c'.1 c'.2 = true.
Proof.
  intros Hdirs (dir & Hdir & Hc)%list_elem_of_omap. cbv zeta in Hc.
  destruct (isReachable (battleMap pf) (c.1 + dir.1) (c.2 + dir.2))
    eqn:Hreach; [|done].
  injection Hc as <-. split; [|done].
  rewrite Forall_forall in Hdirs. specialize (Hdirs dir Hdir).
  unfold adjacent. simpl.
  destruct Hdirs as [-> | [-> | [-> | ->]]]; simpl; lia.
Qed.

Lemma walkable_reachable pf start p :
  Forall orthogonal_step (moveDirections pf) →
  isReachable (battleMap pf) start.1 start.2 = true →
  head p = Some start → walkable pf p →
  Forall (λ c, isReachable (battleMap pf) c.1 c.2 = true) p.
Proof.
  intros Hdirs Hstart Hhead Hwalk. apply Forall_lookup. intros i.
  induction i as [|i IH]; intros c Hc.
  - rewrite <- head_lookup, Hhead in Hc. by injection Hc as <-.
  - destruct (lookup_lt_is_Some_2 p i) as [b Hb].
    { apply lookup_lt_Some in Hc. lia. }
    by destruct (getNeighbors_step pf b c Hdirs (Hwalk i b c Hb Hc)).
Qed.

(** Property X12.  [validatePath] accepts every path that the single-unit A* search
    returns from a reachable start cell. *)
Theorem findPathAStar_validates (pf : MultiUnitPathFinder)
    (start target : Position) :
  Forall orthogonal_step (moveDirections pf) →
  isReachable (battleMap pf) start.1 start.2 = true →
  findPathAStar pf start target ≠ [] →
  validatePath (findPathAStar pf start target) (battleMap pf) = true.
Proof.
  intros Hdirs Hstart Hne.
  destruct (findPathAStar_linked pf start target Hne)
    as (node & Hnode & Hpos & Hpath).
  destruct (linked_node_path pf start node Hnode) as (Hhead & _ & Hwalk).
  rewrite <- Hpath in Hhead, Hwalk.
  apply validatePath_true. split; [done|]. split.
  - by eapply walkable_reachable.
  - intros i c c' Hc Hc'.
    by destruct (getNeighbors_step pf c c' Hdirs (Hwalk i c c' Hc Hc')).
Qed.

Lemma findPathAStar_validates_witness :
  validatePath (findPathAStar corridor (0, 0) (2, 0)) (battleMap corridor)
  = true.
Proof.
  apply (findPathAStar_validates corridor (0, 0) (2, 0)).
  - apply (moveDirections_orthogonal None
             [OpLoadMapFromGrid [[0; -1; 8]];
              OpAddUnit 1 (0, 0) (2, 0); OpAddUnit 2 (2, 0) (0, 0)]).
  - by vm_compute.
  - by vm_compute.
Defined.

(** *** The paths of the temporal search against the checks *)

Lemma temporal_path_facts pf start target :
  Forall orthogonal_step (moveDirections pf) →
  findPathAStarWithOccupiedCheck pf start target ≠ [] →
  let p := findPathAStarWithOccupiedCheck pf start target in
  head p = Some start ∧ last p = Some target ∧ valid_steps pf p
  ∧ isReachable (battleMap pf) start.1 start.2 = true
  ∧ isValidPosition (battleMap pf) start.1 start.2 = true.
Proof.
  intros Hdirs Hne.
  destruct (findPathAStarWithOccupiedCheck_valid pf start target Hdirs Hne)
    as (Hhead & Hlast & Hsteps).
  cbv zeta. repeat split; try done;
    unfold findPathAStarWithOccupiedCheck in Hne;
    destruct (search_precheck pf start target) eqn:Hpre; try done;
    unfold search_precheck in Hpre;
    repeat (apply andb_prop in Hpre as [Hpre ?]); done.
Qed.

Lemma valid_steps_cells pf start p :
  isReachable (battleMap pf) start.1 start.2 = true →
  isValidPosition (battleMap pf) start.1 start.2 = true →
  head p = Some start → valid_steps pf p →
  Forall (λ c, isReachable (battleMap pf) c.1 c.2 = true
               ∧ isValidPosition (battleMap pf) c.1 c.2 = true) p.
Proof.
  intros Hreach Hvalid Hhead Hsteps. apply Forall_lookup. intros i.
  induction i as [|i IH]; intros c Hc.
  - rewrite <- head_lookup, Hhead in Hc. by injection Hc as <-.
  - destruct (lookup_lt_is_Some_2 p i) as [b Hb].
    { apply lookup_lt_Some in Hc. lia. }
    destruct (Hsteps i b c Hb Hc) as [(_ & ? & ? & _)|[-> _]]; [done|].
    by apply IH.
Qed.

(** Property X13.  [validatePath] accepts a path of the temporal search exactly when the
    path holds no wait: a path on which the unit stays on a cell for a step
    is a valid plan for the occupancy table and yet rejected by
    [validatePath]. *)
Theorem temporal_path_validates_iff_no_wait (pf : MultiUnitPathFinder)
    (start target : Position) :
  Forall orthogonal_step (moveDirections pf) →
  findPathAStarWithOccupiedCheck pf start target ≠ [] →
  let p := findPathAStarWithOccupiedCheck pf start target in
  validatePath p (battleMap pf) = true ↔
  ∀ (i : nat) (c : Position), p !! i = Some c → p !! S i ≠ Some c.
Proof.
  intros Hdirs Hne.
  destruct (temporal_path_facts pf start target Hdirs Hne)
    as (Hhead & _ & Hsteps & Hreach & Hvalid).
  cbv zeta. set (p := findPathAStarWithOccupiedCheck pf start target) in *.
  rewrite validatePath_true. split.
  - intros (_ & _ & Hadj) i c Hc Hc'.
    specialize (Hadj i c c Hc Hc'). unfold adjacent in Hadj. lia.
  - intros Hnowait. split; [done|]. split.
    + eapply Forall_impl; [by eapply valid_steps_cells|]. by intros c [? _].
    + intros i c c' Hc Hc'.
      destruct (Hsteps i c c' Hc Hc') as [(? & _)|[-> _]]; [done|].
      by destruct (Hnowait i c Hc).
Qed.

Lemma temporal_path_validates_iff_no_wait_witness :
  validatePath (findPathAStarWithOccupiedCheck corridor (0, 0) (2, 0))
    (battleMap corridor) = true ↔
  ∀ (i : nat) (c : Position),
    findPathAStarWithOccupiedCheck corridor (0, 0) (2, 0) !! i = Some c →
    findPathAStarWithOccupiedCheck corridor (0, 0) (2, 0) !! S i ≠ Some c.
Proof.
  apply (temporal_path_validates_iff_no_wait corridor (0, 0) (2, 0)).
  - apply (moveDirections_orthogonal None
             [OpLoadMapFromGrid [[0; -1; 8]];
              OpAddUnit 1 (0, 0) (2, 0); OpAddUnit 2 (2, 0) (0, 0)]).
  - by vm_compute.
Defined.

Lemma existsb_imap_false {A : Type} (f : nat → A → bool) (g : nat → nat)
    (l : list A) :
  existsb (λ ip : nat * A, f ip.1 ip.2) (imap (λ i p, (g i, p)) l) = false ↔
  ∀ i p, l !! i = Some p → f (g i) p = false.
Proof.
  revert g. induction l as [|x l IH]; intros g.
  - simpl. split; [|done]. by intros _ i p ?.
  - cbn [imap existsb]. rewrite orb_false_iff.
    specialize (IH (g ∘ S)).
    change (imap ((λ i p, (g i, p)) ∘ S) l)
      with (imap (λ i p, ((g ∘ S) i, p)) l).
    rewrite IH. split.
    + intros [Hx Hl] [|i] p Hp; simpl in Hp; [by simplify_eq|by apply Hl].
    + intros Hall. split; [by apply (Hall 0%nat)|].
      intros i p Hp. by apply (Hall (S i)).
Qed.

(** Property X14.  From the first step on, a path of the temporal search stands on no
    cell at a time for which the occupancy table holds it: the conflict
    test is negative for the path without its first cell, begun at time
    1.  The start cell at time 0 is not tested by the search. *)
Theorem temporal_path_has_no_conflict (pf : MultiUnitPathFinder)
    (start target : Position) :
  Forall orthogonal_step (moveDirections pf) →
  hasTemporalConflict pf
    (drop 1 (findPathAStarWithOccupiedCheck pf start target)) 1 = false.
Proof.
  intros Hdirs.
  destruct (decide (findPathAStarWithOccupiedCheck pf start target = []))
    as [->|Hne]; [done|].
  destruct (temporal_path_facts pf start target Hdirs Hne)
    as (_ & _ & Hsteps & _).
  set (p := findPathAStarWithOccupiedCheck pf start target) in *.
  unfold hasTemporalConflict.
  apply (existsb_imap_false
           (λ i c, is_occupied (occupiedPositionsAtTime pf)
                     (1 + Z.of_nat i) c) (λ i, i)).
  intros i c Hc. rewrite lookup_drop in Hc. simpl in Hc.
  destruct (lookup_lt_is_Some_2 p i) as [b Hb].
  { apply lookup_lt_Some in Hc. lia. }
  replace (1 + Z.of_nat i) with (Z.of_nat i + 1) by lia.
  by destruct (Hsteps i b c Hb Hc) as [(_ & _ & _ & ?)|[-> ?]].
Qed.

Lemma temporal_path_has_no_conflict_witness :
  hasTemporalConflict corridor
    (drop 1 (findPathAStarWithOccupiedCheck corridor (0, 0) (2, 0))) 1
  = false.
Proof.
  apply (temporal_path_has_no_conflict corridor (0, 0) (2, 0)).
  apply (moveDirections_orthogonal None
           [OpLoadMapFromGrid [[0; -1; 8]];
            OpAddUnit 1 (0, 0) (2, 0); OpAddUnit 2 (2, 0) (0, 0)]).
Defined.

(** *** The length of a path *)

Lemma calculatePathLength_length (path : list Position) :
  calculatePathLength path = Z.of_nat (length path - 1).
Proof.
  unfold calculatePathLength.
  destruct (length path <=? 1)%nat eqn:Hshort.
  - apply Nat.leb_le in Hshort. lia.
  - rewrite <- length_drop.
    assert (∀ (l : list Position) z,
              foldl (λ length _, length + 1) z l = z + Z.of_nat (length l))
      as Hfold.
    { induction l as [|x l IH]; intros z; simpl; [lia|]. rewrite IH. lia. }
    by rewrite Hfold.
Qed.

Lemma steps_distance (p : list Position) (start target : Position) :
  head p = Some start → last p = Some target →
  (∀ (i : nat) (c c' : Position),
     p !! i = Some c → p !! S i = Some c' → calculateHeuristic c c' ≤ 1) →
  calculateHeuristic start target ≤ Z.of_nat (length p - 1).
Proof.
  revert start. induction p as [|c p IH]; intros start Hhead Hlast Hstep;
    [done|].
  injection Hhead as ->. destruct p as [|c' p].
  - injection Hlast as ->. unfold calculateHeuristic. simpl. lia.
  - specialize (IH c' eq_refl Hlast (λ i, Hstep (S i))).
    specialize (Hstep 0%nat start c' eq_refl eq_refl).
    unfold calculateHeuristic in *. simpl length in *. lia.
Qed.

(** Property X15.  The length that [calculatePathLength] gives for a path returned by
    either A* search is at least the Manhattan distance from the start to
    the target. *)
Theorem path_length_at_least_distance (pf : MultiUnitPathFinder)
    (start target : Position) :
  Forall orthogonal_step (moveDirections pf) →
  (findPathAStar pf start target ≠ [] →
   calculateHeuristic start target
   ≤ calculatePathLength (findPathAStar pf start target))
  ∧ (findPathAStarWithOccupiedCheck pf start target ≠ [] →
     calculateHeuristic start target
     ≤ calculatePathLength (findPathAStarWithOccupiedCheck pf start target)).
Proof.
  intros Hdirs. split; intros Hne; rewrite calculatePathLength_length.
  - destruct (findPathAStar_linked pf start target Hne)
      as (node & Hnode & Hpos & Hpath).
    destruct (linked_node_path pf start node Hnode) as (Hhead & Hlast & Hwalk).
    rewrite <- Hpath in Hhead, Hlast, Hwalk. rewrite Hpos in Hlast.
    apply steps_distance; [done..|]. intros i c c' Hc Hc'.
    destruct (getNeighbors_step pf c c' Hdirs (Hwalk i c c' Hc Hc'))
      as [Hadj _].
    unfold adjacent in Hadj. unfold calculateHeuristic. lia.
  - destruct (temporal_path_facts pf start target Hdirs Hne)
      as (Hhead & Hlast & Hsteps & _).
    apply steps_distance; [done..|]. intros i c c' Hc Hc'.
    unfold calculateHeuristic.
    destruct (Hsteps i c c' Hc Hc') as [(Hadj & _)|[-> _]].
    + unfold adjacent in Hadj. lia.
    + lia.
Qed.

Lemma path_length_at_least_distance_witness :
  calculateHeuristic (0, 0) (2, 0)
  ≤ calculatePathLength (findPathAStar corridor (0, 0) (2, 0)).
Proof.
  refine (proj1 (path_length_at_least_distance corridor (0, 0) (2, 0) _) _).
  - apply (moveDirections_orthogonal None
             [OpLoadMapFromGrid [[0; -1; 8]];
              OpAddUnit 1 (0, 0) (2, 0); OpAddUnit 2 (2, 0) (0, 0)]).
  - by vm_compute.
Defined.

(** *** The single-unit A* search finds a path when there is one *)

Lemma reconstructPath_nonempty (n : Node) : reconstructPath n ≠ [].
Proof.
  unfold reconstructPath. intros Hnil. apply (node_chain_nonempty n).
  by rewrite <- (reverse_involutive (node_chain n)), Hnil.
Qed.

(** A set of cells that holds the start, is closed under [getNeighbors]
    and lacks the target: no walk leads from the start to the target. *)
Lemma closed_region_blocks (pf : MultiUnitPathFinder)
    (start target : Position) (region : gset Position)
    (p : list Position) :
  start ∈ region → target ∉ region →
  (∀ c c', c ∈ region → c' ∈ getNeighbors pf c → c' ∈ region) →
  head p = Some start → last p = Some target → walkable pf p → False.
Proof.
  intros Hstart Htarget Hclosed Hhead Hlast Hwalk.
  assert (∀ i c, p !! i = Some c → c ∈ region) as Hall.
  { induction i as [|i IH]; intros c Hc.
    - rewrite <- head_lookup, Hhead in Hc. by injection Hc as <-.
    - destruct (lookup_lt_is_Some_2 p i) as [b Hb].
      { apply lookup_lt_Some in Hc. lia. }
      eapply Hclosed; [by apply (IH b)|by eapply Hwalk]. }
  rewrite last_lookup in Hlast. by apply Htarget, (Hall _ _ Hlast).
Qed.

Lemma astar_visit_open target current st neighbor :
  a_closedSet (astar_visit target current st neighbor) = a_closedSet st
  ∧ a_openSetPositions st
    ⊆ a_openSetPositions (astar_visit target current st neighbor)
  ∧ neighbor ∈ a_closedSet st
               ∪ a_openSetPositions (astar_visit target current st neighbor).
Proof.
  unfold astar_visit. case_bool_decide as Hclosed; [set_solver|].
  case_bool_decide as Hopen; simpl; [set_solver|].
  split; [done|]. split; [done|].
  by apply elem_of_union_r.
Qed.

Lemma foldl_astar_visit_open target current st neighbors :
  a_closedSet (foldl (astar_visit target current) st neighbors)
  = a_closedSet st
  ∧ a_openSetPositions st
    ⊆ a_openSetPositions (foldl (astar_visit target current) st neighbors)
  ∧ ∀ n, n ∈ neighbors →
      n ∈ a_closedSet st
          ∪ a_openSetPositions
              (foldl (astar_visit target current) st neighbors).
Proof.
  revert st. induction neighbors as [|n ns IH]; intros st.
  - simpl. split; [done|]. split; [done|]. by intros n ?%elem_of_nil.
  - cbn [foldl].
    destruct (astar_visit_open target current st n) as (Hc & Ho & Hn).
    destruct (IH (astar_visit target current st n)) as (Hc' & Ho' & Hns).
    rewrite Hc in Hc', Hns. split; [done|]. split; [set_solver|].
    intros m [->|Hm]%elem_of_cons; [set_solver|by apply Hns].
Qed.

Lemma astar_loop_blocked pf start target fuel st :
  astar_invariant pf start st →
  frontier_invariant pf start target (a_closedSet st)
    (a_openSetPositions st) →
  astar_loop pf target fuel st = Some [] →
  ∃ region : gset Position,
    start ∈ region ∧ (target ∉ region)
    ∧ ∀ c c', c ∈ region → c' ∈ getNeighbors pf c → c' ∈ region.
Proof.
  revert st. induction fuel as [|fuel IH]; intros st Hinv Hfr.
  - simpl. destruct (StdHeap.pq_top (a_openSet st)) as [current|] eqn:Htop;
      [done|]. intros _.
    assert (a_openSetPositions st = ∅) as Hopen.
    { apply set_eq. intros p. rewrite (inv_open _ _ _ Hinv).
      unfold StdHeap.pq_top in Htop.
      destruct (a_openSet st); [set_solver|done]. }
    destruct Hfr as [Hs Hc]. rewrite Hopen, union_empty_r_L in Hs, Hc.
    exists (a_closedSet st). split; [done|]. split.
    + intros Ht. by destruct (Hc target Ht).
    + intros c c' Hcc. by apply Hc.
  - simpl. destruct (StdHeap.pq_top (a_openSet st)) as [current|] eqn:Htop.
    2:{ intros _.
        assert (a_openSetPositions st = ∅) as Hopen.
        { apply set_eq. intros p. rewrite (inv_open _ _ _ Hinv).
          unfold StdHeap.pq_top in Htop.
          destruct (a_openSet st); [set_solver|done]. }
        destruct Hfr as [Hs Hc]. rewrite Hopen, union_empty_r_L in Hs, Hc.
        exists (a_closedSet st). split; [done|]. split.
        + intros Ht. by destruct (Hc target Ht).
        + intros c c' Hcc. by apply Hc. }
    case_bool_decide as Hgoal.
    { intros [= Hnil]. by apply reconstructPath_nonempty in Hnil. }
    destruct Hinv as [Hnd Hopen Hdisj Hspace].
    pose proof (pq_pop_Permutation NodeComparator _ _ Htop) as Hperm.
    assert (n_pos <$> a_openSet st
            ≡ₚ n_pos current
                 :: (n_pos <$> StdHeap.pq_pop NodeComparator (a_openSet st)))
      as Hperm' by (by rewrite Hperm at 1).
    rewrite Hperm' in Hnd. apply NoDup_cons in Hnd as [Hfresh Hnd].
    match goal with |- context [foldl _ ?s _] => set (st1 := s) end.
    assert (astar_invariant pf start st1) as Hinv1.
    { split; simpl.
      - done.
      - intros p. rewrite elem_of_difference, elem_of_singleton, Hopen, Hperm'.
        rewrite elem_of_cons. split; [intros [[?|?] ?]; done|].
        intros Hp. split; [by right|]. by intros ->.
      - set_solver.
      - assert (n_pos current ∈ a_openSetPositions st) as Hcur.
        { apply Hopen. rewrite Hperm'. left. }
        set_solver. }
    destruct (foldl_astar_visit_invariant pf start target current st1
                (getNeighbors pf (n_pos current)) Hinv1) as [Hinv2 _].
    { apply Forall_forall. intros p. apply getNeighbors_cells. }
    destruct (foldl_astar_visit_open target current st1
                (getNeighbors pf (n_pos current))) as (Hc2 & Ho2 & Hn2).
    apply IH; [done|].
    destruct Hfr as [Hs Hc]. split.
    + rewrite Hc2. unfold st1 in *. simpl in *.
      destruct (decide (start = n_pos current)) as [->|Hne]; [set_solver|].
      apply elem_of_union in Hs as [Hs|Hs]; [set_solver|].
      apply elem_of_union_r, Ho2. set_solver.
    + rewrite Hc2. unfold st1 in *. simpl in *.
      intros c [->%elem_of_singleton|Hcl]%elem_of_union.
      * split; [done|]. intros c' Hc'. by apply Hn2.
      * destruct (Hc c Hcl) as [Hct Hcn]. split; [done|].
        intros c' Hc'. specialize (Hcn c' Hc').
        destruct (decide (c' = n_pos current)) as [->|Hne]; [set_solver|].
        apply elem_of_union in Hcn as [Hcn|Hcn]; [set_solver|].
        apply elem_of_union_r, Ho2. set_solver.
Qed.

(** Property X16.  The single-unit A* search is complete: when some walk along
    [getNeighbors] leads from the start to the target on a loaded map, the
    search returns a path. *)
Theorem findPathAStar_complete (pf : MultiUnitPathFinder)
    (start target : Position) (p : list Position) :
  isMapLoaded pf = true →
  head p = Some start → last p = Some target → walkable pf p →
  findPathAStar pf start target ≠ [].
Proof.
  intros Hloaded Hhead Hlast Hwalk. unfold findPathAStar.
  rewrite Hloaded. cbn [negb].
  destruct (findPathAStar_fuel_enough pf start target) as [q Hq].
  rewrite Hq. simpl. intros ->.
  apply (astar_loop_blocked pf start) in Hq as (region & Hs & Ht & Hclosed).
  - by eapply closed_region_blocks.
  - split; cbn [a_openSet a_closedSet a_openSetPositions].
    + rewrite pq_push_Permutation. simpl. apply NoDup_singleton.
    + intros c. rewrite pq_push_Permutation. simpl.
      by rewrite elem_of_singleton, list_elem_of_singleton.
    + apply disjoint_empty_r.
    + unfold search_space. rewrite union_empty_r_L. apply union_subseteq_l.
  - split; cbn [a_closedSet a_openSetPositions]; [set_solver|].
    by intros c ?%elem_of_empty.
Qed.

Lemma findPathAStar_complete_witness :
  findPathAStar corridor (0, 0) (2, 0) ≠ [].
Proof.
  apply (findPathAStar_complete corridor (0, 0) (2, 0)
           [(0, 0); (1, 0); (2, 0)]).
  - by vm_compute.
  - done.
  - done.
  - intros [|[|[|i]]] c c' Hc Hc'; simpl in Hc, Hc'; simplify_eq;
      apply (bool_decide_unpack _); by vm_compute.
Defined.

(** *** The breadth-first search *)

Lemma bfs_visit_grows current st neighbor :
  b_visited st ⊆ b_visited (bfs_visit current st neighbor)
  ∧ neighbor ∈ b_visited (bfs_visit current st neighbor)
  ∧ (∀ n, n ∈ b_openQueue st → n ∈ b_openQueue (bfs_visit current st neighbor)).
Proof.
  unfold bfs_visit. case_bool_decide as Hnew; simpl.
  - split; [set_solver|]. split; [set_solver|].
    intros n Hn. apply elem_of_app. by left.
  - done.
Qed.

Lemma foldl_bfs_visit_grows current st neighbors :
  b_visited st ⊆ b_visited (foldl (bfs_visit current) st neighbors)
  ∧ (∀ n, n ∈ neighbors →
       n ∈ b_visited (foldl (bfs_visit current) st neighbors))
  ∧ (∀ n, n ∈ b_openQueue st →
       n ∈ b_openQueue (foldl (bfs_visit current) st neighbors)).
Proof.
  revert st. induction neighbors as [|m ms IH]; intros st.
  - simpl. split; [done|]. split; [|done]. by intros n ?%elem_of_nil.
  - cbn [foldl]. destruct (bfs_visit_grows current st m) as (Hv & Hm & Hq).
    destruct (IH (bfs_visit current st m)) as (Hv' & Hms & Hq').
    split; [set_solver|]. split.
    + intros n [->|Hn]%elem_of_cons; [set_solver|by apply Hms].
    + intros n Hn. by apply Hq', Hq.
Qed.

(** One visit keeps the part of the invariant that does not depend on the
    node being expanded. *)
Lemma bfs_visit_measure pf start current st neighbor :
  linked_node pf start current →
  neighbor ∈ getNeighbors pf (n_pos current) →
  Forall (linked_node pf start) (b_openQueue st) →
  (∀ n, n ∈ b_openQueue st → n_pos n ∈ b_visited st) →
  let st' := bfs_visit current st neighbor in
  Forall (linked_node pf start) (b_openQueue st')
  ∧ (∀ n, n ∈ b_openQueue st' → n_pos n ∈ b_visited st')
  ∧ (length (b_openQueue st')
     + size (search_space pf start ∖ b_visited st')
     ≤ length (b_openQueue st)
       + size (search_space pf start ∖ b_visited st))%nat
  ∧ (∀ c, c ∈ n_pos <$> b_openQueue st' →
       c ∈ n_pos <$> b_openQueue st ∨ c ∉ b_visited st).
Proof.
  intros Hcur Hn Hlinked Hqueued. cbv zeta. unfold bfs_visit.
  case_bool_decide as Hnew; simpl; [|by eauto 10].
  split; [|split; [|split]].
  - apply Forall_app. split; [done|]. constructor; [|constructor].
    by apply linked_step.
  - intros n [Hq| ->%list_elem_of_singleton]%elem_of_app.
    + apply elem_of_union_r. by apply Hqueued.
    + apply elem_of_union_l. by apply elem_of_singleton.
  - rewrite length_app. simpl.
    assert (neighbor ∈ search_space pf start ∖ b_visited st) as Hin.
    { apply elem_of_difference. split; [|done].
      unfold search_space. apply elem_of_union_r.
      by eapply getNeighbors_cells. }
    assert (search_space pf start ∖ ({[neighbor]} ∪ b_visited st)
            ⊂ search_space pf start ∖ b_visited st) as Hsub.
    { split; [set_solver|]. intros Hsub. apply Hsub in Hin. set_solver. }
    apply subset_size in Hsub. lia.
  - intros c. rewrite fmap_app. simpl.
    intros [Hc| ->%list_elem_of_singleton]%elem_of_app; [by left|by right].
Qed.

Lemma foldl_bfs_visit_measure pf start current st neighbors :
  linked_node pf start current →
  neighbors ⊆ getNeighbors pf (n_pos current) →
  Forall (linked_node pf start) (b_openQueue st) →
  (∀ n, n ∈ b_openQueue st → n_pos n ∈ b_visited st) →
  let st' := foldl (bfs_visit current) st neighbors in
  Forall (linked_node pf start) (b_openQueue st')
  ∧ (∀ n, n ∈ b_openQueue st' → n_pos n ∈ b_visited st')
  ∧ (length (b_openQueue st')
     + size (search_space pf start ∖ b_visited st')
     ≤ length (b_openQueue st)
       + size (search_space pf start ∖ b_visited st))%nat
  ∧ (∀ c, c ∈ n_pos <$> b_openQueue st' →
       c ∈ n_pos <$> b_openQueue st ∨ c ∉ b_visited st).
Proof.
  intros Hcur. revert st. cbv zeta.
  induction neighbors as [|m ms IH]; intros st Hsub Hlinked Hqueued.
  - simpl. split; [done|]. split; [done|]. split; [lia|]. by left.
  - cbn [foldl].
    destruct (bfs_visit_measure pf start current st m Hcur)
      as (Hl1 & Hq1 & Hm1 & Hp1); [set_solver|done..|].
    destruct (IH (bfs_visit current st m)) as (Hl2 & Hq2 & Hm2 & Hp2);
      [set_solver|done..|].
    split; [done|]. split; [done|]. split; [lia|].
    intros c Hc. destruct (Hp2 c Hc) as [Hc'|Hc'].
    + by apply Hp1.
    + right. intros Hv. apply Hc'.
      by apply (proj1 (bfs_visit_grows current st m)).
Qed.

Lemma foldl_bfs_visit_queue current st neighbors :
  ∃ new,
    b_openQueue (foldl (bfs_visit current) st neighbors)
    = b_openQueue st ++ new
    ∧ Forall (λ n, node_depth n = S (node_depth current)
                   ∧ n_pos n ∈ neighbors ∧ n_pos n ∉ b_visited st) new.
Proof.
  revert st. induction neighbors as [|m ms IH]; intros st.
  - exists []. simpl. by rewrite app_nil_r.
  - cbn [foldl]. destruct (IH (bfs_visit current st m)) as (new & -> & Hnew).
    pose proof (proj1 (bfs_visit_grows current st m)) as Hgrow.
    assert (Forall (λ n, node_depth n = S (node_depth current)
                         ∧ n_pos n ∈ m :: ms ∧ n_pos n ∉ b_visited st) new)
      as Hnew'.
    { eapply Forall_impl; [exact Hnew|]. intros n (? & ? & ?).
      split; [done|]. split; [by right|]. set_solver. }
    unfold bfs_visit in *. case_bool_decide as Hm; simpl in *.
    + eexists. rewrite <- app_assoc. split; [done|].
      constructor; [|done]. split; [|split; [by left|done]].
      unfold node_depth. simpl.
      by destruct current.
    + eauto.
Qed.

Lemma walk_to_of_path pf start p c :
  head p = Some start → last p = Some c → walkable pf p →
  walk_to pf start c (pred (length p)).
Proof.
  revert c. induction p as [|x p IH] using rev_ind; intros c Hhead Hlast Hwalk;
    [done|].
  rewrite last_snoc in Hlast. injection Hlast as ->.
  rewrite length_app. simpl. rewrite Nat.add_1_r. simpl.
  destruct p as [|y p].
  - simpl in Hhead. injection Hhead as ->. constructor.
  - destruct (last (y :: p)) as [b|] eqn:Hb.
    2:{ by apply last_None in Hb. }
    replace (length (y :: p)) with (S (pred (length (y :: p)))) by done.
    apply (walk_step _ _ b).
    + apply IH; [done..|]. intros i a a' Ha Ha'.
      apply (Hwalk i); apply lookup_app_l_Some; done.
    + rewrite last_lookup in Hb.
      apply (Hwalk (pred (length (y :: p)))).
      * by apply lookup_app_l_Some.
      * rewrite lookup_app_r by (simpl; lia).
        simpl. by rewrite Nat.sub_diag.
Qed.

(** With every queued node at depth [level] or more, a cell that some
    walk reaches in fewer steps has been expanded. *)
Lemma bfs_levels_done (pf : MultiUnitPathFinder) (start target : Position)
    (queue : list Node) (visited : gset Position) (level : nat) :
  start ∈ visited →
  (∀ c : Position, c ∈ visited →
     c ∈ n_pos <$> queue
     ∨ (c ≠ target ∧ ∀ c', c' ∈ getNeighbors pf c → c' ∈ visited)) →
  (∀ n k, n ∈ queue → walk_to pf start (n_pos n) k → (node_depth n ≤ k)%nat) →
  Forall (λ n, (level ≤ node_depth n)%nat) queue →
  ∀ k c, (k < level)%nat → walk_to pf start c k →
    ∀ c', c' ∈ getNeighbors pf c → c' ∈ visited.
Proof.
  intros Hstart Hdone Hopt Hlevel k c Hk Hwalk.
  assert (c ∈ visited →
          ∀ c', c' ∈ getNeighbors pf c → c' ∈ visited) as Hexp.
  { intros Hc. destruct (Hdone c Hc) as [Hq|[_ Hn]]; [|done].
    apply list_elem_of_fmap in Hq as (n & -> & Hn).
    specialize (Hopt n k Hn Hwalk).
    rewrite Forall_forall in Hlevel. specialize (Hlevel n Hn). lia. }
  apply Hexp. clear Hexp. revert Hk.
  induction Hwalk as [|b c k Hwalk IH Hc]; intros Hk; [done|].
  assert (b ∈ visited) as Hb by (apply IH; lia).
  destruct (Hdone b Hb) as [Hq|[_ Hn]]; [|by apply Hn].
  apply list_elem_of_fmap in Hq as (n & -> & Hn).
  specialize (Hopt n k Hn Hwalk).
  rewrite Forall_forall in Hlevel. specialize (Hlevel n Hn). lia.
Qed.

Lemma bfs_loop_invariant pf start target fuel st :
  bfs_invariant pf start target fuel st →
  ∃ p, bfs_loop pf target fuel st = Some p
       ∧ (p ≠ [] →
          ∃ node, linked_node pf start node ∧ n_pos node = target
                  ∧ p = reconstructPath node
                  ∧ ∀ k, walk_to pf start target k → (node_depth node ≤ k)%nat)
       ∧ (p = [] →
          ∃ region : gset Position,
            start ∈ region ∧ (target ∉ region)
            ∧ ∀ c c', c ∈ region → c' ∈ getNeighbors pf c → c' ∈ region).
Proof.
  revert st. induction fuel as [|fuel IH]; intros st Hinv.
  { destruct Hinv as [_ Hfuel _ _ _ _ _]. lia. }
  destruct Hinv as [Hlinked Hfuel Hstart Hqueued Hdone Hlevels Hopt]. simpl.
  destruct (b_openQueue st) as [|current openQueue] eqn:Hqueue.
  - exists []. split; [done|]. split; [done|]. intros _.
    exists (b_visited st). split; [done|]. split.
    + intros Ht. destruct (Hdone target Ht) as [Hq|[? _]]; [|done].
      by apply elem_of_nil in Hq.
    + intros c c' Hc Hc'. destruct (Hdone c Hc) as [Hq|[_ Hn]].
      * by apply elem_of_nil in Hq.
      * by apply Hn.
  - apply Forall_cons in Hlinked as [Hcur Hlinked].
    case_bool_decide as Hgoal.
    { exists (reconstructPath current). split; [done|]. split.
      - intros _. exists current. split; [done|]. split; [done|].
        split; [done|]. intros k Hk. apply Hopt; [by left|].
        by rewrite Hgoal.
      - intros Hnil. by apply reconstructPath_nonempty in Hnil. }
    assert (∃ this next, openQueue = this ++ next
              ∧ Forall (λ n, node_depth n = node_depth current) this
              ∧ Forall (λ n, node_depth n = S (node_depth current)) next)
      as (this & next & Hsplit & Hthis & Hnext).
    { destruct Hlevels as (level & this & next & Heq & Hthis & Hnext).
      destruct this as [|a this].
      - simpl in Heq. subst next.
        apply Forall_cons in Hnext as [Hd Hnext].
        exists openQueue, []. rewrite app_nil_r. split; [done|].
        split; [|done]. eapply Forall_impl; [exact Hnext|].
        intros n Hn. simpl in *. congruence.
      - injection Heq as -> ->.
        apply Forall_cons in Hthis as [Hd Hthis].
        exists this, next. split; [done|]. split.
        + eapply Forall_impl; [exact Hthis|]. intros n Hn. simpl in *.
          congruence.
        + eapply Forall_impl; [exact Hnext|]. intros n Hn. simpl in *.
          congruence. }
    assert (∀ k c, (k < node_depth current)%nat → walk_to pf start c k →
              ∀ c', c' ∈ getNeighbors pf c → c' ∈ b_visited st) as Hexp.
    { apply (bfs_levels_done pf start target (current :: openQueue));
        [done..|].
      constructor; [done|]. rewrite Hsplit. apply Forall_app. split.
      - eapply Forall_impl; [exact Hthis|]. intros n Hn. simpl in *. lia.
      - eapply Forall_impl; [exact Hnext|]. intros n Hn. simpl in *. lia. }
    set (st1 := mkBFS openQueue (b_visited st)).
    destruct (foldl_bfs_visit_measure pf start current st1
                (getNeighbors pf (n_pos current)) Hcur)
      as (Hl2 & Hq2 & Hm2 & Hp2); [done|done| |].
    { intros n Hn. apply Hqueued. by right. }
    destruct (foldl_bfs_visit_grows current st1
                (getNeighbors pf (n_pos current))) as (Hv2 & Hn2 & Hk2).
    destruct (foldl_bfs_visit_queue current st1
                (getNeighbors pf (n_pos current))) as (new & Hnewq & Hnew).
    apply IH. split; [done| |by apply Hv2|done| | |].
    + simpl in Hfuel, Hm2. lia.
    + intros c Hc.
      destruct (decide (c ∈ b_visited st)) as [Hold|Hfresh].
      * destruct (decide (c = n_pos current)) as [->|Hne].
        { right. split; [done|]. intros c' Hc'. by apply Hn2. }
        destruct (Hdone c Hold) as [Hq|[Hct Hcn]].
        -- left. rewrite fmap_cons in Hq.
           apply elem_of_cons in Hq as [?|Hq]; [done|].
           apply list_elem_of_fmap in Hq as (n & -> & Hn).
           apply list_elem_of_fmap. exists n. split; [done|].
           by apply Hk2.
        -- right. split; [done|]. intros c' Hc'. by apply Hv2, Hcn.
      * left.
        assert (∀ st0 ns,
                  c ∈ b_visited (foldl (bfs_visit current) st0 ns) →
                  c ∉ b_visited st0 →
                  c ∈ n_pos
                        <$> b_openQueue (foldl (bfs_visit current) st0 ns))
          as Hadded.
        { clear. intros st0 ns. revert st0.
          induction ns as [|m ms IH]; intros st0 Hin Hout; [done|].
          cbn [foldl] in *.
          destruct (decide (c ∈ b_visited (bfs_visit current st0 m)))
            as [Hm|Hm]; [|by apply IH].
          assert (c ∈ n_pos <$> b_openQueue (bfs_visit current st0 m))
            as Hq.
          { unfold bfs_visit in *. case_bool_decide; simpl in *; [|done].
            rewrite fmap_app. apply elem_of_app. right. simpl.
            apply list_elem_of_singleton. set_solver. }
          apply list_elem_of_fmap in Hq as (n & -> & Hn).
          apply list_elem_of_fmap. exists n. split; [done|].
          by apply (proj2 (proj2 (foldl_bfs_visit_grows current _ ms))). }
        by apply Hadded.
    + exists (node_depth current), this, (next ++ new).
      rewrite Hnewq. simpl. rewrite Hsplit, <- app_assoc.
      split; [done|]. split; [done|]. apply Forall_app. split; [done|].
      eapply Forall_impl; [exact Hnew|]. by intros n (? & _).
    + intros n k. rewrite Hnewq. simpl.
      intros [Hn|Hn]%elem_of_app Hwalk.
      * apply Hopt; [by right|done].
      * rewrite Forall_forall in Hnew.
        destruct (Hnew n Hn) as (Hd & Hneigh & Hunvisited).
        simpl in Hunvisited. rewrite Hd.
        inversion Hwalk as [Heq|b c' k' Hb Hc' Heq1 Heq2].
        { exfalso. apply Hunvisited. by rewrite <- Heq. }
        destruct (decide (k' < node_depth current)%nat) as [Hlt|]; [|lia].
        exfalso. apply Hunvisited. by eapply Hexp.
Qed.

Lemma findPathBFS_invariant pf start target :
  bfs_invariant pf start target (findPathAStar_fuel pf)
    (mkBFS [Node_new start 0 0 None] {[start]}).
Proof.
  split; simpl.
  - repeat constructor.
  - pose proof (size_search_space pf start) as Hsize.
    assert (search_space pf start ∖ {[start]} ⊂ search_space pf start)
      as Hsub.
    { split; [set_solver|]. intros Hsub.
      assert (start ∈ search_space pf start) as Hs
        by (unfold search_space; apply elem_of_union_l;
            by apply elem_of_singleton).
      apply Hsub in Hs. set_solver. }
    apply subset_size in Hsub. lia.
  - by apply elem_of_singleton.
  - intros n ->%list_elem_of_singleton. by apply elem_of_singleton.
  - intros c ->%elem_of_singleton. left. by left.
  - exists 0%nat, [Node_new start 0 0 None], []. repeat constructor.
  - intros n k ->%list_elem_of_singleton _. unfold node_depth. simpl. lia.
Qed.

(** Property X17.  The breadth-first search on a loaded map: the loop ends; a path that
    it returns starts at the start cell, ends at the target and goes from
    neighbour to neighbour; it returns a path whenever some walk leads
    from the start to the target; and no such walk is shorter than the
    path returned. *)
Theorem findPathBFS_shortest_path (pf : MultiUnitPathFinder)
    (start target : Position) :
  isMapLoaded pf = true →
  is_Some (bfs_loop pf target (findPathAStar_fuel pf)
             (mkBFS [Node_new start 0 0 None] {[start]}))
  ∧ (findPathBFS pf start target ≠ [] →
     head (findPathBFS pf start target) = Some start
     ∧ last (findPathBFS pf start target) = Some target
     ∧ walkable pf (findPathBFS pf start target))
  ∧ ∀ p, head p = Some start → last p = Some target → walkable pf p →
         findPathBFS pf start target ≠ []
         ∧ (length (findPathBFS pf start target) ≤ length p)%nat.
Proof.
  intros Hloaded. unfold findPathBFS. rewrite Hloaded. cbn [negb].
  destruct (bfs_loop_invariant pf start target _ _
              (findPathBFS_invariant pf start target))
    as (q & -> & Hpath & Hnone).
  split; [done|]. simpl. split.
  - intros (node & Hnode & Hpos & -> & _)%Hpath.
    rewrite <- Hpos. by apply linked_node_path.
  - intros p Hhead Hlast Hwalk.
    assert (q ≠ []) as Hne.
    { intros Hnil. destruct (Hnone Hnil) as (region & Hs & Ht & Hclosed).
      by eapply closed_region_blocks. }
    split; [done|].
    destruct (Hpath Hne) as (node & _ & _ & -> & Hshort).
    specialize (Hshort _ (walk_to_of_path pf start p target Hhead Hlast Hwalk)).
    unfold reconstructPath, node_depth in *. rewrite length_reverse.
    pose proof (node_chain_nonempty node) as Hchain.
    destruct (node_chain node); [done|].
    destruct p; [done|]. simpl in *. lia.
Qed.

Lemma findPathBFS_shortest_path_witness :
  findPathBFS corridor (0, 0) (2, 0) ≠ []
  ∧ Z.of_nat (length (findPathBFS corridor (0, 0) (2, 0))) ≤ 3.
Proof.
  assert (isMapLoaded corridor = true) as Hloaded by (by vm_compute).
  destruct (proj2 (proj2 (findPathBFS_shortest_path corridor
                            (0, 0) (2, 0) Hloaded))
              [(0, 0); (1, 0); (2, 0)]) as [Hne Hlen].
  4: { split; [exact Hne|]. simpl in Hlen. lia. }
  - done.
  - done.
  - intros [|[|[|i]]] c c' Hc Hc'; simpl in Hc, Hc'; simplify_eq;
      apply (bool_decide_unpack _); by vm_compute.
Defined.

(** *** The depth-first search *)

Lemma walk_last_in_space pf start p c :
  head p = Some start → walkable pf p → last p = Some c →
  c ∈ search_space pf start.
Proof.
  intros Hhead Hwalk Hlast. rewrite last_lookup in Hlast.
  unfold search_space.
  destruct (pred (length p)) as [|i] eqn:Hi.
  - rewrite <- head_lookup, Hhead in Hlast. injection Hlast as <-.
    apply elem_of_union_l. by apply elem_of_singleton.
  - destruct (lookup_lt_is_Some_2 p i) as [b Hb].
    { apply lookup_lt_Some in Hlast. lia. }
    apply elem_of_union_r.
    eapply getNeighbors_cells. by eapply Hwalk.
Qed.

Lemma simple_walk_snoc pf start p c n :
  simple_walk pf start p → last p = Some c →
  n ∈ getNeighbors pf c → n ∉ p →
  simple_walk pf start (p ++ [n]).
Proof.
  intros (Hhead & Hwalk & Hnd) Hlast Hn Hnew. split; [|split].
  - destruct p; [done|]. done.
  - intros i a b Ha Hb.
    destruct (decide (S i < length p)%nat) as [Hlt|Hge].
    + rewrite lookup_app_l in Ha by lia.
      rewrite lookup_app_l in Hb by lia. by eapply Hwalk.
    + assert (S i = length p) as Hi_eq.
      { apply lookup_lt_Some in Hb. rewrite length_app in Hb.
        simpl in Hb. lia. }
      rewrite lookup_app_l in Ha by lia.
      rewrite lookup_app_r in Hb by lia.
      rewrite Hi_eq, Nat.sub_diag in Hb. simpl in Hb. injection Hb as <-.
      rewrite last_lookup in Hlast.
      replace (pred (length p)) with i in Hlast by lia. congruence.
  - apply NoDup_app. split; [done|]. split; [|apply NoDup_singleton].
    intros x Hx ->%list_elem_of_singleton. done.
Qed.

Lemma foldl_dfs_push pf start currentPath c pathStack neighbors :
  simple_walk pf start currentPath → last currentPath = Some c →
  neighbors ⊆ getNeighbors pf c →
  Forall (simple_walk pf start) pathStack →
  Forall (simple_walk pf start)
    (foldl (dfs_push currentPath) pathStack neighbors)
  ∧ (length (foldl (dfs_push currentPath) pathStack neighbors)
     ≤ length pathStack + length neighbors)%nat.
Proof.
  intros Hpath Hlast. revert pathStack.
  induction neighbors as [|n ns IH]; intros pathStack Hsub Hstack.
  - simpl. split; [done|lia].
  - cbn [foldl]. unfold dfs_push at 2 4.
    case_bool_decide as Hin.
    + destruct (IH pathStack) as [? ?]; [set_solver|done|].
      split; [done|]. simpl. lia.
    + destruct (IH ((currentPath ++ [n]) :: pathStack)) as [? Hlen];
        [set_solver| |].
      { constructor; [|done].
        eapply simple_walk_snoc; [done..| |done]. set_solver. }
      split; [done|]. simpl in *. lia.
Qed.

Lemma dfs_loop_invariant pf start target maxPathLength fuel st :
  Forall (simple_walk pf start) (d_pathStack st) →
  (length (d_pathStack st)
   + length (moveDirections pf)
     * size (search_space pf start ∖ d_visited st) < fuel)%nat →
  ∃ p, dfs_loop pf target maxPathLength fuel st = Some p
       ∧ (p ≠ [] → simple_walk pf start p ∧ last p = Some target).
Proof.
  revert st. induction fuel as [|fuel IH]; intros st Hstack Hfuel; [lia|].
  simpl. destruct (d_pathStack st) as [|currentPath pathStack] eqn:Hst.
  { by exists []. }
  apply Forall_cons in Hstack as [Hpath Hstack]. simpl in Hfuel.
  destruct (last currentPath) as [currentPos|] eqn:Hlast.
  2:{ destruct Hpath as (Hhead & _). apply last_None in Hlast.
      by rewrite Hlast in Hhead. }
  case_bool_decide as Hgoal.
  { exists currentPath. split; [done|]. intros _. by rewrite <- Hgoal. }
  destruct (maxPathLength <? Z.of_nat (length currentPath)).
  { apply IH; simpl; [done|lia]. }
  case_bool_decide as Hvisited.
  { apply IH; simpl; [done|lia]. }
  cbv zeta.
  destruct (foldl_dfs_push pf start currentPath currentPos pathStack
              (reverse (getNeighbors pf currentPos)) Hpath Hlast)
    as [Hstack' Hlen]; [|done|].
  { intros n. by rewrite elem_of_reverse. }
  apply IH; simpl; [done|].
  rewrite length_reverse in Hlen.
  assert (length (getNeighbors pf currentPos) ≤ length (moveDirections pf))%nat
    as Hk.
  { unfold getNeighbors. generalize (moveDirections pf). intros dirs.
    induction dirs as [|d dirs IHd]; [done|].
    cbn [omap list_omap]. case_match; simpl; lia. }
  assert (currentPos ∈ search_space pf start ∖ d_visited st) as Hin.
  { apply elem_of_difference. split; [|done].
    destruct Hpath as (Hhead & Hwalk & _). by eapply walk_last_in_space. }
  assert (search_space pf start ∖ ({[currentPos]} ∪ d_visited st)
          ⊂ search_space pf start ∖ d_visited st) as Hsub.
  { split; [set_solver|]. intros Hsub. apply Hsub in Hin. set_solver. }
  apply subset_size in Hsub.
  remember (size (search_space pf start ∖ ({[currentPos]} ∪ d_visited st)))
    as u'.
  remember (size (search_space pf start ∖ d_visited st)) as u.
  remember (length (moveDirections pf)) as k.
  remember (length (getNeighbors pf currentPos)) as j.
  clear -Hfuel Hlen Hk Hsub. nia.
Qed.

(** Property X18.  The depth-first search on a loaded map: the loop ends, and a path
    that it returns starts at the start cell, ends at the target, goes
    from neighbour to neighbour and visits no cell twice. *)
Theorem findPathDFS_simple_path (pf : MultiUnitPathFinder)
    (start target : Position) :
  isMapLoaded pf = true →
  is_Some (dfs_loop pf target
             ((width (battleMap pf) * height (battleMap pf)) `mod` 2 ^ 64)
             (findPathDFS_fuel pf) (mkDFS [[start]] ∅))
  ∧ (findPathDFS pf start target ≠ [] →
     head (findPathDFS pf start target) = Some start
     ∧ last (findPathDFS pf start target) = Some target
     ∧ walkable pf (findPathDFS pf start target)
     ∧ NoDup (findPathDFS pf start target)).
Proof.
  intros Hloaded. unfold findPathDFS. rewrite Hloaded. cbn [negb]. cbv zeta.
  destruct (dfs_loop_invariant pf start target
              ((width (battleMap pf) * height (battleMap pf)) `mod` 2 ^ 64)
              (findPathDFS_fuel pf) (mkDFS [[start]] ∅))
    as (p & -> & Hp).
  - simpl. constructor; [|done]. split; [done|]. split.
    + intros [|i] c c' Hc Hc'; done.
    + apply NoDup_singleton.
  - simpl. rewrite difference_empty_L.
    pose proof (size_search_space pf start) as Hsize.
    unfold findPathDFS_fuel, findPathAStar_fuel in *.
    remember (size (search_space pf start)) as u.
    remember (length (moveDirections pf)) as k.
    remember (Z.to_nat (width (battleMap pf))
              * Z.to_nat (height (battleMap pf)))%nat as wh.
    clear -Hsize. nia.
  - split; [done|]. simpl. intros Hne.
    destruct (Hp Hne) as ((? & ? & ?) & ?). done.
Qed.

Lemma findPathDFS_simple_path_witness :
  is_Some (dfs_loop corridor (2, 0)
             ((width (battleMap corridor) * height (battleMap corridor))
                `mod` 2 ^ 64)
             (findPathDFS_fuel corridor) (mkDFS [[(0, 0)]] ∅)).
Proof.
  refine (proj1 (findPathDFS_simple_path corridor (0, 0) (2, 0) _)).
  by vm_compute.
Defined.

(** *** The sequential strategy keeps the found paths apart *)

Lemma occupancy_grows_trans pf1 pf2 pf3 :
  occupancy_grows pf1 pf2 → occupancy_grows pf2 pf3 →
  occupancy_grows pf1 pf3.
Proof. intros H12 H23 t q Hq. by apply H23, H12. Qed.

Lemma sequential_loop_lookup_grows search pf us j u :
  us !! j = Some u →
  ∃ pf_j,
    same_but_occupancy pf pf_j ∧ occupancy_grows pf pf_j
    ∧ (sequential_loop search pf us).1 !! j
      = Some (sequential_step search pf_j u).1.
Proof.
  revert pf j. induction us as [|u0 us IH]; intros pf j Hj; [done|].
  rewrite sequential_loop_cons. destruct j as [|j]; simpl in Hj.
  - injection Hj as ->. exists pf.
    split; [apply same_but_occupancy_refl|]. split; [by intros t q ?|done].
  - destruct (IH (sequential_step search pf u0).2 j Hj)
      as (pf_j & Hsame & Hgrows & Hres).
    destruct (sequential_step_frame search pf u0) as [Hsame0 Hgrows0].
    exists pf_j. split; [by eapply same_but_occupancy_trans|].
    split; [by eapply occupancy_grows_trans|done].
Qed.

Lemma sequential_loop_pair search pf us i j ui uj :
  (i < j)%nat → us !! i = Some ui → us !! j = Some uj →
  ∃ pf_i pf_j,
    same_but_occupancy pf pf_i ∧ same_but_occupancy pf pf_j
    ∧ (sequential_loop search pf us).1 !! i
      = Some (sequential_step search pf_i ui).1
    ∧ (sequential_loop search pf us).1 !! j
      = Some (sequential_step search pf_j uj).1
    ∧ occupancy_grows (sequential_step search pf_i ui).2 pf_j.
Proof.
  revert pf i j. induction us as [|u0 us IH]; intros pf i j Hij Hi Hj;
    [done|].
  rewrite sequential_loop_cons. destruct j as [|j]; [lia|].
  destruct (sequential_step_frame search pf u0) as [Hsame0 Hgrows0].
  destruct i as [|i]; simpl in Hi, Hj.
  - injection Hi as ->.
    destruct (sequential_loop_lookup_grows search
                (sequential_step search pf ui).2 us j uj Hj)
      as (pf_j & Hsame & Hgrows & Hres).
    exists pf, pf_j. split; [apply same_but_occupancy_refl|].
    split; [by eapply same_but_occupancy_trans|]. done.
  - destruct (IH (sequential_step search pf u0).2 i j) as
      (pf_i & pf_j & Hsi & Hsj & Hri & Hrj & Hgrows); [lia|done..|].
    exists pf_i, pf_j.
    split; [by eapply same_but_occupancy_trans|].
    split; [by eapply same_but_occupancy_trans|]. done.
Qed.

(** What a step of the sequential loop leaves for a unit that it marks as
    found: a path from a valid start whose cells are all reserved
    afterwards, and which from time 1 on avoids every cell reserved
    before. *)
Lemma sequential_step_reserves pf unit :
  Forall orthogonal_step (moveDirections pf) →
  let res := sequential_step findPathAStarWithOccupiedCheck pf unit in
  pathFound res.1 = true →
  (∀ (t : nat) c, path res.1 !! t = Some c →
     is_occupied (occupiedPositionsAtTime res.2) (Z.of_nat t) c = true)
  ∧ (∀ (t : nat) c, (1 ≤ t)%nat → path res.1 !! t = Some c →
       is_occupied (occupiedPositionsAtTime pf) (Z.of_nat t) c = false).
Proof.
  intros Hdirs. cbv zeta. unfold sequential_step.
  destruct (negb (isValidPosition _ (startPos unit).1 _) || _) eqn:Hvalid;
    [done|].
  apply orb_false_iff in Hvalid as [Hvs%negb_false_iff _].
  destruct (negb (isReachable _ (startPos unit).1 _)) eqn:Hreach; [done|].
  apply negb_false_iff in Hreach.
  destruct (negb (isReachable _ (targetPos unit).1 _)); [done|].
  case_bool_decide as Hsame.
  - intros _. cbn [fst snd path set_path]. split.
    + intros [|t] c Hc; [|done]. injection Hc as <-.
      unfold updateOccupiedPositions. cbn [occupiedPositionsAtTime set_occupied].
      apply (updateOccupied_loop_records _ [startPos unit] 0 0 _ 0); done.
    + intros [|t] c Ht Hc; [lia|done].
  - set (p := findPathAStarWithOccupiedCheck pf (startPos unit)
                (targetPos unit)).
    case_bool_decide as Hnil; cbn [negb]; [done|].
    intros _. cbn [fst snd path set_path].
    destruct (temporal_path_facts pf _ _ Hdirs Hnil)
      as (Hhead & _ & Hsteps & _).
    fold p in Hhead, Hsteps.
    pose proof (valid_steps_cells pf _ p Hreach Hvs Hhead Hsteps) as Hcells.
    split.
    + intros t c Hc.
      unfold updateOccupiedPositions. cbn [occupiedPositionsAtTime set_occupied].
      apply (updateOccupied_loop_records _ p 0 0 _ t); [done|].
      by destruct (Forall_lookup_1 _ _ _ _ Hcells Hc).
    + intros [|t] c Ht Hc; [lia|].
      destruct (lookup_lt_is_Some_2 p t) as [b Hb].
      { apply lookup_lt_Some in Hc. lia. }
      replace (Z.of_nat (S t)) with (Z.of_nat t + 1) by lia.
      by destruct (Hsteps t b c Hb Hc) as [(_ & _ & _ & ?)|[-> ?]].
Qed.

(** Property X19.  Under the sequential strategy two units that were found never stand
    on the same cell at the same time step from step 1 on, as long as both
    are still on their way: the later unit plans around every reservation
    of the earlier one.  Nothing is said of time 0, nor of a unit that has
    arrived, whose target cell is reserved no longer. *)
Theorem sequential_paths_apart (pf : MultiUnitPathFinder) (i j : nat)
    (ui uj : Unit) (t : nat) (c : Position) :
  Forall orthogonal_step (moveDirections pf) →
  result_units (findPathsSequential pf).1 !! i = Some ui →
  result_units (findPathsSequential pf).1 !! j = Some uj →
  i ≠ j → pathFound ui = true → pathFound uj = true →
  (1 ≤ t)%nat → path ui !! t = Some c → path uj !! t ≠ Some c.
Proof.
  intros Hdirs.
  assert (∀ i j ui uj c, (i < j)%nat →
            result_units (findPathsSequential pf).1 !! i = Some ui →
            result_units (findPathsSequential pf).1 !! j = Some uj →
            pathFound ui = true → pathFound uj = true →
            (1 ≤ t)%nat → path ui !! t = Some c → path uj !! t ≠ Some c)
    as Hordered.
  { clear i j ui uj c. intros i j ui uj c Hij Hi Hj Hfi Hfj Ht Hci Hcj.
    unfold findPathsSequential, findPathsSequential_with in Hi, Hj.
    set (pf0 := clearOccupiedPositions pf) in *.
    destruct (sequential_loop findPathAStarWithOccupiedCheck pf0 (units pf0))
      as [us pf1] eqn:Hloop.
    cbn [fst result_units] in Hi, Hj.
    assert (us = (sequential_loop findPathAStarWithOccupiedCheck pf0
                    (units pf0)).1) as Hus by (by rewrite Hloop).
    rewrite Hus in Hi, Hj.
    assert (length (sequential_loop findPathAStarWithOccupiedCheck pf0
                      (units pf0)).1 = length (units pf0)) as Hlen.
    { rewrite <- (length_fmap id), sequential_loop_ids.
      by rewrite length_fmap. }
    destruct (lookup_lt_is_Some_2 (units pf0) i) as [vi Hvi].
    { apply lookup_lt_Some in Hi. lia. }
    destruct (lookup_lt_is_Some_2 (units pf0) j) as [vj Hvj].
    { apply lookup_lt_Some in Hj. lia. }
    destruct (sequential_loop_pair findPathAStarWithOccupiedCheck pf0
                (units pf0) i j vi vj Hij Hvi Hvj)
      as (pf_i & pf_j & Hsi & Hsj & Hri & Hrj & Hgrows).
    rewrite Hri in Hi. rewrite Hrj in Hj.
    injection Hi as <-. injection Hj as <-.
    assert (Forall orthogonal_step (moveDirections pf_i)) as Hdi.
    { destruct Hsi as (_ & -> & _). done. }
    assert (Forall orthogonal_step (moveDirections pf_j)) as Hdj.
    { destruct Hsj as (_ & -> & _). done. }
    destruct (sequential_step_reserves pf_i vi Hdi Hfi) as [Hres _].
    destruct (sequential_step_reserves pf_j vj Hdj Hfj) as [_ Hfree].
    specialize (Hres t c Hci). apply Hgrows in Hres.
    specialize (Hfree t c Ht Hcj). congruence. }
  intros Hi Hj Hne Hfi Hfj Ht Hci Hcj.
  destruct (Nat.lt_trichotomy i j) as [Hlt|[->|Hgt]]; [|done|].
  - by apply (Hordered i j ui uj c).
  - by apply (Hordered j i uj ui c).
Qed.

Lemma sequential_paths_apart_witness :
  path (mkUnit 2 (2, 0) (0, 0) [(2, 0); (2, 0); (1, 0); (0, 0)] true)
    !! 1%nat ≠ Some (1, 0).
Proof.
  apply (sequential_paths_apart corridor 0 1
           (mkUnit 1 (0, 0) (2, 0) [(0, 0); (1, 0); (2, 0)] true)
           (mkUnit 2 (2, 0) (0, 0) [(2, 0); (2, 0); (1, 0); (0, 0)] true)
           1 (1, 0)).
  - apply (moveDirections_orthogonal None
             [OpLoadMapFromGrid [[0; -1; 8]];
              OpAddUnit 1 (0, 0) (2, 0); OpAddUnit 2 (2, 0) (0, 0)]).
  - by vm_compute.
  - by vm_compute.
  - done.
  - done.
  - done.
  - done.
  - done.
Defined.

(** *** The four strategies: flags and identities *)

Lemma sequential_step_key search pf unit :
  unit_key (sequential_step search pf unit).1 = unit_key unit.
Proof. unfold sequential_step. by repeat case_match. Qed.

Lemma sequential_loop_keys search pf us :
  unit_key <$> (sequential_loop search pf us).1 = unit_key <$> us.
Proof.
  revert pf. induction us as [|u us IH]; intros pf; [done|].
  rewrite sequential_loop_cons. cbn [fst fmap list_fmap].
  f_equal; [apply sequential_step_key|apply IH].
Qed.

Lemma cooperative_step_key pf unit :
  unit_key (cooperative_step pf unit).1 = unit_key unit.
Proof. unfold cooperative_step. by case_match. Qed.

Lemma cooperative_pass_keys pf us :
  unit_key <$> (cooperative_pass pf us).1 = unit_key <$> us.
Proof.
  revert pf. induction us as [|u us IH]; intros pf; [done|].
  rewrite cooperative_pass_cons. cbn [fst fmap list_fmap].
  f_equal; [apply cooperative_step_key|apply IH].
Qed.

Lemma wait_step_keys us conflict :
  unit_key <$> wait_step us conflict = unit_key <$> us
  ∧ pathFound <$> wait_step us conflict = pathFound <$> us.
Proof.
  unfold wait_step. repeat case_match; try done.
  rewrite !list_fmap_insert. split; apply list_insert_id;
    rewrite list_lookup_fmap; by match goal with H : _ !! _ = Some _ |- _ =>
                                   rewrite H end.
Qed.

Lemma foldl_wait_step_keys us conflicts :
  unit_key <$> foldl wait_step us conflicts = unit_key <$> us
  ∧ pathFound <$> foldl wait_step us conflicts = pathFound <$> us.
Proof.
  revert us. induction conflicts as [|c cs IH]; intros us; [done|].
  simpl. destruct (IH (wait_step us c)) as [-> ->]. apply wait_step_keys.
Qed.

Lemma forallb_fmap {A B : Type} (f : A → B) (g : B → bool) (l : list A) :
  forallb g (f <$> l) = forallb (g ∘ f) l.
Proof.
  induction l as [|x l IH]; [done|].
  rewrite fmap_cons. cbn [forallb compose]. by rewrite IH.
Qed.

Lemma forallb_pathFound_fmap (us us' : list Unit) :
  pathFound <$> us' = pathFound <$> us →
  forallb pathFound us' = forallb pathFound us.
Proof.
  intros Heq.
  change (forallb pathFound us')
    with (forallb ((λ b : bool, b) ∘ pathFound) us').
  change (forallb pathFound us)
    with (forallb ((λ b : bool, b) ∘ pathFound) us).
  by rewrite <- !forallb_fmap, Heq.
Qed.

Lemma cooperative_attempts_flag shuffle todo attempt pf result :
  (todo = 0%nat →
   allPathsFound result = forallb pathFound (result_units result)) →
  allPathsFound result = false →
  allPathsFound (cooperative_attempts shuffle todo attempt pf result).1
  = forallb pathFound
      (result_units (cooperative_attempts shuffle todo attempt pf result).1).
Proof.
  revert attempt pf result.
  induction todo as [|todo IH]; intros attempt pf result Hzero Hfalse.
  - by apply Hzero.
  - cbn [cooperative_attempts].
    destruct (if (0 <? attempt)%nat then _ else _) as [us pf1].
    destruct (cooperative_pass pf1 us) as [us' pf2].
    destruct (forallb pathFound us') eqn:Hall; [done|].
    apply IH; simpl; [by intros _; rewrite Hfalse|done].
Qed.

Lemma strategy_flag std_sort shuffle pf :
  let r := (match strategy pf with
            | SEQUENTIAL => findPathsSequential pf
            | PRIORITY_BASED => findPathsPriorityBased std_sort pf
            | COOPERATIVE => findPathsCooperative shuffle pf
            | WAIT_AND_RETRY => findPathsWithWaiting pf
            end).1 in
  allPathsFound r = forallb pathFound (result_units r).
Proof.
  assert (∀ pf, allPathsFound (findPathsSequential pf).1
                = forallb pathFound (result_units (findPathsSequential pf).1))
    as Hseq.
  { intros pf0. unfold findPathsSequential, findPathsSequential_with.
    by destruct (sequential_loop _ _ _). }
  cbv zeta. destruct (strategy pf).
  - apply Hseq.
  - rewrite findPathsPriorityBased_result. apply Hseq.
  - unfold findPathsCooperative, maxAttempts.
    apply cooperative_attempts_flag; [intros [=]|done].
  - unfold findPathsWithWaiting. specialize (Hseq pf).
    destruct (findPathsSequential pf) as [r pf']. cbn [fst] in *.
    destruct (allPathsFound r) eqn:Hall; cbn [fst]; [|by rewrite Hall].
    cbn [allPathsFound result_units].
    rewrite (forallb_pathFound_fmap (result_units r)); [done|].
    apply foldl_wait_step_keys.
Qed.

(** Property X20.  Whenever [findPathsForAllUnits] runs a strategy (there are units and a
    map is loaded), the flag [allPathsFound] of the result says exactly
    whether every unit of the result is marked as found. *)
Theorem allPathsFound_iff_every_unit_found (std_sort : Sorter)
    (shuffle : Shuffler) (pf : MultiUnitPathFinder) :
  units pf ≠ [] → isMapLoaded pf = true →
  let r := (findPathsForAllUnits std_sort shuffle pf).1 in
  allPathsFound r = forallb pathFound (result_units r).
Proof.
  intros Hunits Hloaded. cbv zeta. unfold findPathsForAllUnits.
  rewrite bool_decide_eq_false_2 by done. rewrite Hloaded. cbn [negb].
  pose proof (strategy_flag std_sort shuffle pf) as Hflag. cbv zeta in Hflag.
  destruct (match strategy pf with SEQUENTIAL => _ | _ => _ end) as [r pf'].
  cbn [fst] in Hflag. by case_match.
Qed.

Lemma allPathsFound_iff_every_unit_found_witness :
  allPathsFound
    (findPathsForAllUnits (λ _ l, l) (λ _ l, l) corridor).1
  = forallb pathFound
      (result_units
         (findPathsForAllUnits (λ _ l, l) (λ _ l, l) corridor).1).
Proof.
  apply (allPathsFound_iff_every_unit_found (λ _ l, l) (λ _ l, l) corridor).
  - by vm_compute.
  - by vm_compute.
Defined.

Lemma cooperative_attempts_keys shuffle todo attempt pf result :
  (∀ n l, shuffle n l ≡ₚ l) →
  unit_key
    <$> result_units (cooperative_attempts shuffle todo attempt pf result).1
  ≡ₚ unit_key <$> result_units result.
Proof.
  intros Hshuffle. revert attempt pf result.
  induction todo as [|todo IH]; intros attempt pf result; [done|].
  cbn [cooperative_attempts].
  destruct (0 <? attempt)%nat.
  - pose proof (cooperative_pass_keys (clearOccupiedPositions pf)
                  (shuffle attempt (result_units result))) as Hkeys.
    destruct (cooperative_pass _ _) as [us' pf2]. cbn [fst] in Hkeys.
    destruct (forallb pathFound us').
    + cbn [fst result_units]. by rewrite Hkeys, Hshuffle.
    + rewrite IH. cbn [result_units]. by rewrite Hkeys, Hshuffle.
  - pose proof (cooperative_pass_keys pf (result_units result)) as Hkeys.
    destruct (cooperative_pass _ _) as [us' pf2]. cbn [fst] in Hkeys.
    destruct (forallb pathFound us').
    + cbn [fst result_units]. by rewrite Hkeys.
    + rewrite IH. cbn [result_units]. by rewrite Hkeys.
Qed.

(** Property X21.  The units of a result are the registered units, each with its id,
    start and target, in some order: a strategy writes paths and flags
    only.  The order is that of the registry except for what [std::sort]
    and [std::shuffle] do to it. *)
Theorem result_units_are_the_registered (std_sort : Sorter)
    (shuffle : Shuffler) (pf : MultiUnitPathFinder) :
  std_sort_contract std_sort → (∀ n l, shuffle n l ≡ₚ l) →
  isMapLoaded pf = true →
  unit_key <$> result_units (findPathsForAllUnits std_sort shuffle pf).1
  ≡ₚ unit_key <$> units pf.
Proof.
  intros Hsort Hshuffle Hloaded. unfold findPathsForAllUnits.
  case_bool_decide as Hunits; [by rewrite Hunits|].
  rewrite Hloaded. cbn [negb].
  assert (∀ pf, unit_key <$> result_units (findPathsSequential pf).1
                = unit_key <$> units pf) as Hseq.
  { intros pf0. unfold findPathsSequential, findPathsSequential_with.
    pose proof (sequential_loop_keys findPathAStarWithOccupiedCheck
                  (clearOccupiedPositions pf0)
                  (units (clearOccupiedPositions pf0))) as Hkeys.
    by destruct (sequential_loop _ _ _). }
  assert (unit_key
            <$> result_units
                  (match strategy pf with
                   | SEQUENTIAL => findPathsSequential pf
                   | PRIORITY_BASED => findPathsPriorityBased std_sort pf
                   | COOPERATIVE => findPathsCooperative shuffle pf
                   | WAIT_AND_RETRY => findPathsWithWaiting pf
                   end).1
          ≡ₚ unit_key <$> units pf) as Hkeys.
  { destruct (strategy pf).
    - by rewrite Hseq.
    - rewrite findPathsPriorityBased_result, Hseq. cbn [units set_units].
      destruct (Hsort (priority_before pf) (priority_before_swo pf)
                  (units pf)) as [Hperm _].
      by rewrite Hperm.
    - unfold findPathsCooperative.
      by rewrite cooperative_attempts_keys.
    - unfold findPathsWithWaiting. specialize (Hseq pf).
      destruct (findPathsSequential pf) as [r pf']. cbn [fst] in *.
      destruct (allPathsFound r); cbn [fst]; [|by rewrite Hseq].
      cbn [result_units].
      destruct (foldl_wait_step_keys (result_units r)
                  (findCollisions
                     (generateStepByStepPositions (result_units r))))
        as [-> _].
      by rewrite Hseq. }
  destruct (match strategy pf with SEQUENTIAL => _ | _ => _ end) as [r pf'].
  cbn [fst] in Hkeys. by case_match.
Qed.

Lemma result_units_are_the_registered_witness :
  let pf := setConflictResolutionStrategy (setUnitPriority corridor 2 5)
              PRIORITY_BASED in
  unit_key
    <$> result_units (findPathsForAllUnits stable_sort (λ _ l, l) pf).1
  ≡ₚ unit_key <$> units pf.
Proof.
  apply (result_units_are_the_registered stable_sort (λ _ l, l)
           (setConflictResolutionStrategy (setUnitPriority corridor 2 5)
              PRIORITY_BASED)).
  - exact stable_sort_contract.
  - done.
  - by vm_compute.
Defined.

(** *** The paths of found units lead from start to target *)

Lemma sequential_step_connects pf unit :
  Forall orthogonal_step (moveDirections pf) →
  path_connects (sequential_step findPathAStarWithOccupiedCheck pf unit).1.
Proof.
  intros Hdirs. unfold sequential_step, path_connects.
  repeat case_match; cbn [fst pathFound set_pathFound set_path path startPos
                           targetPos]; try done.
  - intros _. split; [done|]. simpl. f_equal.
    by match goal with H : bool_decide _ = true |- _ =>
         apply bool_decide_eq_true in H end.
  - intros _.
    match goal with H : negb (bool_decide _) = true |- _ =>
      apply negb_true_iff, bool_decide_eq_false in H;
      destruct (temporal_path_facts pf _ _ Hdirs H) as (? & ? & _) end.
    done.
Qed.

Lemma sequential_loop_connects pf us :
  Forall orthogonal_step (moveDirections pf) →
  Forall path_connects
    (sequential_loop findPathAStarWithOccupiedCheck pf us).1.
Proof.
  revert pf. induction us as [|u us IH]; intros pf Hdirs.
  - by constructor.
  - rewrite sequential_loop_cons. constructor.
    + by apply sequential_step_connects.
    + apply IH.
      destruct (sequential_step_frame findPathAStarWithOccupiedCheck pf u)
        as [(_ & -> & _) _]. done.
Qed.

Lemma findPathsSequential_connects pf :
  Forall orthogonal_step (moveDirections pf) →
  Forall path_connects (result_units (findPathsSequential pf).1).
Proof.
  intros Hdirs. unfold findPathsSequential, findPathsSequential_with.
  pose proof (sequential_loop_connects (clearOccupiedPositions pf)
                (units (clearOccupiedPositions pf)) Hdirs) as Hloop.
  by destruct (sequential_loop _ _ _).
Qed.

Lemma cooperative_step_connects pf unit :
  path_connects (cooperative_step pf unit).1.
Proof.
  unfold cooperative_step, path_connects. cbv zeta.
  case_bool_decide as Hnil; cbn [negb fst pathFound set_pathFound set_path
                                 path startPos targetPos]; [done|].
  intros _.
  destruct (findPathAStar_linked _ _ _ Hnil) as (node & Hnode & Hpos & Hpath).
  destruct (linked_node_path _ _ _ Hnode) as (Hhead & Hlast & _).
  rewrite Hpath. split; [exact Hhead|]. rewrite Hlast, Hpos. done.
Qed.

Lemma cooperative_pass_connects pf us :
  Forall path_connects (cooperative_pass pf us).1.
Proof.
  revert pf. induction us as [|u us IH]; intros pf; [by constructor|].
  rewrite cooperative_pass_cons. constructor;
    [apply cooperative_step_connects|apply IH].
Qed.

Lemma cooperative_attempts_connects shuffle todo attempt pf result :
  (todo = 0%nat → Forall path_connects (result_units result)) →
  Forall path_connects
    (result_units (cooperative_attempts shuffle todo attempt pf result).1).
Proof.
  revert attempt pf result.
  induction todo as [|todo IH]; intros attempt pf result Hres;
    [by apply Hres|].
  cbn [cooperative_attempts].
  destruct (if (0 <? attempt)%nat then _ else _) as [us pf1].
  pose proof (cooperative_pass_connects pf1 us) as Hpass.
  destruct (cooperative_pass pf1 us) as [us' pf2].
  destruct (forallb pathFound us'); [done|]. by apply IH.
Qed.

Lemma insert_wait_ends (p : list Position) (timeStep : nat) :
  (0 < timeStep < length p)%nat →
  head (insert_wait p timeStep) = head p
  ∧ last (insert_wait p timeStep) = last p.
Proof.
  intros Hts. unfold insert_wait.
  destruct (p !! (timeStep - 1)%nat) as [c|]; [|done]. split.
  - destruct p as [|c0 p]; [simpl in Hts; lia|].
    destruct timeStep; [lia|]. done.
  - rewrite <- (take_drop timeStep p) at 3.
    assert (drop timeStep p ≠ []) as Hdrop.
    { intros Hnil%(f_equal length). rewrite length_drop in Hnil.
      simpl in Hnil. lia. }
    rewrite !last_app. destruct (drop timeStep p) as [|d ds]; [done|].
    rewrite last_cons.
    destruct (last (d :: ds)) eqn:Hlast; [done|]. by apply last_None in Hlast.
Qed.

Lemma wait_step_connects us conflict :
  Forall path_connects us → Forall path_connects (wait_step us conflict).
Proof.
  intros Hus. unfold wait_step.
  destruct ((conflict.2 <? Z.of_nat (length us)) && (0 <? conflict.1))
    eqn:Hguard; [|done].
  apply andb_prop in Hguard as [_ Hpos%Z.ltb_lt].
  destruct (us !! Z.to_nat conflict.2) as [unit|] eqn:Hunit; [|done].
  destruct (conflict.1 <? Z.of_nat (length (path unit))) eqn:Hlt; [|done].
  apply Z.ltb_lt in Hlt.
  apply Forall_insert; [done|].
  pose proof (Forall_lookup_1 _ _ _ _ Hus Hunit) as Hconn.
  unfold path_connects in *. cbn [pathFound set_path path startPos targetPos].
  intros Hfound.
  destruct (insert_wait_ends (path unit) (Z.to_nat conflict.1)) as [-> ->];
    [lia|by apply Hconn].
Qed.

(** Property X22.  Whatever the strategy, the path of every unit marked as found in the
    result begins on the start cell of the unit and ends on its target
    cell. *)
Theorem found_paths_connect_start_to_target (std_sort : Sorter)
    (shuffle : Shuffler) (pf : MultiUnitPathFinder) (u : Unit) :
  Forall orthogonal_step (moveDirections pf) →
  u ∈ result_units (findPathsForAllUnits std_sort shuffle pf).1 →
  pathFound u = true →
  head (path u) = Some (startPos u) ∧ last (path u) = Some (targetPos u).
Proof.
  intros Hdirs. revert u. apply (Forall_forall path_connects).
  unfold findPathsForAllUnits.
  case_bool_decide; [by constructor|].
  destruct (isMapLoaded pf); cbn [negb]; [|by constructor].
  assert (Forall path_connects
            (result_units
               (match strategy pf with
                | SEQUENTIAL => findPathsSequential pf
                | PRIORITY_BASED => findPathsPriorityBased std_sort pf
                | COOPERATIVE => findPathsCooperative shuffle pf
                | WAIT_AND_RETRY => findPathsWithWaiting pf
                end).1)) as Hconn.
  { destruct (strategy pf).
    - by apply findPathsSequential_connects.
    - rewrite findPathsPriorityBased_result.
      by apply findPathsSequential_connects.
    - unfold findPathsCooperative, maxAttempts.
      apply cooperative_attempts_connects. intros [=].
    - unfold findPathsWithWaiting.
      pose proof (findPathsSequential_connects pf Hdirs) as Hseq.
      destruct (findPathsSequential pf) as [r pf']. cbn [fst] in *.
      destruct (allPathsFound r); cbn [fst]; [|done].
      cbn [result_units].
      generalize (findCollisions
                    (generateStepByStepPositions (result_units r))).
      intros conflicts. revert Hseq. generalize (result_units r).
      induction conflicts as [|c cs IH]; intros us Hus; [done|].
      simpl. by apply IH, wait_step_connects. }
  destruct (match strategy pf with SEQUENTIAL => _ | _ => _ end) as [r pf'].
  cbn [fst] in Hconn. by case_match.
Qed.

Lemma found_paths_connect_start_to_target_witness :
  head (path (mkUnit 1 (0, 0) (2, 0) [(0, 0); (1, 0); (2, 0)] true))
  = Some (0, 0)
  ∧ last (path (mkUnit 1 (0, 0) (2, 0) [(0, 0); (1, 0); (2, 0)] true))
    = Some (2, 0).
Proof.
  apply (found_paths_connect_start_to_target (λ _ l, l) (λ _ l, l) corridor
           (mkUnit 1 (0, 0) (2, 0) [(0, 0); (1, 0); (2, 0)] true)).
  - apply (moveDirections_orthogonal None
             [OpLoadMapFromGrid [[0; -1; 8]];
              OpAddUnit 1 (0, 0) (2, 0); OpAddUnit 2 (2, 0) (0, 0)]).
  - vm_compute. left.
  - done.
Defined.

(** *** The cooperative strategy is decided by its first pass *)

Lemma astar_loop_ext pf pf' target fuel st :
  (∀ pos, getNeighbors pf' pos = getNeighbors pf pos) →
  astar_loop pf' target fuel st = astar_loop pf target fuel st.
Proof.
  intros Hn. revert st. induction fuel as [|fuel IH]; intros st; [done|].
  simpl. destruct (StdHeap.pq_top (a_openSet st)); [|done].
  case_bool_decide; [done|]. by rewrite Hn, IH.
Qed.

Lemma findPathAStar_ext pf pf' start target :
  battleMap pf' = battleMap pf → moveDirections pf' = moveDirections pf →
  findPathAStar pf' start target = findPathAStar pf start target.
Proof.
  intros Hmap Hdirs. unfold findPathAStar, isMapLoaded, findPathAStar_fuel.
  rewrite Hmap. case_match; [done|].
  rewrite (astar_loop_ext pf pf'); [done|].
  intros pos. unfold getNeighbors. by rewrite Hmap, Hdirs.
Qed.

Lemma cooperative_step_found_alone pf0 pf unit :
  battleMap pf = battleMap pf0 → moveDirections pf = moveDirections pf0 →
  pathFound (cooperative_step pf unit).1 = found_alone pf0 (unit_key unit).
Proof.
  intros Hmap Hdirs. unfold cooperative_step, found_alone. cbv zeta.
  cbn [unit_key fst snd map_startPos map_targetPos tempMap_for].
  rewrite (findPathAStar_ext
             (set_battleMap pf0
                (tempMap_for (battleMap pf0)
                   (Unit_new (id unit) (startPos unit) (targetPos unit))))
             (set_battleMap pf (tempMap_for (battleMap pf) unit)));
    [|by rewrite Hmap|by simpl].
  by case_bool_decide.
Qed.

Lemma cooperative_pass_found_alone pf0 pf us :
  battleMap pf = battleMap pf0 → moveDirections pf = moveDirections pf0 →
  pathFound <$> (cooperative_pass pf us).1
  = found_alone pf0 <$> (unit_key <$> us).
Proof.
  revert pf. induction us as [|u us IH]; intros pf Hmap Hdirs; [done|].
  rewrite cooperative_pass_cons. cbn [fst]. rewrite !fmap_cons.
  f_equal; [by apply cooperative_step_found_alone|].
  destruct (cooperative_step_frame pf u) as (Hm & Hd & _).
  apply IH; congruence.
Qed.

Lemma forallb_Permutation {A : Type} (f : A → bool) (l l' : list A) :
  l ≡ₚ l' → forallb f l = forallb f l'.
Proof.
  induction 1 as [|x l l' _ IH|x y l|l1 l2 l3 _ IH1 _ IH2]; simpl.
  - done.
  - by rewrite IH.
  - by destruct (f x), (f y).
  - congruence.
Qed.

Lemma forallb_pathFound_alt (us : list Unit) :
  forallb pathFound us = forallb (λ b : bool, b) (pathFound <$> us).
Proof. by rewrite forallb_fmap. Qed.

Lemma forallb_pathFound_flags {K : Type} (f : K → bool) (us : list Unit)
    (keys : list K) :
  pathFound <$> us = f <$> keys → forallb pathFound us = forallb f keys.
Proof.
  intros Hflags. rewrite forallb_pathFound_alt, Hflags, forallb_fmap.
  reflexivity.
Qed.

Lemma cooperative_attempts_outcome shuffle pf0 todo attempt pf result :
  (∀ n l, shuffle n l ≡ₚ l) →
  battleMap pf = battleMap pf0 → moveDirections pf = moveDirections pf0 →
  allPathsFound result = false →
  allPathsFound (cooperative_attempts shuffle todo attempt pf result).1
  = match todo with
    | O => false
    | S _ => forallb (found_alone pf0) (unit_key <$> result_units result)
    end.
Proof.
  intros Hshuffle. revert attempt pf result.
  induction todo as [|todo IH]; intros attempt pf result Hmap Hdirs Hfalse;
    [done|].
  cbn [cooperative_attempts].
  set (start := if (0 <? attempt)%nat
                then (shuffle attempt (result_units result),
                      clearOccupiedPositions pf)
                else (result_units result, pf)).
  assert (start.1 ≡ₚ result_units result
          ∧ battleMap start.2 = battleMap pf0
          ∧ moveDirections start.2 = moveDirections pf0)
    as (Hperm & Hmap1 & Hdirs1).
  { unfold start. destruct (0 <? attempt)%nat; cbn [fst snd]; [|done].
    split; [apply Hshuffle|done]. }
  clearbody start. destruct start as [us pf1]. cbn [fst snd] in *.
  pose proof (cooperative_pass_found_alone pf0 pf1 us Hmap1 Hdirs1) as Hflags.
  pose proof (cooperative_pass_keys pf1 us) as Hkeys.
  pose proof (cooperative_pass_frame pf1 us) as (Hm & Hd & _).
  destruct (cooperative_pass pf1 us) as [us' pf2]. cbn [fst snd] in *.
  assert (forallb pathFound us'
          = forallb (found_alone pf0) (unit_key <$> result_units result))
    as Hall.
  { rewrite (forallb_pathFound_flags _ _ _ Hflags).
    apply forallb_Permutation. by rewrite Hperm. }
  destruct (forallb pathFound us') eqn:Hfound; [done|].
  rewrite (IH (S attempt) pf2); [|congruence..|done].
  destruct todo; [done|]. cbn [result_units].
  apply forallb_Permutation. by rewrite Hkeys, Hperm.
Qed.

(** Property X23.  The outcome of the cooperative strategy is that of its first pass:
    the search of a unit reads the map and the unit only, never the
    occupancy table, so a pass that fails fails again after every shuffle,
    and the two retries cannot change whether all paths are found. *)
Theorem cooperative_first_pass_decides (shuffle : Shuffler)
    (pf : MultiUnitPathFinder) :
  (∀ n l, shuffle n l ≡ₚ l) →
  allPathsFound (findPathsCooperative shuffle pf).1
  = forallb pathFound
      (cooperative_pass (clearOccupiedPositions pf) (units pf)).1.
Proof.
  intros Hshuffle. unfold findPathsCooperative, maxAttempts.
  rewrite (cooperative_attempts_outcome shuffle pf); [|done..].
  cbn [result_units]. symmetry. apply forallb_pathFound_flags.
  by apply cooperative_pass_found_alone.
Qed.

Lemma cooperative_first_pass_decides_witness :
  allPathsFound (findPathsCooperative (λ _ l, reverse l) corridor).1
  = forallb pathFound
      (cooperative_pass (clearOccupiedPositions corridor) (units corridor)).1.
Proof.
  apply (cooperative_first_pass_decides (λ _ l, reverse l) corridor).
  intros _ l. apply reverse_Permutation.
Defined.

(** *** Wait-and-retry only repeats cells *)

Lemma waits_added_refl u : waits_added u u.
Proof. by repeat split. Qed.

Lemma waits_added_trans u1 u2 u3 :
  waits_added u1 u2 → waits_added u2 u3 → waits_added u1 u3.
Proof.
  intros (Hk1 & Hf1 & Hs1 & Hc1) (Hk2 & Hf2 & Hs2 & Hc2).
  repeat split; [congruence..|by etrans|]. intros c Hc. by apply Hc1, Hc2.
Qed.

Lemma insert_wait_repeats (p : list Position) (timeStep : nat) :
  p `sublist_of` insert_wait p timeStep
  ∧ ∀ c, c ∈ insert_wait p timeStep → c ∈ p.
Proof.
  unfold insert_wait.
  destruct (p !! (timeStep - 1)%nat) as [c|] eqn:Hc; [|done]. split.
  - rewrite <- (take_drop timeStep p) at 1.
    apply sublist_app; [done|]. by apply sublist_cons.
  - intros d [Hd|[->|Hd]%elem_of_cons]%elem_of_app.
    + by apply (subseteq_take timeStep p).
    + by eapply list_elem_of_lookup_2.
    + by apply (subseteq_drop timeStep p).
Qed.

Lemma wait_step_waits_added us conflict :
  Forall2 waits_added us (wait_step us conflict).
Proof.
  assert (Forall2 waits_added us us) as Hrefl.
  { apply Forall2_same_length_lookup. split; [done|].
    intros i u u' Hu Hu'. simplify_eq. apply waits_added_refl. }
  unfold wait_step.
  destruct ((conflict.2 <? Z.of_nat (length us)) && (0 <? conflict.1));
    [|done].
  destruct (us !! Z.to_nat conflict.2) as [unit|] eqn:Hunit; [|done].
  destruct (conflict.1 <? Z.of_nat (length (path unit))); [|done].
  apply Forall2_same_length_lookup. split; [by rewrite length_insert|].
  intros i u u' Hu Hu'.
  destruct (decide (i = Z.to_nat conflict.2)) as [->|Hne].
  - rewrite list_lookup_insert_eq in Hu' by (by eapply lookup_lt_Some).
    rewrite Hunit in Hu. injection Hu as <-. injection Hu' as <-.
    destruct (insert_wait_repeats (path unit) (Z.to_nat conflict.1)).
    by repeat split.
  - rewrite list_lookup_insert_ne in Hu' by done. simplify_eq.
    apply waits_added_refl.
Qed.

Lemma foldl_wait_step_waits_added us conflicts :
  Forall2 waits_added us (foldl wait_step us conflicts).
Proof.
  induction conflicts as [|c cs IH] using rev_ind.
  - apply Forall2_same_length_lookup. split; [done|].
    intros i u u' Hu Hu'. simpl in Hu'. simplify_eq.
    apply waits_added_refl.
  - rewrite foldl_snoc.
    pose proof (wait_step_waits_added (foldl wait_step us cs) c) as Hstep.
    apply Forall2_same_length_lookup.
    split; [by rewrite (Forall2_length _ _ _ IH),
                       (Forall2_length _ _ _ Hstep)|].
    intros i u u' Hu Hu'.
    destruct (Forall2_lookup_l _ _ _ _ _ IH Hu) as (v & Hv & Huv).
    pose proof (Forall2_lookup_lr _ _ _ _ _ _ Hstep Hv Hu') as Hvu.
    by eapply waits_added_trans.
Qed.

(** Property X24.  The result of the wait-and-retry strategy is the result of the
    sequential strategy with cells of some paths repeated: unit by unit the
    id, the positions and the flag are the same, the sequential path is a
    sublist of the new one and no new cell appears.  The flag
    [allPathsFound] is the sequential one. *)
Theorem waiting_only_repeats_cells (pf : MultiUnitPathFinder) :
  Forall2 waits_added (result_units (findPathsSequential pf).1)
    (result_units (findPathsWithWaiting pf).1)
  ∧ allPathsFound (findPathsWithWaiting pf).1
    = allPathsFound (findPathsSequential pf).1.
Proof.
  unfold findPathsWithWaiting.
  destruct (findPathsSequential pf) as [r pf']. cbn [fst].
  destruct (allPathsFound r) eqn:Hall; cbn [fst result_units allPathsFound].
  - split; [apply foldl_wait_step_waits_added|done].
  - split; [|done]. apply Forall2_same_length_lookup. split; [done|].
    intros i u u' Hu Hu'. simplify_eq. apply waits_added_refl.
Qed.

(** *** Partial results *)

Lemma filter_found_idemp (us : list Unit) :
  filter (λ unit, pathFound unit = true)
    (filter (λ unit, pathFound unit = true) us)
  = filter (λ unit, pathFound unit = true) us.
Proof.
  induction us as [|u us IH]; [done|].
  rewrite filter_cons. case_decide as Hf; [|done].
  rewrite filter_cons, decide_True by done. by rewrite IH.
Qed.

Lemma generateStepByStepPositions_found (us : list Unit) :
  generateStepByStepPositions (filter (λ unit, pathFound unit = true) us)
  = generateStepByStepPositions us.
Proof. unfold generateStepByStepPositions. by rewrite filter_found_idemp. Qed.

Lemma countSuccessfulPaths_length (result : PathfindingResult) :
  countSuccessfulPaths result
  = Z.of_nat (length (filter (λ unit, pathFound unit = true)
                        (result_units result))).
Proof.
  unfold countSuccessfulPaths.
  assert (∀ us z,
            foldl (λ count unit, if pathFound unit then count + 1 else count)
              z us
            = z + Z.of_nat (length (filter (λ unit, pathFound unit = true)
                                      us))) as Hfold.
  { induction us as [|u us IH]; intros z; simpl; [lia|].
    rewrite IH, filter_cons.
    destruct (pathFound u) eqn:Hf.
    - rewrite decide_True by done. simpl. lia.
    - rewrite decide_False by congruence. done. }
  by rewrite Hfold.
Qed.

(** Property X25.  [createPartialResult] keeps the [countSuccessfulPaths] units that were
    found, in their order, and never reports full success; the table it
    builds is the table of the original units, so a result that
    [findPathsForAllUnits] returned keeps its table and its number of
    steps. *)
Theorem createPartialResult_keeps_table (originalResult : PathfindingResult) :
  let partial := createPartialResult originalResult in
  result_units partial
  = filter (λ unit, pathFound unit = true) (result_units originalResult)
  ∧ Z.of_nat (length (result_units partial))
    = countSuccessfulPaths originalResult
  ∧ allPathsFound partial = false
  ∧ stepByStepPositions partial
    = generateStepByStepPositions (result_units originalResult)
  ∧ totalSteps partial
    = Z.of_nat (length (generateStepByStepPositions
                          (result_units originalResult))).
Proof.
  cbv zeta. unfold createPartialResult.
  rewrite countSuccessfulPaths_length.
  rewrite <- (generateStepByStepPositions_found (result_units originalResult)).
  destruct (filter _ (result_units originalResult)) as [|u us] eqn:Hfilter;
    cbn [result_units allPathsFound stepByStepPositions totalSteps];
    repeat split; try done.
Qed.

(** *** The pairwise test and the table *)

Lemma findCollisions_nonempty (table : list (list Position)) :
  findCollisions table ≠ [] ↔
  ∃ (t : nat) (row : list Position), table !! t = Some row ∧ ¬ NoDup row.
Proof.
  split.
  - intros Hne. destruct (findCollisions table) as [|e es] eqn:Hcoll; [done|].
    assert (e ∈ findCollisions table) as He by (rewrite Hcoll; by left).
    pose proof He as (t & a & b & row & p & -> & Hrow & _)%findCollisions_elem.
    exists t, row. split; [done|]. apply (row_entries _ _ _ Hrow). eauto.
  - intros (t & row & Hrow & Hdup).
    apply (row_entries _ _ _ Hrow) in Hdup as [i Hi].
    intros Hnil. rewrite Hnil in Hi. by apply elem_of_nil in Hi.
Qed.

(** Property X26.  For two units with a path, [hasConflict] on their paths is true
    exactly when the step-by-step table of the two has a collision: both
    read a path that is over as standing on its last cell. *)
Theorem hasConflict_iff_table_collision (a b : Unit) :
  pathFound a = true → pathFound b = true →
  path a ≠ [] → path b ≠ [] →
  hasConflict (path a) (path b) = true ↔
  findCollisions (generateStepByStepPositions [a; b]) ≠ [].
Proof.
  intros Hfa Hfb Hna Hnb.
  destruct (generateStepByStepPositions_rows [a; b]) as (Hlen & _ & Hrows).
  { repeat constructor; by intros _. }
  cbv zeta in Hlen, Hrows.
  rewrite !filter_cons, !decide_True, filter_nil in Hlen, Hrows by done.
  cbn [fmap list_fmap compose max_list] in Hlen, Hrows.
  unfold Datatypes.id in Hlen, Hrows.
  rewrite Nat.max_0_r in Hlen. rewrite Nat.max_0_r in Hrows.
  rewrite findCollisions_nonempty. unfold hasConflict.
  rewrite existsb_exists. setoid_rewrite in_seq. split.
  - intros (t & [_ Ht] & Hsame). simpl in Ht.
    destruct (Hrows t Ht) as (row & Hrow & Hcells).
    exists t, row. split; [done|].
    apply Forall2_cons_inv_l in Hcells as (ca & row' & Hca & Hcells & ->).
    apply Forall2_cons_inv_l in Hcells as (cb & row'' & Hcb & Hcells & ->).
    apply Forall2_nil_inv_l in Hcells as ->.
    rewrite Hca, Hcb in Hsame. apply bool_decide_eq_true in Hsame as ->.
    intros Hnd. apply NoDup_cons in Hnd as [Hin _]. apply Hin. by left.
  - intros (t & row & Hrow & Hdup).
    assert (t < Nat.max (length (path a)) (length (path b)))%nat as Ht.
    { rewrite <- Hlen. by eapply lookup_lt_Some. }
    exists t. split; [simpl; lia|].
    destruct (Hrows t Ht) as (row' & Hrow' & Hcells).
    rewrite Hrow in Hrow'. injection Hrow' as <-.
    apply Forall2_cons_inv_l in Hcells as (ca & row' & Hca & Hcells & ->).
    apply Forall2_cons_inv_l in Hcells as (cb & row'' & Hcb & Hcells & ->).
    apply Forall2_nil_inv_l in Hcells as ->.
    rewrite Hca, Hcb. apply bool_decide_eq_true.
    destruct (decide (ca = cb)) as [|Hne]; [done|].
    exfalso. apply Hdup. apply NoDup_cons. split.
    + by intros ->%list_elem_of_singleton.
    + apply NoDup_singleton.
Qed.

Lemma hasConflict_iff_table_collision_witness :
  hasConflict [(0, 0); (1, 0)] [(2, 0); (1, 0); (0, 0)] = true ↔
  findCollisions
    (generateStepByStepPositions
       [mkUnit 1 (0, 0) (1, 0) [(0, 0); (1, 0)] true;
        mkUnit 2 (2, 0) (0, 0) [(2, 0); (1, 0); (0, 0)] true]) ≠ [].
Proof.
  apply (hasConflict_iff_table_collision
           (mkUnit 1 (0, 0) (1, 0) [(0, 0); (1, 0)] true)
           (mkUnit 2 (2, 0) (0, 0) [(2, 0); (1, 0); (0, 0)] true));
    done.
Defined.

(** *** The helpers on paths *)

Lemma join_imap_cons {A B : Type} (F : nat → A → list B) (x : A)
    (p : list A) :
  mjoin (imap F (x :: p)) = F 0%nat x ++ mjoin (imap (F ∘ S) p).
Proof. reflexivity. Qed.

Lemma imap_repeat_none (f : nat → bool) (p : list Position) :
  (∀ j, f j = false) →
  mjoin (imap (λ j pos, if f j then [pos; pos] else [pos]) p) = p.
Proof.
  revert f. induction p as [|x p IH]; intros f Hf; [done|].
  rewrite join_imap_cons. rewrite Hf. simpl. f_equal.
  apply (IH (f ∘ S)). intros j. apply Hf.
Qed.

Lemma imap_repeat_single (f : nat → bool) (p : list Position) (i : nat) :
  (∀ j, f j = true ↔ j = i) → (i < length p)%nat →
  mjoin (imap (λ j pos, if f j then [pos; pos] else [pos]) p)
  = insert_wait p (S i).
Proof.
  revert f i. induction p as [|x p IH]; intros f i Hf Hi;
    [simpl in Hi; lia|].
  rewrite join_imap_cons. destruct i as [|i].
  - rewrite (proj2 (Hf 0%nat)) by done.
    change (imap ((λ j pos, if f j then [pos; pos] else [pos]) ∘ S) p)
      with (imap (λ j pos, if (f ∘ S) j then [pos; pos] else [pos]) p).
    rewrite imap_repeat_none.
    + unfold insert_wait. simpl. by rewrite ?take_0, ?drop_0.
    + intros j. simpl. destruct (f (S j)) eqn:Hj; [|done].
      by apply Hf in Hj.
  - destruct (f 0%nat) eqn:H0; [by apply Hf in H0|].
    change (imap ((λ j pos, if f j then [pos; pos] else [pos]) ∘ S) p)
      with (imap (λ j pos, if (f ∘ S) j then [pos; pos] else [pos]) p).
    rewrite (IH (f ∘ S) i).
    + unfold insert_wait. simpl. rewrite Nat.sub_0_r.
      by destruct (p !! i).
    + intros j. simpl. rewrite Hf. lia.
    + simpl in Hi. lia.
Qed.

Lemma imap_repeat_length (f : nat → bool) (p : list Position) (k : nat) :
  length (mjoin (imap (λ j pos, if f (k + j)%nat then [pos; pos] else [pos])
                   p))
  = (length p
     + length (filter (λ j, f j = true) (seq k (length p))))%nat.
Proof.
  revert k. induction p as [|x p IH]; intros k; [done|].
  rewrite join_imap_cons. rewrite length_app.
  change (imap ((λ j pos, if f (k + j)%nat then [pos; pos] else [pos]) ∘ S) p)
    with (imap (λ j pos, if f (k + S j)%nat then [pos; pos] else [pos]) p).
  rewrite (imap_ext _ (λ j pos, if f (S k + j)%nat then [pos; pos]
                                else [pos])).
  2:{ intros j pos _. by replace (k + S j)%nat with (S k + j)%nat by lia. }
  rewrite IH. cbn [length seq]. rewrite filter_cons, Nat.add_0_r.
  destruct (f k) eqn:Hk.
  - rewrite decide_True by done. simpl. lia.
  - rewrite decide_False by congruence. simpl. lia.
Qed.

(** Property X27.  [addWaitSteps] lengthens a path by one cell for each wait step that is
    an index of the path, and for a single such step [i] it is the path in
    which [findPathsWithWaiting] has inserted a wait at time [i + 1]: the
    cell of index [i] twice in a row. *)
Theorem addWaitSteps_repeats (originalPath : list Position)
    (waitAtSteps : gset Z) :
  length (addWaitSteps originalPath waitAtSteps)
  = (length originalPath
     + length (filter (λ i : nat, Z.of_nat i ∈ waitAtSteps)
                 (seq 0 (length originalPath))))%nat
  ∧ ∀ i : nat, (i < length originalPath)%nat →
      addWaitSteps originalPath {[Z.of_nat i]}
      = insert_wait originalPath (S i).
Proof.
  split.
  - unfold addWaitSteps.
    pose proof (imap_repeat_length
                  (λ i, bool_decide (Z.of_nat i ∈ waitAtSteps))
                  originalPath 0) as Hlen.
    cbn [Nat.add] in Hlen. rewrite Hlen. f_equal. f_equal.
    apply list_filter_iff. intros i. by rewrite bool_decide_eq_true.
  - intros i Hi. unfold addWaitSteps.
    apply (imap_repeat_single
             (λ j, bool_decide (Z.of_nat j ∈ ({[Z.of_nat i]} : gset Z))));
      [|done].
    intros j. rewrite bool_decide_eq_true, elem_of_singleton. lia.
Qed.

Lemma position_at_extend_path (maxLength : nat) (p : list Position)
    (t : nat) :
  (length p ≤ maxLength)%nat →
  position_at (extend_path maxLength p) t = position_at p t.
Proof.
  intros Hlen. unfold extend_path.
  destruct (last p) as [finalPos|] eqn:Hlast; [|done].
  assert (p ≠ []) as Hne by (by intros ->).
  unfold position_at. rewrite length_app, length_replicate.
  replace (length p + (maxLength - length p))%nat with maxLength by lia.
  assert (last (p ++ replicate (maxLength - length p) finalPos)
          = Some finalPos) as Hlast'.
  { rewrite last_app.
    destruct (maxLength - length p)%nat as [|n] eqn:Hn; [done|].
    rewrite last_lookup, length_replicate.
    rewrite lookup_replicate_2 by lia. done. }
  rewrite Hlast'.
  destruct (decide (t < maxLength)%nat) as [Ht|Ht].
  - destruct (decide (t < length p)%nat) as [Htp|Htp].
    + by rewrite lookup_app_l.
    + rewrite lookup_app_r by lia. rewrite lookup_replicate_2 by lia. done.
  - rewrite decide_False by lia. done.
Qed.

(** Property X28.  [extendPathsToSameLength] gives every non-empty path the length of the
    longest one and leaves the empty ones empty; read on the common
    timeline, where a path that is over stands on its last cell, no path
    has changed. *)
Theorem extendPathsToSameLength_spec (paths : list (list Position)) :
  Forall2 (λ p p',
             (p = [] → p' = [])
             ∧ (p ≠ [] → length p' = max_list (length <$> paths))
             ∧ ∀ t, position_at p' t = position_at p t)
    paths (extendPathsToSameLength paths).
Proof.
  unfold extendPathsToSameLength.
  destruct paths as [|p0 paths0]; [constructor|].
  set (paths := p0 :: paths0).
  rewrite foldl_max_max_list. rewrite Nat.max_0_l.
  apply Forall2_fmap_r, Forall2_same_length_lookup. split; [done|].
  intros i p p' Hp Hp'. simplify_eq.
  assert (length p ≤ max_list (length <$> paths))%nat as Hle.
  { pose proof (max_list_bound (length <$> paths)) as Hbound.
    eapply Forall_lookup_1 in Hbound; [exact Hbound|].
    by rewrite list_lookup_fmap, Hp. }
  split; [by intros ->|]. split.
  - intros Hne. by apply extend_path_length.
  - intros t. by apply position_at_extend_path.
Qed.

(** *** The collisions shown by the animator *)

Lemma foldl_place_unit result positions (n : nat) pos idxs :
  foldl (place_unit result positions) ∅ (seq 0 n) !! pos = Some idxs →
  NoDup idxs
  ∧ ∀ z, z ∈ idxs →
      ∃ (i : nat) (unit : Unit),
        z = Z.of_nat i ∧ (i < n)%nat ∧ positions !! i = Some pos
        ∧ result_units result !! i = Some unit ∧ pathFound unit = true.
Proof.
  revert pos idxs. induction n as [|n IH]; intros pos idxs.
  - simpl. by rewrite lookup_empty.
  - rewrite seq_S, foldl_snoc, Nat.add_0_l.
    set (m := foldl (place_unit result positions) ∅ (seq 0 n)) in *.
    assert (m !! pos = Some idxs →
            NoDup idxs
            ∧ ∀ z, z ∈ idxs →
                ∃ (i : nat) (unit : Unit),
                  z = Z.of_nat i ∧ (i < S n)%nat
                  ∧ positions !! i = Some pos
                  ∧ result_units result !! i = Some unit
                  ∧ pathFound unit = true) as Hold.
    { intros Hm. destruct (IH pos idxs Hm) as [Hnd Hin]. split; [done|].
      intros z Hz. destruct (Hin z Hz) as (i & u & ? & ? & ?).
      exists i, u. split; [done|]. split; [lia|done]. }
    unfold place_unit.
    destruct (result_units result !! n) as [unit|] eqn:Hunit; [|done].
    destruct (positions !! n) as [pos_n|] eqn:Hpos; [|done].
    destruct (pathFound unit) eqn:Hfound; [|done].
    destruct (decide (pos = pos_n)) as [->|Hne].
    2:{ by rewrite lookup_insert_ne. }
    rewrite lookup_insert_eq. intros [= <-].
    destruct (m !! pos_n) as [old|] eqn:Hm; simpl.
    + destruct (IH pos_n old Hm) as [Hnd Hin]. split.
      * apply NoDup_app. split; [done|]. split; [|apply NoDup_singleton].
        intros z Hz ->%list_elem_of_singleton.
        destruct (Hin _ Hz) as (i & u & Hi & Hlt & _). lia.
      * intros z [Hz| ->%list_elem_of_singleton]%elem_of_app.
        -- destruct (Hin z Hz) as (i & u & ? & ? & ?).
           exists i, u. split; [done|]. split; [lia|done].
        -- exists n, unit. split; [done|]. split; [lia|done].
    + split; [apply NoDup_singleton|].
      intros z ->%list_elem_of_singleton.
      exists n, unit. split; [done|]. split; [lia|done].
Qed.

(** Property X29.  The animator reports collisions only at a step where [hasCollision]
    finds one: a position it counts holds two different units of the row. *)
Theorem collisionCount_implies_hasCollision (result : PathfindingResult)
    (timeStep : nat) :
  0 < collisionCount result timeStep →
  hasCollision (stepByStepPositions result) (Z.of_nat timeStep) = true.
Proof.
  unfold collisionCount, getUnitsAtPositions, hasCollision.
  destruct (stepByStepPositions result !! timeStep) as [positions|] eqn:Hrow.
  2:{ rewrite map_to_list_empty. simpl. lia. }
  pose proof (lookup_lt_Some _ _ _ Hrow) as Hlt.
  rewrite (proj2 (Z.ltb_ge _ 0)), (proj2 (Z.leb_gt _ _)) by lia.
  cbn [orb]. rewrite Nat2Z.id, Hrow.
  set (m := foldl _ _ _).
  destruct (filter _ (map_to_list m)) as [|[pos idxs] rest] eqn:Hfilter;
    [simpl; lia|]. intros _.
  assert ((pos, idxs) ∈ filter
            (λ entry : Position * list Z,
               (1 < length entry.2)%nat
               ∧ forallb (λ unitIndex,
                            isUnitAtTarget result unitIndex entry.1)
                   entry.2 = false)
            (map_to_list m)) as Hin by (rewrite Hfilter; by left).
  apply list_elem_of_filter in Hin as [[Hlen _] Hin]. simpl in Hlen.
  apply elem_of_map_to_list in Hin.
  destruct (foldl_place_unit _ _ _ _ _ Hin) as [Hnd Hidx].
  destruct idxs as [|a [|b idxs]]; [simpl in Hlen; lia..|].
  destruct (Hidx a) as (i & ui & -> & _ & Hi & _); [by left|].
  destruct (Hidx b) as (j & uj & -> & _ & Hj & _); [right; by left|].
  assert (i ≠ j) as Hij.
  { intros ->. apply NoDup_cons in Hnd as [Hfresh _]. apply Hfresh. by left. }
  destruct (has_duplicate ∅ positions) eqn:Hdup; [done|].
  apply has_duplicate_false in Hdup as [Hnodup _].
  rewrite NoDup_alt in Hnodup. by specialize (Hnodup i j pos Hi Hj).
Qed.

Lemma collisionCount_implies_hasCollision_witness :
  hasCollision [[(0, 0); (2, 0)]; [(1, 0); (1, 0)]] (Z.of_nat 1) = true.
Proof.
  apply (collisionCount_implies_hasCollision
           (mkResult [mkUnit 1 (0, 0) (2, 0) [(0, 0); (1, 0)] true;
                      mkUnit 2 (2, 0) (0, 0) [(2, 0); (1, 0)] true]
              true 2 [[(0, 0); (2, 0)]; [(1, 0); (1, 0)]]) 1).
  by vm_compute.
Defined.

(** The count is 0 when the cell that the animator reads for every found
    unit, the cell of the row at the index of the unit, is the target of
    that unit. *)
Lemma collisionCount_zero_by_index (result : PathfindingResult)
    (timeStep : nat) (positions : list Position) :
  stepByStepPositions result !! timeStep = Some positions →
  (∀ (i : nat) (unit : Unit) (pos : Position),
     result_units result !! i = Some unit → pathFound unit = true →
     positions !! i = Some pos → targetPos unit = pos) →
  collisionCount result timeStep = 0.
Proof.
  intros Hrow Htargets. unfold collisionCount, getUnitsAtPositions.
  rewrite Hrow. set (m := foldl _ _ _).
  destruct (filter _ (map_to_list m)) as [|[pos idxs] rest] eqn:Hfilter;
    [done|]. exfalso.
  assert ((pos, idxs) ∈ filter
            (λ entry : Position * list Z,
               (1 < length entry.2)%nat
               ∧ forallb (λ unitIndex,
                            isUnitAtTarget result unitIndex entry.1)
                   entry.2 = false)
            (map_to_list m)) as Hin by (rewrite Hfilter; by left).
  apply list_elem_of_filter in Hin as [[_ Hnot] Hin]. simpl in Hnot.
  apply elem_of_map_to_list in Hin.
  destruct (foldl_place_unit _ _ _ _ _ Hin) as [_ Hidx].
  assert (forallb (λ unitIndex, isUnitAtTarget result unitIndex pos) idxs
          = true) as Hall; [|congruence].
  apply forallb_forall. intros z Hz%list_elem_of_In.
  destruct (Hidx z Hz) as (i & unit & -> & _ & Hi & Hunit & Hfound).
  unfold isUnitAtTarget.
  pose proof (lookup_lt_Some _ _ _ Hunit) as Hlt.
  rewrite (proj2 (Z.leb_le 0 _)), (proj2 (Z.ltb_lt _ _)) by lia.
  cbn [andb]. rewrite Nat2Z.id, Hunit.
  apply bool_decide_eq_true. by eapply Htargets.
Qed.

(** Property X30.  For a result in which every unit was found and whose
    table is the one that [generateStepByStepPositions] builds from its
    units, the animator counts no collision at a step at which every unit
    stands on its own target (a path that is over standing on its last
    cell), even when several units share a cell, whatever [hasCollision]
    says.  That every unit was found is needed: the animator reads the
    row at the index of the unit, and the row holds the found units
    only. *)
Theorem collisionCount_exempts_targets (result : PathfindingResult)
    (timeStep : nat) :
  stepByStepPositions result
  = generateStepByStepPositions (result_units result) →
  Forall (λ unit, pathFound unit = true ∧ path unit ≠ [])
    (result_units result) →
  (∀ unit, unit ∈ result_units result →
     position_at (path unit) timeStep = Some (targetPos unit)) →
  collisionCount result timeStep = 0.
Proof.
  intros Htable Hfound Htargets.
  destruct (stepByStepPositions result !! timeStep) as [positions|] eqn:Hrow.
  2:{ unfold collisionCount, getUnitsAtPositions. rewrite Hrow.
      by rewrite map_to_list_empty. }
  apply (collisionCount_zero_by_index _ _ positions Hrow).
  intros i unit pos Hunit _ Hpos.
  destruct (generateStepByStepPositions_rows (result_units result))
    as (Hlen & _ & Hrows).
  { eapply Forall_impl; [exact Hfound|]. by intros u [_ ?] _. }
  cbv zeta in Hlen, Hrows.
  assert (filter (λ u, pathFound u = true) (result_units result)
          = result_units result) as Hall.
  { clear -Hfound. induction Hfound as [|u us [Hu _] _ IH]; [done|].
    rewrite filter_cons, decide_True by done. by rewrite IH. }
  rewrite Hall in Hlen, Hrows. rewrite <- Htable in Hlen, Hrows.
  destruct (Hrows timeStep) as (row & Hrow' & Hcells).
  { rewrite <- Hlen. by eapply lookup_lt_Some. }
  rewrite Hrow in Hrow'. injection Hrow' as <-.
  destruct (Forall2_lookup_l _ _ _ _ _ Hcells Hunit) as (c & Hc & Hat).
  rewrite Hpos in Hc. injection Hc as <-.
  rewrite (Htargets unit) in Hat by (by eapply list_elem_of_lookup_2).
  by injection Hat.
Qed.

Lemma collisionCount_exempts_targets_witness :
  collisionCount
    (mkResult [mkUnit 1 (0, 0) (1, 0) [(0, 0); (1, 0)] true;
               mkUnit 2 (2, 0) (1, 0) [(2, 0); (1, 0)] true]
       true 2 [[(0, 0); (2, 0)]; [(1, 0); (1, 0)]]) 1
  = 0.
Proof.
  apply (collisionCount_exempts_targets
           (mkResult [mkUnit 1 (0, 0) (1, 0) [(0, 0); (1, 0)] true;
                      mkUnit 2 (2, 0) (1, 0) [(2, 0); (1, 0)] true]
              true 2 [[(0, 0); (2, 0)]; [(1, 0); (1, 0)]]) 1).
  - by vm_compute.
  - repeat constructor; done.
  - intros unit [->|[->|Hin%elem_of_nil]%elem_of_cons]%elem_of_cons;
      by vm_compute.
Defined.

(** With a unit that was not found the exemption can fail: here the units
    2, 3 and 4 were found and stand on their targets, the last two on the
    same one, but the animator takes the cells of units 3 and 4 for those
    of units 2 and 3, and counts a collision. *)
Lemma collisionCount_misreads_rows :
  let us := [mkUnit 1 (4, 0) (9, 9) [] false;
             mkUnit 2 (0, 0) (0, 0) [(0, 0)] true;
             mkUnit 3 (1, 0) (2, 0) [(1, 0); (2, 0)] true;
             mkUnit 4 (3, 0) (2, 0) [(3, 0); (2, 0)] true] in
  let result := mkResult us false 2 (generateStepByStepPositions us) in
  (∀ unit, unit ∈ us → pathFound unit = true →
     position_at (path unit) 1 = Some (targetPos unit))
  ∧ collisionCount result 1 = 1.
Proof.
  cbv zeta. split; [|by vm_compute].
  intros unit Hin Hf.
  repeat (apply elem_of_cons in Hin as [->|Hin]; [by vm_compute|]).
  by apply elem_of_nil in Hin.
Qed.
